(** * ARM performance counter support (arch/arm/kernel/perf_event.c)

    A shallow embedding of the core of the ARM PMU driver: the per-CPU
    counter table, period programming, delta accounting, scheduling of
    events onto counters, group validation, event initialisation and the
    reservation of the PMU interrupts.

    Machine integers are [Z] with the wrap-around written out, the
    occupancy bitmap is a [Z] read with [Z.testbit], the [events] array is
    a list updated by index, and objects reached through pointers (events,
    per-CPU tables) live in finite maps keyed by their address. *)

From Stdlib Require Import ZArith Lia Bool List.
From stdpp Require Import base option list gmap.

Local Open Scope Z_scope.

(** ** Machine integers *)

Definition wrap32 (z : Z) : Z := z mod 2 ^ 32.
Definition wrap64 (z : Z) : Z := z mod 2 ^ 64.
(** Conversion of a 32-bit (64-bit) pattern to [int] ([s64]). *)
Definition to_s32 (z : Z) : Z := (z + 2 ^ 31) mod 2 ^ 32 - 2 ^ 31.
Definition to_s64 (z : Z) : Z := (z + 2 ^ 63) mod 2 ^ 64 - 2 ^ 63.

(** ** Constants of the kernel headers used by the driver *)

Definition EPERM : Z := 1.
Definition ENOENT : Z := 2.
Definition EAGAIN : Z := 11.
Definition EBUSY : Z := 16.
Definition ENODEV : Z := 19.
Definition EINVAL : Z := 22.
Definition ENOSPC : Z := 28.

Definition ARMPMU_MAX_HWEVENTS : Z := 32.
Definition HW_OP_UNSUPPORTED : Z := 0xFFFF.
Definition CACHE_OP_UNSUPPORTED : Z := 0xFFFF.

Definition PERF_TYPE_HARDWARE : Z := 0.
Definition PERF_TYPE_HW_CACHE : Z := 3.
Definition PERF_TYPE_RAW : Z := 4.

Definition PERF_EF_START : Z := 0x01.
Definition PERF_EF_RELOAD : Z := 0x02.
Definition PERF_EF_UPDATE : Z := 0x04.

Definition PERF_HES_STOPPED : Z := 0x01.
Definition PERF_HES_UPTODATE : Z := 0x02.

Definition PERF_EVENT_STATE_OFF : Z := -1.

(** ** Event mapping *)

Section EventMapping.

(** The bounds of the generic cache-event enumeration come from
    include/linux/perf_event.h; the functions below are read against
    any value of them. *)
Variables PERF_COUNT_HW_CACHE_MAX
          PERF_COUNT_HW_CACHE_OP_MAX
          PERF_COUNT_HW_CACHE_RESULT_MAX : Z.

(** [cache_map] is the backend's three-dimensional table of [unsigned]
    entries, read after each index was checked against its bound. *)
Definition armpmu_map_cache_event (cache_map : Z -> Z -> Z -> Z)
                                  (config : Z) : Z :=
  let cache_type := Z.land (Z.shiftr config 0) 0xff in
  if PERF_COUNT_HW_CACHE_MAX <=? cache_type then - EINVAL else
  let cache_op := Z.land (Z.shiftr config 8) 0xff in
  if PERF_COUNT_HW_CACHE_OP_MAX <=? cache_op then - EINVAL else
  let cache_result := Z.land (Z.shiftr config 16) 0xff in
  if PERF_COUNT_HW_CACHE_RESULT_MAX <=? cache_result then - EINVAL else
  let ret := wrap32 (cache_map cache_type cache_op cache_result) in
  if ret =? CACHE_OP_UNSUPPORTED then - ENOENT else to_s32 ret.

(** [event_map] is the backend's one-dimensional table, an array of
    [PERF_COUNT_HW_MAX] [unsigned] entries, here the list of them.  The
    index is the unsigned 64-bit [config], which the function does not
    check: a read past the end of the array is undefined, [None] (as is,
    here, an index that is no [u64]). *)
Definition armpmu_map_event (event_map : list Z) (config : Z) : option Z :=
  if config <? 0 then None else
  match event_map !! Z.to_nat config with
  | None => None
  | Some entry =>
      let mapping := to_s32 entry in
      Some (if mapping =? HW_OP_UNSUPPORTED then - ENOENT else mapping)
  end.

Definition armpmu_map_raw_event (raw_event_mask : Z) (config : Z) : Z :=
  to_s32 (Z.land config raw_event_mask).

Definition map_cpu_event (attr_type attr_config : Z)
                         (event_map : list Z)
                         (cache_map : Z -> Z -> Z -> Z)
                         (raw_event_mask : Z) : option Z :=
  let config := attr_config in
  if attr_type =? PERF_TYPE_HARDWARE then armpmu_map_event event_map config
  else if attr_type =? PERF_TYPE_HW_CACHE then
    Some (armpmu_map_cache_event cache_map config)
  else if attr_type =? PERF_TYPE_RAW then
    Some (armpmu_map_raw_event raw_event_mask config)
  else Some (- ENOENT).

End EventMapping.

(** The packing of a cache event into the low 24 bits of [config], as the
    generic layer encodes it: type, then operation, then result. *)
Definition cache_config_pack (cache_type cache_op cache_result : Z) : Z :=
  Z.lor cache_type
        (Z.lor (Z.shiftl cache_op 8) (Z.shiftl cache_result 16)).

(** ** Data model *)

(** Addresses of objects of the generic layer ([struct perf_event],
    [struct pmu]). *)
Definition ptr := nat.

(** The fields of [struct perf_event_attr] the driver reads. *)
Record perf_event_attr := {
  attr_type : Z;
  attr_config : Z;
  exclude_user : bool;
  exclude_kernel : bool;
  exclude_hv : bool;
  exclude_idle : bool
}.

(** [struct hw_perf_event].  [period_left] is kept as the [s64] its
    readers see, [prev_count] as the [u64] its readers see. *)
Record hw_perf_event := {
  idx : Z;
  config_base : Z;
  config : Z;
  event_base : Z;
  state : Z;
  sample_period : Z;
  last_period : Z;
  period_left : Z;
  prev_count : Z
}.

Definition set_idx (v : Z) (h : hw_perf_event) : hw_perf_event :=
  {| idx := v; config_base := config_base h; config := config h;
     event_base := event_base h; state := state h;
     sample_period := sample_period h; last_period := last_period h;
     period_left := period_left h; prev_count := prev_count h |}.
Definition set_config_base (v : Z) (h : hw_perf_event) : hw_perf_event :=
  {| idx := idx h; config_base := v; config := config h;
     event_base := event_base h; state := state h;
     sample_period := sample_period h; last_period := last_period h;
     period_left := period_left h; prev_count := prev_count h |}.
Definition set_config (v : Z) (h : hw_perf_event) : hw_perf_event :=
  {| idx := idx h; config_base := config_base h; config := v;
     event_base := event_base h; state := state h;
     sample_period := sample_period h; last_period := last_period h;
     period_left := period_left h; prev_count := prev_count h |}.
Definition set_event_base (v : Z) (h : hw_perf_event) : hw_perf_event :=
  {| idx := idx h; config_base := config_base h; config := config h;
     event_base := v; state := state h;
     sample_period := sample_period h; last_period := last_period h;
     period_left := period_left h; prev_count := prev_count h |}.
Definition set_state (v : Z) (h : hw_perf_event) : hw_perf_event :=
  {| idx := idx h; config_base := config_base h; config := config h;
     event_base := event_base h; state := v;
     sample_period := sample_period h; last_period := last_period h;
     period_left := period_left h; prev_count := prev_count h |}.
Definition set_sample_period (v : Z) (h : hw_perf_event) : hw_perf_event :=
  {| idx := idx h; config_base := config_base h; config := config h;
     event_base := event_base h; state := state h;
     sample_period := v; last_period := last_period h;
     period_left := period_left h; prev_count := prev_count h |}.
Definition set_last_period (v : Z) (h : hw_perf_event) : hw_perf_event :=
  {| idx := idx h; config_base := config_base h; config := config h;
     event_base := event_base h; state := state h;
     sample_period := sample_period h; last_period := v;
     period_left := period_left h; prev_count := prev_count h |}.
Definition set_period_left (v : Z) (h : hw_perf_event) : hw_perf_event :=
  {| idx := idx h; config_base := config_base h; config := config h;
     event_base := event_base h; state := state h;
     sample_period := sample_period h; last_period := last_period h;
     period_left := v; prev_count := prev_count h |}.
Definition set_prev_count (v : Z) (h : hw_perf_event) : hw_perf_event :=
  {| idx := idx h; config_base := config_base h; config := config h;
     event_base := event_base h; state := state h;
     sample_period := sample_period h; last_period := last_period h;
     period_left := period_left h; prev_count := v |}.

(** The fields of [struct perf_event] the driver reads or writes.
    [sibling_list] holds the addresses of the events linked through
    [group_entry]; [count] is the cumulative 64-bit count. *)
Record perf_event := {
  attr : perf_event_attr;
  hw : hw_perf_event;
  pmu : ptr;
  group_leader : ptr;
  sibling_list : list ptr;
  ev_state : Z;
  count : Z
}.

Definition set_hw (v : hw_perf_event) (e : perf_event) : perf_event :=
  {| attr := attr e; hw := v; pmu := pmu e; group_leader := group_leader e;
     sibling_list := sibling_list e; ev_state := ev_state e;
     count := count e |}.
Definition set_count (v : Z) (e : perf_event) : perf_event :=
  {| attr := attr e; hw := hw e; pmu := pmu e; group_leader := group_leader e;
     sibling_list := sibling_list e; ev_state := ev_state e; count := v |}.

(** [struct cpu_hw_events]: the events active on the CPU, by counter
    index, and the occupancy bitmap (one [unsigned long] for 32 bits).
    The array has [ARMPMU_MAX_HWEVENTS] entries: tables start zeroed and
    are updated in place, which keeps the length; an index at or above
    that bound is out of bounds.  The lock is not part of the sequential
    model. *)
Record cpu_hw_events := {
  events : list (option ptr);
  used_mask : Z
}.

(** [memset(&fake_pmu, 0, sizeof(fake_pmu))], also the initial value of
    the static per-CPU variable. *)
Definition zeroed_cpu_hw_events : cpu_hw_events :=
  {| events := replicate (Z.to_nat ARMPMU_MAX_HWEVENTS) None;
     used_mask := 0 |}.

(** Bit operations of the kernel on a one-word bitmap. *)
Definition set_bit (nr : Z) (mask : Z) : Z := Z.lor mask (Z.shiftl 1 nr).
Definition clear_bit (nr : Z) (mask : Z) : Z := Z.ldiff mask (Z.shiftl 1 nr).
Definition test_bit (nr : Z) (mask : Z) : bool := Z.testbit mask nr.

(** [struct platform_device], as far as the driver looks into it. *)
Record platform_device := {
  num_resources : Z;
  platform_get_irq : Z -> Z
}.

(** The services of the interrupt layer the reservation calls:
    [irq_set_affinity irq cpu] and [request_irq irq] give the error code
    of the call (0 on success). *)
Record irq_layer := {
  num_possible_cpus : Z;
  irq_set_affinity : Z -> Z -> Z;
  request_irq : Z -> Z
}.

Section Driver.

(** The state of the PMU registers; each backend has its own. *)
Context {H : Type}.

(** [struct arm_pmu]: the backend operation table and the constants of
    the PMU.  [pmu_addr] is the address of the embedded [struct pmu],
    the one events of this PMU carry in [event->pmu].  The operations
    that receive a pointer to an object they may write
    ([get_event_idx], [set_event_filter]) return the new value of that
    object; [enable] and [disable] write registers only.  The mutable
    fields ([active_events], [active_irqs]) are in [world]. *)
Record arm_pmu := {
  pmu_addr : ptr;
  enable : hw_perf_event -> Z -> H -> H;
  disable : hw_perf_event -> Z -> H -> H;
  get_event_idx : cpu_hw_events -> hw_perf_event ->
                  Z * cpu_hw_events * hw_perf_event;
  set_event_filter :
    option (hw_perf_event -> perf_event_attr -> Z * hw_perf_event);
  read_counter : Z -> H -> Z * H;
  write_counter : Z -> Z -> H -> H;
  start : H -> H;
  stop : H -> H;
  map_event : perf_event -> Z;
  num_events : Z;
  max_period : Z;
  plat_device : platform_device
}.

(** Everything the driver can reach: the event objects by address, the
    per-CPU counter tables by CPU number, the CPU the code runs on, the
    PMU registers, and the reservation state. *)
Record world := {
  event_heap : gmap ptr perf_event;
  percpu_hw_events : gmap nat cpu_hw_events;
  this_cpu : nat;
  regs : H;
  active_events : Z;
  active_irqs : Z;
  irqs_held : list Z;
  pmu_reserved : bool
}.

Definition set_event_heap (v : gmap ptr perf_event) (w : world) : world :=
  {| event_heap := v; percpu_hw_events := percpu_hw_events w;
     this_cpu := this_cpu w; regs := regs w;
     active_events := active_events w; active_irqs := active_irqs w;
     irqs_held := irqs_held w; pmu_reserved := pmu_reserved w |}.
Definition set_percpu_hw_events (v : gmap nat cpu_hw_events) (w : world)
  : world :=
  {| event_heap := event_heap w; percpu_hw_events := v;
     this_cpu := this_cpu w; regs := regs w;
     active_events := active_events w; active_irqs := active_irqs w;
     irqs_held := irqs_held w; pmu_reserved := pmu_reserved w |}.
Definition set_this_cpu (v : nat) (w : world) : world :=
  {| event_heap := event_heap w; percpu_hw_events := percpu_hw_events w;
     this_cpu := v; regs := regs w;
     active_events := active_events w; active_irqs := active_irqs w;
     irqs_held := irqs_held w; pmu_reserved := pmu_reserved w |}.
Definition set_regs (v : H) (w : world) : world :=
  {| event_heap := event_heap w; percpu_hw_events := percpu_hw_events w;
     this_cpu := this_cpu w; regs := v;
     active_events := active_events w; active_irqs := active_irqs w;
     irqs_held := irqs_held w; pmu_reserved := pmu_reserved w |}.
Definition set_active_events (v : Z) (w : world) : world :=
  {| event_heap := event_heap w; percpu_hw_events := percpu_hw_events w;
     this_cpu := this_cpu w; regs := regs w;
     active_events := v; active_irqs := active_irqs w;
     irqs_held := irqs_held w; pmu_reserved := pmu_reserved w |}.
Definition set_active_irqs (v : Z) (w : world) : world :=
  {| event_heap := event_heap w; percpu_hw_events := percpu_hw_events w;
     this_cpu := this_cpu w; regs := regs w;
     active_events := active_events w; active_irqs := v;
     irqs_held := irqs_held w; pmu_reserved := pmu_reserved w |}.
Definition set_irqs_held (v : list Z) (w : world) : world :=
  {| event_heap := event_heap w; percpu_hw_events := percpu_hw_events w;
     this_cpu := this_cpu w; regs := regs w;
     active_events := active_events w; active_irqs := active_irqs w;
     irqs_held := v; pmu_reserved := pmu_reserved w |}.
Definition set_pmu_reserved (v : bool) (w : world) : world :=
  {| event_heap := event_heap w; percpu_hw_events := percpu_hw_events w;
     this_cpu := this_cpu w; regs := regs w;
     active_events := active_events w; active_irqs := active_irqs w;
     irqs_held := irqs_held w; pmu_reserved := v |}.

(** *** The monad of driver code

    A computation reads and writes the [world]; [None] stands for
    behaviour C leaves undefined (a pointer to no object, an array index
    out of bounds). *)
Definition M (A : Type) : Type := world -> option (A * world).

#[export] Instance M_ret : MRet M := fun A a w => Some (a, w).
#[export] Instance M_bind : MBind M := fun A B f m w =>
  match m w with
  | Some (a, w') => f a w'
  | None => None
  end.

Definition undefined {A : Type} : M A := fun _ => None.

Definition event_deref (p : ptr) : M perf_event := fun w =>
  match event_heap w !! p with
  | Some ev => Some (ev, w)
  | None => None
  end.

(** The world with the object at [p] replaced by [ev]. *)
Definition event_store (p : ptr) (ev : perf_event) (w : world) : world :=
  set_event_heap (<[p := ev]> (event_heap w)) w.

(** A store through [p], which must point to an event. *)
Definition event_modify (p : ptr) (f : perf_event -> perf_event)
  : M unit := fun w =>
  match event_heap w !! p with
  | Some ev => Some (tt, event_store p (f ev) w)
  | None => None
  end.

Definition hwc_modify (p : ptr) (f : hw_perf_event -> hw_perf_event)
  : M unit :=
  event_modify p (fun ev => set_hw (f (hw ev)) ev).

(** [armpmu->get_hw_events()], that is [&__get_cpu_var(cpu_hw_events)]. *)
Definition get_hw_events : M cpu_hw_events := fun w =>
  match percpu_hw_events w !! this_cpu w with
  | Some cpuc => Some (cpuc, w)
  | None => None
  end.

Definition put_hw_events (cpuc : cpu_hw_events) : M unit := fun w =>
  match percpu_hw_events w !! this_cpu w with
  | Some _ =>
      Some (tt, set_percpu_hw_events
                  (<[this_cpu w := cpuc]> (percpu_hw_events w)) w)
  | None => None
  end.

(** A register access of the backend. *)
Definition reg_write (f : H -> H) : M unit := fun w =>
  Some (tt, set_regs (f (regs w)) w).
Definition reg_read {A : Type} (f : H -> A * H) : M A := fun w =>
  let '(a, h) := f (regs w) in Some (a, set_regs h w).

(** The PMU found at boot ([static struct arm_pmu *armpmu]) and the
    interrupt layer of the machine. *)
Variable armpmu : arm_pmu.
Variable irq_env : irq_layer.

(** [to_arm_pmu(p)] is [container_of]: it points to a [struct arm_pmu]
    only when [p] is the [struct pmu] embedded in one; the result is
    taken where the code first dereferences it. *)
Definition to_arm_pmu (p : ptr) : M arm_pmu :=
  if decide (p = pmu_addr armpmu) then mret armpmu else undefined.

(** *** Period programming and delta accounting

    In every caller [hwc] is [&event->hw], so the functions take the
    event alone.  [perf_event_update_userpage] touches nothing modelled
    here and is left out; the local [left] is written [left_]. *)

Definition armpmu_event_set_period (event : ptr) (i : Z) : M Z :=
  ev ← event_deref event;
  armpmu ← to_arm_pmu (pmu ev);
  let hwc := hw ev in
  let left_ := period_left hwc in
  let period := to_s64 (sample_period hwc) in
  let ret := 0 in
  let '(left_, hwc, ret) :=
    if left_ <=? to_s64 (- period) then
      (period, set_last_period (wrap64 period) (set_period_left period hwc), 1)
    else (left_, hwc, ret) in
  let '(left_, hwc, ret) :=
    if left_ <=? 0 then
      let left_ := to_s64 (left_ + period) in
      (left_, set_last_period (wrap64 period) (set_period_left left_ hwc), 1)
    else (left_, hwc, ret) in
  let left_ :=
    if to_s64 (max_period armpmu) <? left_ then to_s64 (max_period armpmu)
    else left_ in
  let hwc := set_prev_count (wrap64 (- left_)) hwc in
  event_modify event (set_hw hwc);;
  reg_write (write_counter armpmu i (Z.land (wrap64 (- left_)) 0xffffffff));;
  mret ret.

(** The value of the local [delta] of [armpmu_event_update], from the
    two raw counts after masking. *)
Definition event_delta (max_period prev_raw_count new_raw_count overflow : Z)
  : Z :=
  if overflow =? 0 then wrap64 (new_raw_count - prev_raw_count)
  else wrap64 (max_period - prev_raw_count + new_raw_count + 1).

(** Nothing runs between the read of [prev_count] and the
    compare-and-exchange, so the exchange succeeds at the first try. *)
Definition armpmu_event_update (event : ptr) (i : Z) (overflow : Z) : M Z :=
  ev ← event_deref event;
  armpmu ← to_arm_pmu (pmu ev);
  let prev_raw_count := prev_count (hw ev) in
  new_raw_count ← reg_read (read_counter armpmu i);
  let new_raw_count := wrap32 new_raw_count in
  hwc_modify event (set_prev_count new_raw_count);;
  let new_raw_count := Z.land new_raw_count (max_period armpmu) in
  let prev_raw_count := Z.land prev_raw_count (max_period armpmu) in
  let delta :=
    event_delta (max_period armpmu) prev_raw_count new_raw_count overflow in
  event_modify event (fun e => set_count (wrap64 (count e + delta)) e);;
  hwc_modify event
    (fun h => set_period_left (to_s64 (period_left h - delta)) h);;
  mret new_raw_count.

Definition armpmu_read (event : ptr) : M unit :=
  ev ← event_deref event;
  let hwc := hw ev in
  if idx hwc <? 0 then mret tt
  else armpmu_event_update event (idx hwc) 0;; mret tt.

Definition armpmu_stop (event : ptr) (flags : Z) : M unit :=
  ev ← event_deref event;
  armpmu ← to_arm_pmu (pmu ev);
  let hwc := hw ev in
  if Z.land (state hwc) PERF_HES_STOPPED =? 0 then
    reg_write (disable armpmu hwc (idx hwc));;
    armpmu_event_update event (idx hwc) 0;;
    hwc_modify event
      (fun h => set_state
                  (Z.lor (state h) (Z.lor PERF_HES_STOPPED PERF_HES_UPTODATE))
                  h)
  else mret tt.

Definition armpmu_start (event : ptr) (flags : Z) : M unit :=
  ev ← event_deref event;
  armpmu ← to_arm_pmu (pmu ev);
  hwc_modify event (set_state 0);;
  armpmu_event_set_period event (idx (hw ev));;
  ev' ← event_deref event;
  reg_write (enable armpmu (hw ev') (idx (hw ev'))).

(** *** The PMU-wide bracket *)

Fixpoint armpmu_enable_loop (cpuc : cpu_hw_events) (indices : list Z)
                            (enabled : Z) : M Z :=
  match indices with
  | [] => mret enabled
  | i :: rest =>
      match events cpuc !! Z.to_nat i with
      | None => undefined
      | Some None => armpmu_enable_loop cpuc rest enabled
      | Some (Some event) =>
          ev ← event_deref event;
          reg_write (enable armpmu (hw ev) i);;
          armpmu_enable_loop cpuc rest 1
      end
  end.

Definition armpmu_enable (p : ptr) : M unit :=
  armpmu ← to_arm_pmu p;
  cpuc ← get_hw_events;
  enabled ← armpmu_enable_loop cpuc (seqZ 0 (num_events armpmu)) 0;
  if enabled =? 0 then mret tt else reg_write (start armpmu).

Definition armpmu_disable (p : ptr) : M unit :=
  armpmu ← to_arm_pmu p;
  reg_write (stop armpmu).

(** Modelled from the spec: the PMU-wide enable/disable bracket of the
    generic layer ([perf_pmu_disable], [perf_pmu_enable]), which suspends
    and resumes all counting on the current CPU through the two callbacks
    above; its nesting count is not modelled. *)
Definition perf_pmu_disable (p : ptr) : M unit := armpmu_disable p.
Definition perf_pmu_enable (p : ptr) : M unit := armpmu_enable p.

(** *** Scheduling onto and off the hardware *)

Definition armpmu_del (event : ptr) (flags : Z) : M unit :=
  ev ← event_deref event;
  armpmu ← to_arm_pmu (pmu ev);
  let i := idx (hw ev) in
  (* WARN_ON(idx < 0) prints and goes on *)
  armpmu_stop event PERF_EF_UPDATE;;
  cpuc ← get_hw_events;
  if (0 <=? i) && (i <? ARMPMU_MAX_HWEVENTS) then
    put_hw_events {| events := <[Z.to_nat i := None]> (events cpuc);
                     used_mask := clear_bit i (used_mask cpuc) |}
  else undefined.

Definition armpmu_add (event : ptr) (flags : Z) : M Z :=
  ev ← event_deref event;
  armpmu ← to_arm_pmu (pmu ev);
  perf_pmu_disable (pmu ev);;
  cpuc ← get_hw_events;
  let '(i, cpuc, hwc) := get_event_idx armpmu cpuc (hw ev) in
  put_hw_events cpuc;;
  hwc_modify event (fun _ => hwc);;
  err ← (if i <? 0 then mret i
         else
           hwc_modify event (set_idx i);;
           ev' ← event_deref event;
           reg_write (disable armpmu (hw ev') i);;
           (if i <? ARMPMU_MAX_HWEVENTS then
              put_hw_events {| events := <[Z.to_nat i := Some event]>
                                           (events cpuc);
                               used_mask := used_mask cpuc |}
            else undefined);;
           hwc_modify event
             (set_state (Z.lor PERF_HES_STOPPED PERF_HES_UPTODATE));;
           (if Z.land flags PERF_EF_START =? 0 then mret tt
            else armpmu_start event PERF_EF_RELOAD);;
           mret 0);
  perf_pmu_enable (pmu ev);;
  mret err.

(** *** Group validation *)

(** [cpuc] points to the caller's scratch table: its new value is
    returned.  [fake_event] is the local copy of [event->hw]; what the
    allocator leaves in it is dropped at the end of the function. *)
Definition validate_event (cpuc : cpu_hw_events) (event : ptr)
  : M (Z * cpu_hw_events) :=
  ev ← event_deref event;
  let fake_event := hw ev in
  leader ← event_deref (group_leader ev);
  let leader_pmu := pmu leader in
  if negb (bool_decide (pmu ev = leader_pmu))
     || (ev_state ev <=? PERF_EVENT_STATE_OFF) then mret (1, cpuc)
  else
    armpmu ← to_arm_pmu (pmu ev);
    let '(i, cpuc, fake_event) := get_event_idx armpmu cpuc fake_event in
    mret (if 0 <=? i then 1 else 0, cpuc).

(** The [list_for_each_entry] loop of [validate_group]: the first
    component is 0 when the loop was left through [return -ENOSPC]. *)
Fixpoint validate_siblings (fake_pmu : cpu_hw_events) (siblings : list ptr)
  : M (Z * cpu_hw_events) :=
  match siblings with
  | [] => mret (1, fake_pmu)
  | sibling :: rest =>
      '(ok, fake_pmu) ← validate_event fake_pmu sibling;
      if ok =? 0 then mret (0, fake_pmu)
      else validate_siblings fake_pmu rest
  end.

Definition validate_group (event : ptr) : M Z :=
  ev ← event_deref event;
  let leader := group_leader ev in
  let fake_pmu := zeroed_cpu_hw_events in
  '(ok, fake_pmu) ← validate_event fake_pmu leader;
  if ok =? 0 then mret (- ENOSPC) else
  l ← event_deref leader;
  '(ok, fake_pmu) ← validate_siblings fake_pmu (sibling_list l);
  if ok =? 0 then mret (- ENOSPC) else
  '(ok, fake_pmu) ← validate_event fake_pmu event;
  if ok =? 0 then mret (- ENOSPC) else
  mret 0.

(** *** Interrupt reservation *)

(** Modelled from the spec: the lower-level platform reservation
    ([reserve_pmu], [release_pmu] of arch/arm/kernel/pmu.c), one flag that
    is taken by the first reservation and refused while it is held. *)
Definition reserve_pmu : M Z := fun w =>
  if pmu_reserved w then Some (- EBUSY, w)
  else Some (0, set_pmu_reserved true w).
Definition release_pmu : M unit := fun w =>
  Some (tt, set_pmu_reserved false w).

(** The interrupt lines the driver holds: [request_irq] adds a line when
    the interrupt layer grants it, [free_irq] takes it away. *)
Definition do_request_irq (irq : Z) : M Z := fun w =>
  let err := request_irq irq_env irq in
  if err =? 0 then Some (0, set_irqs_held (irq :: irqs_held w) w)
  else Some (err, w).
Definition free_irq (irq : Z) : M unit := fun w =>
  Some (tt, set_irqs_held (filter (fun line : Z => line ≠ irq) (irqs_held w)) w).

Definition cpumask_test_and_clear_cpu (cpu : Z) : M bool := fun w =>
  Some (test_bit cpu (active_irqs w),
        set_active_irqs (clear_bit cpu (active_irqs w)) w).
Definition cpumask_set_cpu (cpu : Z) : M unit := fun w =>
  Some (tt, set_active_irqs (set_bit cpu (active_irqs w)) w).

Fixpoint armpmu_release_irqs (cpus : list Z) : M unit :=
  match cpus with
  | [] => mret tt
  | i :: rest =>
      active ← cpumask_test_and_clear_cpu i;
      (if active : bool then
         let irq := platform_get_irq (plat_device armpmu) i in
         if 0 <=? irq then free_irq irq else mret tt
       else mret tt : M unit);;
      armpmu_release_irqs rest
  end.

Definition armpmu_release_hardware : M unit :=
  let pmu_device := plat_device armpmu in
  let irqs := Z.min (num_resources pmu_device) (num_possible_cpus irq_env) in
  armpmu_release_irqs (seqZ 0 irqs);;
  release_pmu.

(** The [for] loop of [armpmu_reserve_hardware]; the choice between the
    platform's handler and the backend's does not change what is
    reserved. *)
Fixpoint armpmu_reserve_irqs (irqs : Z) (cpus : list Z) : M Z :=
  match cpus with
  | [] => mret 0
  | i :: rest =>
      let irq := platform_get_irq (plat_device armpmu) i in
      if irq <? 0 then armpmu_reserve_irqs irqs rest
      else if negb (irq_set_affinity irq_env irq i =? 0) && (1 <? irqs) then
        armpmu_reserve_irqs irqs rest
      else
        err ← do_request_irq irq;
        if negb (err =? 0) then armpmu_release_hardware;; mret err
        else cpumask_set_cpu i;; armpmu_reserve_irqs irqs rest
  end.

Definition armpmu_reserve_hardware : M Z :=
  let pmu_device := plat_device armpmu in
  err ← reserve_pmu;
  if negb (err =? 0) then mret err else
  let irqs := Z.min (num_resources pmu_device) (num_possible_cpus irq_env) in
  if irqs <? 1 then mret (- ENODEV) else
  armpmu_reserve_irqs irqs (seqZ 0 irqs).

(** The atomic operations on [armpmu->active_events], an [int]; the
    mutex is not part of the sequential model.
    [atomic_dec_and_mutex_lock] takes the mutex and returns true exactly
    when the count drops to zero. *)
Definition atomic_read : M Z := fun w => Some (active_events w, w).
Definition atomic_inc : M unit := fun w =>
  Some (tt, set_active_events (to_s32 (active_events w + 1)) w).
Definition atomic_inc_not_zero : M bool := fun w =>
  if active_events w =? 0 then Some (false, w)
  else Some (true, set_active_events (to_s32 (active_events w + 1)) w).
Definition atomic_dec_and_mutex_lock : M bool := fun w =>
  let v := to_s32 (active_events w - 1) in
  Some (v =? 0, set_active_events v w).

Definition hw_perf_event_destroy (event : ptr) : M unit :=
  ev ← event_deref event;
  armpmu ← to_arm_pmu (pmu ev);
  last ← atomic_dec_and_mutex_lock;
  if last : bool then armpmu_release_hardware else mret tt.

(** *** Event initialisation *)

Definition event_requires_mode_exclusion (attr : perf_event_attr) : bool :=
  exclude_idle attr || exclude_user attr
  || exclude_kernel attr || exclude_hv attr.

Definition __hw_perf_event_init (event : ptr) : M Z :=
  ev ← event_deref event;
  armpmu ← to_arm_pmu (pmu ev);
  let mapping := map_event armpmu ev in
  if mapping <? 0 then mret mapping else
  hwc_modify event (set_idx (-1));;
  hwc_modify event (set_config_base 0);;
  hwc_modify event (set_config 0);;
  hwc_modify event (set_event_base 0);;
  no_filter ←
    match set_event_filter armpmu with
    | None => mret true
    | Some set_filter =>
        ev' ← event_deref event;
        let '(r, hwc) := set_filter (hw ev') (attr ev') in
        hwc_modify event (fun _ => hwc);;
        mret (negb (r =? 0))
    end;
  if no_filter && event_requires_mode_exclusion (attr ev) then mret (- EPERM)
  else
  hwc_modify event
    (fun h => set_config_base (Z.lor (config_base h) (wrap32 mapping)) h);;
  ev' ← event_deref event;
  (if sample_period (hw ev') =? 0 then
     hwc_modify event
       (fun h =>
          set_period_left (to_s64 (max_period armpmu))
            (set_last_period (max_period armpmu)
               (set_sample_period (max_period armpmu) h)))
   else mret tt);;
  let err := 0 in
  if negb (bool_decide (group_leader ev = event)) then
    err ← validate_group event;
    if negb (err =? 0) then mret (- EINVAL) else mret err
  else mret err.

(** The [destroy] callback the function registers is called by the
    generic layer. *)
Definition armpmu_event_init (event : ptr) : M Z :=
  ev ← event_deref event;
  armpmu ← to_arm_pmu (pmu ev);
  if map_event armpmu ev =? - ENOENT then mret (- ENOENT) else
  nonzero ← atomic_inc_not_zero;
  err ←
    (if nonzero : bool then mret 0
     else
       n ← atomic_read;
       err ← (if n =? 0 then armpmu_reserve_hardware else mret 0);
       (if err =? 0 then atomic_inc else mret tt);;
       mret err);
  if negb (err =? 0) then mret err else
  err ← __hw_perf_event_init event;
  (if negb (err =? 0) then hw_perf_event_destroy event else mret tt);;
  mret err.

End Driver.

Arguments arm_pmu : clear implicits.
Arguments world : clear implicits.
Arguments M : clear implicits.

(** ** Sequences of operations of the generic layer *)

Section Lifecycle.

Context {H : Type}.
Variable armpmu : arm_pmu H.
Variable irq_env : irq_layer.

(** What the generic layer asks of the PMU: the initialisation of a new
    event, and adding or removing an event on some CPU. *)
Inductive pmu_op :=
| OpInit (event : ptr) (ev : perf_event)
| OpAdd (cpu : nat) (event : ptr) (flags : Z)
| OpDel (cpu : nat) (event : ptr) (flags : Z).

(** Modelled from the spec: the generic event-accounting framework owns
    the event objects; it allocates a new object at an address not in
    use before it calls the [event_init] callback. *)
Definition perf_event_alloc (event : ptr) (ev : perf_event) : M H unit :=
  fun w =>
    match event_heap w !! event with
    | Some _ => None
    | None => Some (tt, set_event_heap (<[event := ev]> (event_heap w)) w)
    end.

(** The callbacks run on the CPU the generic layer calls them on. *)
Definition on_cpu {A : Type} (cpu : nat) (m : M H A) : M H A :=
  fun w => m (set_this_cpu cpu w).

Definition step (op : pmu_op) : M H Z :=
  match op with
  | OpInit event ev =>
      perf_event_alloc event ev;; armpmu_event_init armpmu irq_env event
  | OpAdd cpu event flags => on_cpu cpu (armpmu_add armpmu event flags)
  | OpDel cpu event flags =>
      on_cpu cpu (armpmu_del armpmu event flags;; mret 0)
  end.

Fixpoint run (ops : list pmu_op) : M H unit :=
  match ops with
  | [] => mret tt
  | op :: rest => step op;; run rest
  end.

End Lifecycle.

(** ** Properties of counter tables and of backends *)

(** The number of set bits among the first [nbits] of a bitmap
    ([bitmap_weight]) and the number of occupied entries of a table. *)
Definition bitmap_weight (mask : Z) (nbits : nat) : nat :=
  length (filter (fun i : nat => Z.testbit mask (Z.of_nat i) = true)
                 (seq 0 nbits)).

Definition nr_scheduled (cpuc : cpu_hw_events) : nat :=
  length (filter (fun o : option ptr => o ≠ None) (events cpuc)).



(** All the per-CPU tables are as at boot. *)
Definition tables_zeroed {H : Type} (w : world H) : Prop :=
  ∀ cpu cpuc, percpu_hw_events w !! cpu = Some cpuc →
    cpuc = zeroed_cpu_hw_events.

(** What the driver relies on from a backend's allocator: it writes
    neither the [events] array nor the index of the event it places. *)
Definition allocator_frame {H : Type} (armpmu : arm_pmu H) : Prop :=
  ∀ cpuc hwc,
    events (get_event_idx armpmu cpuc hwc).1.2 = events cpuc
    ∧ idx (get_event_idx armpmu cpuc hwc).2 = idx hwc.

(** The allocator claims a counter with [test_and_set_bit]: on success
    the bit of the returned index, a counter of the PMU, was clear and is
    now set; on failure the bitmap is as before. *)
Definition allocator_test_and_set {H : Type} (armpmu : arm_pmu H) : Prop :=
  0 <= num_events armpmu <= ARMPMU_MAX_HWEVENTS
  ∧ ∀ cpuc hwc,
      let i := (get_event_idx armpmu cpuc hwc).1.1 in
      let cpuc' := (get_event_idx armpmu cpuc hwc).1.2 in
      if i <? 0 then used_mask cpuc' = used_mask cpuc
      else i < num_events armpmu
           ∧ test_bit i (used_mask cpuc) = false
           ∧ used_mask cpuc' = set_bit i (used_mask cpuc).


(** ** A sample backend

    Modelled from the spec: the backend operation table of section 4.1
    (the model-specific files perf_event_v6.c, perf_event_v7.c and
    perf_event_xscale.c are not part of this development).  The
    registers are a log of the accesses, latest first; a counter reads as
    the value last written to it; the allocator takes the first free
    counter with [test_and_set_bit]. *)

Inductive reg_access :=
| RegEnable (i : Z)
| RegDisable (i : Z)
| RegRead (i : Z)
| RegWrite (i : Z) (v : Z)
| RegStart
| RegStop.

Fixpoint last_written (i : Z) (log : list reg_access) : Z :=
  match log with
  | [] => 0
  | RegWrite j v :: rest => if j =? i then v else last_written i rest
  | _ :: rest => last_written i rest
  end.

Definition first_free_idx (num : Z) (cpuc : cpu_hw_events)
                          (hwc : hw_perf_event)
  : Z * cpu_hw_events * hw_perf_event :=
  match find (fun i => negb (test_bit i (used_mask cpuc))) (seqZ 0 num) with
  | Some i => (i, {| events := events cpuc;
                     used_mask := set_bit i (used_mask cpuc) |}, hwc)
  | None => (- EAGAIN, cpuc, hwc)
  end.

(** A backend with [num] counters of 32 bits, without a mode filter,
    which maps every event to its raw configuration. *)
Definition sample_pmu (num : Z) (dev : platform_device)
  : arm_pmu (list reg_access) :=
  {| pmu_addr := 100%nat;
     enable := fun _ i log => RegEnable i :: log;
     disable := fun _ i log => RegDisable i :: log;
     get_event_idx := first_free_idx num;
     set_event_filter := None;
     read_counter := fun i log => (last_written i log, RegRead i :: log);
     write_counter := fun i v log => RegWrite i v :: log;
     start := fun log => RegStart :: log;
     stop := fun log => RegStop :: log;
     map_event := fun ev => armpmu_map_raw_event 0xff (attr_config (attr ev));
     num_events := num;
     max_period := 2 ^ 32 - 1;
     plat_device := dev |}.

(** A machine with two CPUs and one PMU interrupt per CPU, all of which
    the interrupt layer grants. *)
Definition sample_device : platform_device :=
  {| num_resources := 2; platform_get_irq := fun i => 40 + i |}.
Definition sample_irq_layer : irq_layer :=
  {| num_possible_cpus := 2;
     irq_set_affinity := fun _ _ => 0;
     request_irq := fun _ => 0 |}.

Definition sample_attr (cfg : Z) (excl_user : bool) : perf_event_attr :=
  {| attr_type := PERF_TYPE_RAW; attr_config := cfg;
     exclude_user := excl_user; exclude_kernel := false;
     exclude_hv := false; exclude_idle := false |}.

(** A new event of the sample PMU, as the generic layer hands it to
    [event_init]: zeroed hardware state, enabled. *)
Definition sample_hw : hw_perf_event :=
  {| idx := 0; config_base := 0; config := 0; event_base := 0; state := 0;
     sample_period := 0; last_period := 0; period_left := 0;
     prev_count := 0 |}.
Definition sample_event (leader : ptr) (siblings : list ptr) (cfg : Z)
                        (excl_user : bool) : perf_event :=
  {| attr := sample_attr cfg excl_user; hw := sample_hw; pmu := 100%nat;
     group_leader := leader; sibling_list := siblings; ev_state := 0;
     count := 0 |}.

(** An event of the sample PMU with the given hardware state. *)
Definition sample_hw_with (i period left_ prev : Z) : hw_perf_event :=
  {| idx := i; config_base := 5; config := 0; event_base := 0; state := 0;
     sample_period := period; last_period := period; period_left := left_;
     prev_count := prev |}.
Definition sample_event_with (hwc : hw_perf_event) : perf_event :=
  set_hw hwc (sample_event 1%nat [] 5 false).

(** The machine with the given events, register log and reservation
    state, and zeroed tables on both CPUs. *)
Definition sample_world_full (heap : gmap ptr perf_event)
                             (log : list reg_access)
                             (active : Z) (irq_mask : Z) (held : list Z)
                             (reserved : bool)
  : world (list reg_access) :=
  {| event_heap := heap;
     percpu_hw_events :=
       <[0%nat := zeroed_cpu_hw_events]>
         (<[1%nat := zeroed_cpu_hw_events]> ∅);
     this_cpu := 0%nat; regs := log;
     active_events := active; active_irqs := irq_mask; irqs_held := held;
     pmu_reserved := reserved |}.

(** The same with nothing reserved. *)
Definition sample_world_with (heap : gmap ptr perf_event)
                             (log : list reg_access)
  : world (list reg_access) :=
  sample_world_full heap log 0 0 [] false.

(** The machine at boot. *)
Definition sample_world : world (list reg_access) := sample_world_with ∅ [].

(** ** Reasoning about driver code *)

(** [frame R m]: every run of [m] relates the world before to the world
    after by [R]. *)
Definition frame {H A : Type} (R : world H → world H → Prop) (m : M H A)
  : Prop :=
  ∀ w a w', m w = Some (a, w') → R w w'.

(** [returns R m]: [m] returns from every world, and relates the world
    before to the world after by [R]. *)
Definition returns {H A : Type} (R : world H → world H → Prop) (m : M H A)
  : Prop :=
  ∀ w, ∃ a w', m w = Some (a, w') ∧ R w w'.

(** Only the object of [event] is written, and neither its index nor its
    PMU. *)
Definition writes_event {H : Type} (event : ptr) (w w' : world H) : Prop :=
  percpu_hw_events w' = percpu_hw_events w
  ∧ this_cpu w' = this_cpu w
  ∧ (∀ p, p ≠ event → event_heap w' !! p = event_heap w !! p)
  ∧ (∀ ev, event_heap w !! event = Some ev →
       ∃ ev', event_heap w' !! event = Some ev'
              ∧ idx (hw ev') = idx (hw ev) ∧ pmu ev' = pmu ev).

(** Only the object of [event] is written (its index too, maybe). *)
Definition touches_event {H : Type} (event : ptr) (w w' : world H) : Prop :=
  percpu_hw_events w' = percpu_hw_events w
  ∧ this_cpu w' = this_cpu w
  ∧ (∀ p, p ≠ event → event_heap w' !! p = event_heap w !! p)
  ∧ (is_Some (event_heap w !! event) → is_Some (event_heap w' !! event)).

(** [x] is [w] but for the table of the current CPU, now [table], and
    for the object of [event], whose index is now [i]. *)
Definition rescheduled {H : Type} (w : world H) (event : ptr) (x : world H)
                       (table : cpu_hw_events) (i : Z) : Prop :=
  this_cpu x = this_cpu w
  ∧ (∀ p, p ≠ event → event_heap x !! p = event_heap w !! p)
  ∧ (∀ cpu, cpu ≠ this_cpu w →
       percpu_hw_events x !! cpu = percpu_hw_events w !! cpu)
  ∧ percpu_hw_events x !! this_cpu w = Some table
  ∧ ∃ ev', event_heap x !! event = Some ev' ∧ idx (hw ev') = i.

(** Neither the events nor the tables are written. *)
Definition keeps_events_and_tables {H : Type} (w w' : world H) : Prop :=
  percpu_hw_events w' = percpu_hw_events w
  ∧ this_cpu w' = this_cpu w
  ∧ event_heap w' = event_heap w.

(** ** Group validation, as the specification words it *)

Section GroupPlacement.

Context {H : Type}.
Variable armpmu : arm_pmu H.
Variable w : world H.

(** The backend allocator is consulted for a member unless the member
    belongs to another PMU than its group leader or is switched off. *)
Definition consults_allocator (ev leader : perf_event) : bool :=
  bool_decide (pmu ev = pmu leader)
  && negb (ev_state ev <=? PERF_EVENT_STATE_OFF).

(** [placed c members c']: every member, in turn, passes; those the
    allocator is consulted for get a counter in the scratch table, which
    goes from [c] to [c']. *)
Inductive placed : cpu_hw_events → list ptr → cpu_hw_events → Prop :=
| placed_nil c : placed c [] c
| placed_trivial c c' m rest ev leader :
    event_heap w !! m = Some ev →
    event_heap w !! group_leader ev = Some leader →
    consults_allocator ev leader = false →
    placed c rest c' →
    placed c (m :: rest) c'
| placed_counter c c' m rest ev leader :
    event_heap w !! m = Some ev →
    event_heap w !! group_leader ev = Some leader →
    consults_allocator ev leader = true →
    0 <= (get_event_idx armpmu c (hw ev)).1.1 →
    placed (get_event_idx armpmu c (hw ev)).1.2 rest c' →
    placed c (m :: rest) c'.

(** Some member for which the allocator is consulted gets no counter,
    the members before it having been placed. *)
Definition rejected (c : cpu_hw_events) (members : list ptr) : Prop :=
  ∃ before m after c1 ev leader,
    members = before ++ m :: after
    ∧ placed c before c1
    ∧ event_heap w !! m = Some ev
    ∧ event_heap w !! group_leader ev = Some leader
    ∧ consults_allocator ev leader = true
    ∧ (get_event_idx armpmu c1 (hw ev)).1.1 < 0.

(** The objects [validate_event] reaches for a member exist, and a
    member the allocator is consulted for is an event of this PMU. *)
Definition member_ok (m : ptr) : Prop :=
  ∃ ev leader,
    event_heap w !! m = Some ev
    ∧ event_heap w !! group_leader ev = Some leader
    ∧ (consults_allocator ev leader = true → pmu ev = pmu_addr armpmu).

End GroupPlacement.

(** ** Event initialisation, as the specification words it *)

(** The hardware state of an event when [__hw_perf_event_init] reaches
    the mode-exclusion check. *)
Definition init_hw (hwc : hw_perf_event) : hw_perf_event :=
  set_event_base 0 (set_config 0 (set_config_base 0 (set_idx (-1) hwc))).

(** The descriptor asks for mode exclusion and the backend has no mode
    filter, or its filter call fails. *)
Definition mode_exclusion_refused {H : Type} (armpmu : arm_pmu H)
                                  (ev : perf_event) : bool :=
  match set_event_filter armpmu with
  | None => true
  | Some set_filter => negb ((set_filter (init_hw (hw ev)) (attr ev)).1 =? 0)
  end
  && event_requires_mode_exclusion (attr ev).

(** The hardware state after the call of the mode filter, and the one
    [__hw_perf_event_init] leaves once the mapping and the default period
    are stored. *)
Definition filtered_hw {H : Type} (armpmu : arm_pmu H) (ev : perf_event)
  : hw_perf_event :=
  match set_event_filter armpmu with
  | None => init_hw (hw ev)
  | Some set_filter => (set_filter (init_hw (hw ev)) (attr ev)).2
  end.

Definition configured_hw {H : Type} (armpmu : arm_pmu H) (ev : perf_event)
  : hw_perf_event :=
  let hwc := filtered_hw armpmu ev in
  let hwc :=
    set_config_base
      (Z.lor (config_base hwc) (wrap32 (map_event armpmu ev))) hwc in
  if sample_period hwc =? 0 then
    set_period_left (to_s64 (max_period armpmu))
      (set_last_period (max_period armpmu)
         (set_sample_period (max_period armpmu) hwc))
  else hwc.

(** The members [validate_group] walks for [event]. *)
Definition group_members (ev leader : perf_event) (event : ptr) : list ptr :=
  group_leader ev :: sibling_list leader ++ [event].

(** The reservation state of the machine. *)
Definition nothing_reserved {H : Type} (w : world H) : Prop :=
  irqs_held w = [] ∧ pmu_reserved w = false.

(** The lines the driver holds are the interrupts of CPUs below [irqs]
    whose bit is set in [active_irqs]. *)
Definition held_lines_active {H : Type} (armpmu : arm_pmu H) (irqs : Z)
                             (w : world H) : Prop :=
  ∀ irq, irq ∈ irqs_held w →
    ∃ i, 0 <= i < irqs
         ∧ test_bit i (active_irqs w) = true
         ∧ platform_get_irq (plat_device armpmu) i = irq
         ∧ 0 <= irq.

(** ** More sample machines *)

(** A group of the sample PMU: leader 1 with sibling 2, and the new event
    3 that asks to join it. *)
Definition sample_group_heap : gmap ptr perf_event :=
  <[1%nat := sample_event 1%nat [2%nat] 5 false]>
    (<[2%nat := sample_event 1%nat [] 6 false]>
       (<[3%nat := sample_event 1%nat [] 7 false]> ∅)).

(** A group led by an event of another PMU (address 200, a software
    event, say), enabled, which the new event 3 of the sample PMU asks to
    join. *)
Definition foreign_leader_heap : gmap ptr perf_event :=
  <[1%nat := {| attr := sample_attr 0 false; hw := sample_hw;
                pmu := 200%nat; group_leader := 1%nat; sibling_list := [];
                ev_state := 0; count := 0 |}]>
    (<[3%nat := sample_event 1%nat [] 7 false]> ∅).

(** A platform device without any interrupt resource. *)
Definition no_irq_device : platform_device :=
  {| num_resources := 0; platform_get_irq := fun _ => - ENODEV |}.

(** ** Invariants of the counter tables *)


(** The bitmap of a table mirrors its [events] array, and only counters
    of the PMU are in use. *)
Definition table_ok {H : Type} (armpmu : arm_pmu H) (cpuc : cpu_hw_events)
  : Prop :=
  length (events cpuc) = Z.to_nat ARMPMU_MAX_HWEVENTS
  ∧ (∀ i : nat, (i < Z.to_nat ARMPMU_MAX_HWEVENTS)%nat →
       Z.testbit (used_mask cpuc) (Z.of_nat i) = true
       ↔ events cpuc !! i ≠ Some None)
  ∧ (∀ n : Z, Z.testbit (used_mask cpuc) n = true →
       0 <= n < num_events armpmu).

Definition tables_ok {H : Type} (armpmu : arm_pmu H) (w : world H) : Prop :=
  ∀ cpu cpuc, percpu_hw_events w !! cpu = Some cpuc → table_ok armpmu cpuc.



(** ** Accounting, stated on the event *)

(** The event after one pass of [armpmu_event_update] that read [raw]
    from the counter. *)
Definition accounted (max_period raw overflow : Z) (ev : perf_event)
  : perf_event :=
  let delta :=
    event_delta max_period (Z.land (prev_count (hw ev)) max_period)
                (Z.land raw max_period) overflow in
  set_hw (set_period_left (to_s64 (period_left (hw ev) - delta))
            (set_prev_count raw (hw ev)))
         (set_count (wrap64 (count ev + delta)) ev).

(** What [armpmu_event_set_period] makes of [period_left], the value it
    clamps and negates for the counter, and the state it leaves, for a
    period [period] and a remaining count [left_]. *)
Definition next_period_left (period left_ : Z) : Z :=
  if left_ <=? - period then period
  else if left_ <=? 0 then left_ + period else left_.

Definition programmed_ticks (max_period period left_ : Z) : Z :=
  Z.min (next_period_left period left_) (to_s64 max_period).

Definition programmed_hw (max_period : Z) (hwc : hw_perf_event)
  : hw_perf_event :=
  let period := to_s64 (sample_period hwc) in
  let left_ := period_left hwc in
  set_prev_count (wrap64 (- programmed_ticks max_period period left_))
    (if left_ <=? 0 then
       set_last_period (wrap64 period)
         (set_period_left (next_period_left period left_) hwc)
     else hwc).


(** ** Scheduling, stated on the world *)

(** Only the registers of the PMU are written. *)
Definition only_regs {H : Type} (w w' : world H) : Prop :=
  w' = set_regs (regs w') w.


(** The count of live events is not written. *)
Definition keeps_count {H : Type} (w w' : world H) : Prop :=
  active_events w' = active_events w.

(** Nothing of the reservation state is written: neither the count of
    live events, nor the lines held, nor the platform reservation. *)
Definition keeps_reservation {H : Type} (w w' : world H) : Prop :=
  active_events w' = active_events w
  ∧ active_irqs w' = active_irqs w
  ∧ irqs_held w' = irqs_held w
  ∧ pmu_reserved w' = pmu_reserved w.

(** The hardware is reserved exactly while events are alive: with no live
    event nothing is held, with one the platform reservation is, and the
    lines held are those of the CPUs marked in [active_irqs]. *)
Definition reservation_balanced {H : Type} (armpmu : arm_pmu H) (irqs : Z)
                                (w : world H) : Prop :=
  0 <= active_events w
  ∧ held_lines_active armpmu irqs w
  ∧ (active_events w = 0 → nothing_reserved w)
  ∧ (0 < active_events w → pmu_reserved w = true).


(** ** CPU identification *)

(** The backends [init_hw_perf_events] chooses between, each named after
    the initialisation function that is called for it. *)
Inductive pmu_backend :=
| armv6pmu_init
| armv6mpcore_pmu_init
| armv7_a8_pmu_init
| armv7_a9_pmu_init
| armv7_a5_pmu_init
| armv7_a15_pmu_init
| xscale1pmu_init
| xscale2pmu_init.

(** The choice [init_hw_perf_events] makes from the main ID register (an
    [unsigned long]); [None] is the static [armpmu] pointer left NULL,
    with which nothing is registered.  The function itself returns 0 in
    every case. *)
Definition init_hw_perf_events (cpuid : Z) : option pmu_backend :=
  let implementor := Z.shiftr (Z.land cpuid 0xFF000000) 24 in
  let part_number := Z.land cpuid 0xFFF0 in
  if 0x41 =? implementor then
    if (part_number =? 0xB360) || (part_number =? 0xB560)
       || (part_number =? 0xB760) then Some armv6pmu_init
    else if part_number =? 0xB020 then Some armv6mpcore_pmu_init
    else if part_number =? 0xC080 then Some armv7_a8_pmu_init
    else if part_number =? 0xC090 then Some armv7_a9_pmu_init
    else if part_number =? 0xC050 then Some armv7_a5_pmu_init
    else if part_number =? 0xC0F0 then Some armv7_a15_pmu_init
    else None
  else if 0x69 =? implementor then
    let part_number := Z.land (Z.shiftr cpuid 13) 0x7 in
    if part_number =? 1 then Some xscale1pmu_init
    else if part_number =? 2 then Some xscale2pmu_init
    else None
  else None.

(** ** User call chains *)

(** [struct frame_tail], the three words a frame pointer points just
    past; the structure is packed, 12 bytes on the 32-bit ARM.  User
    addresses are 32-bit values. *)
Record frame_tail := {
  fp : Z;
  sp : Z;
  lr : Z
}.

Definition sizeof_frame_tail : Z := 12.

(** User memory as [user_backtrace] reaches it: [access_ok] for a read
    of [size] bytes at an address, and [__copy_from_user_inatomic] of
    one [struct frame_tail], [None] when bytes are left uncopied. *)
Record user_memory := {
  access_ok : Z → Z → bool;
  copy_frame_tail : Z → option frame_tail
}.

Section Callchain.

(** The callchain entry belongs to the generic layer, with its counter
    [nr] and [perf_callchain_store]; the bound of its array is
    [PERF_MAX_STACK_DEPTH]. *)
Context {perf_callchain_entry : Type}.
Variable nr : perf_callchain_entry → Z.
Variable perf_callchain_store : perf_callchain_entry → Z → perf_callchain_entry.
Variable PERF_MAX_STACK_DEPTH : Z.
Variable mem : user_memory.

(** The pointer returned is NULL when it is 0; the entry is updated in
    place, so its new value is returned too. *)
Definition user_backtrace (tail : Z) (entry : perf_callchain_entry)
  : Z * perf_callchain_entry :=
  if negb (access_ok mem tail sizeof_frame_tail) then (0, entry)
  else
    match copy_frame_tail mem tail with
    | None => (0, entry)
    | Some buftail =>
        let entry := perf_callchain_store entry (lr buftail) in
        if fp buftail <=? wrap32 (tail + sizeof_frame_tail) then (0, entry)
        else (wrap32 (fp buftail - sizeof_frame_tail), entry)
    end.

(** The [while] loop of [perf_callchain_user]; [None] when [fuel]
    iterations were not enough to leave it. *)
Fixpoint perf_callchain_user_loop (fuel : nat) (tail : Z)
                                  (entry : perf_callchain_entry)
  : option perf_callchain_entry :=
  let again :=
    (nr entry <? PERF_MAX_STACK_DEPTH) && negb (tail =? 0)
    && (Z.land tail 0x3 =? 0) in
  match fuel with
  | O => if again then None else Some entry
  | S fuel =>
      if again then
        let '(tail, entry) := user_backtrace tail entry in
        perf_callchain_user_loop fuel tail entry
      else Some entry
  end.

Definition perf_callchain_user (fuel : nat) (entry : perf_callchain_entry)
                               (ARM_fp : Z) : option perf_callchain_entry :=
  let tail := wrap32 (ARM_fp - sizeof_frame_tail) in
  perf_callchain_user_loop fuel tail entry.

(** [frames] is the chain of records that starts at [tail], whole:
    each record is read at a non-NULL, word-aligned, accessible address;
    a record whose frame pointer lies above its own end is followed by
    the record 12 bytes below that frame pointer, any other record is
    the last; and the chain is empty exactly when there is no record to
    read at [tail]. *)
Fixpoint frame_chain (tail : Z) (frames : list frame_tail) : Prop :=
  match frames with
  | [] =>
      tail = 0 ∨ Z.land tail 0x3 ≠ 0
      ∨ access_ok mem tail sizeof_frame_tail = false
      ∨ copy_frame_tail mem tail = None
  | buftail :: rest =>
      tail ≠ 0 ∧ Z.land tail 0x3 = 0
      ∧ access_ok mem tail sizeof_frame_tail = true
      ∧ copy_frame_tail mem tail = Some buftail
      ∧ if fp buftail <=? wrap32 (tail + sizeof_frame_tail) then rest = []
        else frame_chain (wrap32 (fp buftail - sizeof_frame_tail)) rest
  end.

End Callchain.

(** What [access_ok] and the copy promise: an accessible range lies
    within the 32-bit address space, and a frame pointer read from
    memory is a 32-bit value. *)
Definition user_memory_ok (mem : user_memory) : Prop :=
  (∀ a, access_ok mem a sizeof_frame_tail = true →
        0 <= a ∧ a + sizeof_frame_tail < 2 ^ 32)
  ∧ (∀ a buftail, copy_frame_tail mem a = Some buftail →
                  0 <= fp buftail < 2 ^ 32).

(** A sample stack of three frames at 0x1000, 0x1040 and 0x1080, the
    last of which points nowhere, in a user space that ends at
    0xbf000000; and a callchain entry kept as the list of the addresses
    stored, newest first, with room for [depth]. *)
Definition sample_user_memory : user_memory :=
  {| access_ok := fun a size => (0 <=? a) && (a + size <=? 0xbf000000);
     copy_frame_tail := fun a =>
       if a =? 0x1000 then Some {| fp := 0x104c; sp := 0x1000; lr := 0x8010 |}
       else if a =? 0x1040 then
         Some {| fp := 0x108c; sp := 0x1040; lr := 0x8020 |}
       else if a =? 0x1080 then Some {| fp := 0; sp := 0x1080; lr := 0x8030 |}
       else None |}.

Definition sample_callchain_store (depth : Z) (entry : list Z) (ip : Z)
  : list Z :=
  if Z.of_nat (length entry) <? depth then ip :: entry else entry.

(** Two more platforms for the sample PMU: one whose interrupt lines are
    all missing, and one with a single line. *)
Definition absent_irq_device : platform_device :=
  {| num_resources := 2; platform_get_irq := fun _ => - ENODEV |}.

(** * Proofs *)

(** ** Machine integers and bitmaps *)

Lemma testbit_small (a k n : Z) :
  0 <= a < 2 ^ k → 0 <= k <= n → Z.testbit a n = false.
Proof.
  intros Ha Hk. rewrite <- (Z.mod_small a (2 ^ k)) by lia.
  apply Z.mod_pow2_bits_high. lia.
Qed.

Lemma land_ones_testbit (a k n : Z) :
  0 <= k → 0 <= n →
  Z.testbit (Z.land a (Z.ones k)) n = Z.testbit a n && (n <? k).
Proof.
  intros Hk Hn. rewrite Z.land_spec, Z.testbit_ones_nonneg by lia.
  destruct (Z.ltb_spec n k); destruct (Z.leb_spec 0 n); destruct (Z.testbit a n);
    simpl; try reflexivity; try lia.
  all: destruct (Z.ltb_spec n k); try lia; reflexivity.
Qed.

Lemma land_mask32 (z : Z) : Z.land (wrap64 z) 0xffffffff = wrap32 z.
Proof.
  unfold wrap64, wrap32. change 0xffffffff with (Z.ones 32).
  rewrite Z.land_ones by lia.
  apply Z.mod_mod_divide. exists (2 ^ 32). reflexivity.
Qed.

Lemma to_s64_small (z : Z) : - 2 ^ 63 <= z < 2 ^ 63 → to_s64 z = z.
Proof. intros Hz. unfold to_s64. rewrite Z.mod_small; lia. Qed.

Lemma wrap64_small (z : Z) : 0 <= z < 2 ^ 64 → wrap64 z = z.
Proof. intros Hz. unfold wrap64. apply Z.mod_small. lia. Qed.

Lemma wrap64_add_r (a b : Z) : wrap64 (a + wrap64 b) = wrap64 (a + b).
Proof. unfold wrap64. apply Zplus_mod_idemp_r. Qed.

Lemma to_s64_sub_r (a b : Z) : to_s64 (a - wrap64 b) = to_s64 (a - b).
Proof.
  unfold to_s64, wrap64. f_equal.
  replace (a - b mod 2 ^ 64 + 2 ^ 63) with ((a + 2 ^ 63) - b mod 2 ^ 64) by lia.
  replace (a - b + 2 ^ 63) with ((a + 2 ^ 63) - b) by lia.
  apply Zminus_mod_idemp_r.
Qed.

Lemma land_nonneg_bound (a m : Z) : 0 <= m → 0 <= Z.land a m <= m.
Proof.
  intros Hm. apply Z.ldiff_le; [exact Hm |].
  apply Z.bits_inj'. intros n Hn.
  rewrite Z.ldiff_spec, Z.land_spec, Z.bits_0.
  destruct (Z.testbit m n), (Z.testbit a n); reflexivity.
Qed.

Lemma set_bit_testbit (nr mask n : Z) :
  0 <= nr → 0 <= n →
  Z.testbit (set_bit nr mask) n = Z.testbit mask n || (n =? nr).
Proof.
  intros Hnr Hn. unfold set_bit.
  rewrite Z.lor_spec, Z.shiftl_spec by lia. f_equal.
  destruct (Z.eqb_spec n nr) as [-> | Hne].
  - rewrite Z.sub_diag. reflexivity.
  - destruct (Z.lt_ge_cases n nr).
    + apply Z.testbit_neg_r. lia.
    + apply (testbit_small 1 1); lia.
Qed.

Lemma clear_bit_testbit (nr mask n : Z) :
  0 <= nr → 0 <= n →
  Z.testbit (clear_bit nr mask) n = Z.testbit mask n && negb (n =? nr).
Proof.
  intros Hnr Hn. unfold clear_bit.
  rewrite Z.ldiff_spec, Z.shiftl_spec by lia. f_equal. f_equal.
  destruct (Z.eqb_spec n nr) as [-> | Hne].
  - rewrite Z.sub_diag. reflexivity.
  - destruct (Z.lt_ge_cases n nr).
    + apply Z.testbit_neg_r. lia.
    + apply (testbit_small 1 1); lia.
Qed.


(** ** Cache-event mapping *)

Lemma cache_config_pack_fields (ct co cr : Z) :
  0 <= ct < 256 → 0 <= co < 256 → 0 <= cr < 256 →
  Z.land (Z.shiftr (cache_config_pack ct co cr) 0) 0xff = ct
  ∧ Z.land (Z.shiftr (cache_config_pack ct co cr) 8) 0xff = co
  ∧ Z.land (Z.shiftr (cache_config_pack ct co cr) 16) 0xff = cr.
Proof.
  intros Ht Ho Hr. unfold cache_config_pack.
  change 0xff with (Z.ones 8).
  repeat split; apply Z.bits_inj'; intros n Hn;
    rewrite land_ones_testbit by lia;
    rewrite Z.shiftr_spec by lia;
    rewrite !Z.lor_spec, !Z.shiftl_spec by lia;
    destruct (Z.ltb_spec n 8) as [Hlt | Hge];
    rewrite ?andb_true_r, ?andb_false_r.
  - rewrite (Z.testbit_neg_r co), (Z.testbit_neg_r cr) by lia.
    rewrite Z.add_0_r, !orb_false_r. reflexivity.
  - symmetry. apply (testbit_small ct 8); lia.
  - rewrite (testbit_small ct 8 (n + 8)), (Z.testbit_neg_r cr) by lia.
    rewrite orb_false_r. simpl. f_equal. lia.
  - symmetry. apply (testbit_small co 8); lia.
  - rewrite (testbit_small ct 8 (n + 16)), (testbit_small co 8 (n + 16 - 8))
      by lia.
    simpl. f_equal. lia.
  - symmetry. apply (testbit_small cr 8); lia.
Qed.

(** C9.  [armpmu_map_cache_event] reads the cache type in bits 0-7 of the
    64-bit config, the operation in bits 8-15 and the result in bits
    16-23.  If any of the three is at or above its enumeration's bound the
    function returns -EINVAL; otherwise it returns the entry of the
    backend's cache map at exactly that triple (-ENOENT for an entry
    marked unsupported).  A triple packed by the generic layer decodes
    to itself; (type 1, op 2, result 0) is 0x000201 and is looked up at
    (1, 2, 0); a config whose type byte is 255 gives -EINVAL. *)
Theorem armpmu_map_cache_event_decodes
    (CACHE_MAX OP_MAX RESULT_MAX : Z) (cache_map : Z → Z → Z → Z) :
  let lookup := fun ct co cr =>
    if wrap32 (cache_map ct co cr) =? CACHE_OP_UNSUPPORTED then - ENOENT
    else to_s32 (wrap32 (cache_map ct co cr)) in
  (∀ config,
     let ct := Z.land (Z.shiftr config 0) 0xff in
     let co := Z.land (Z.shiftr config 8) 0xff in
     let cr := Z.land (Z.shiftr config 16) 0xff in
     (CACHE_MAX <= ct ∨ OP_MAX <= co ∨ RESULT_MAX <= cr →
      armpmu_map_cache_event CACHE_MAX OP_MAX RESULT_MAX cache_map config
      = - EINVAL)
     ∧ (ct < CACHE_MAX ∧ co < OP_MAX ∧ cr < RESULT_MAX →
        armpmu_map_cache_event CACHE_MAX OP_MAX RESULT_MAX cache_map config
        = lookup ct co cr))
  ∧ (∀ ct co cr,
       0 <= ct < 256 → 0 <= co < 256 → 0 <= cr < 256 →
       ct < CACHE_MAX → co < OP_MAX → cr < RESULT_MAX →
       armpmu_map_cache_event CACHE_MAX OP_MAX RESULT_MAX cache_map
         (cache_config_pack ct co cr) = lookup ct co cr)
  ∧ cache_config_pack 1 2 0 = 0x000201
  ∧ (1 < CACHE_MAX → 2 < OP_MAX → 0 < RESULT_MAX →
     armpmu_map_cache_event CACHE_MAX OP_MAX RESULT_MAX cache_map 0x000201
     = lookup 1 2 0)
  ∧ (CACHE_MAX <= 255 →
     ∀ config, Z.land config 0xff = 255 →
       armpmu_map_cache_event CACHE_MAX OP_MAX RESULT_MAX cache_map config
       = - EINVAL).
Proof.
  intros lookup.
  assert (Hgen : ∀ config,
     let ct := Z.land (Z.shiftr config 0) 0xff in
     let co := Z.land (Z.shiftr config 8) 0xff in
     let cr := Z.land (Z.shiftr config 16) 0xff in
     (CACHE_MAX <= ct ∨ OP_MAX <= co ∨ RESULT_MAX <= cr →
      armpmu_map_cache_event CACHE_MAX OP_MAX RESULT_MAX cache_map config
      = - EINVAL)
     ∧ (ct < CACHE_MAX ∧ co < OP_MAX ∧ cr < RESULT_MAX →
        armpmu_map_cache_event CACHE_MAX OP_MAX RESULT_MAX cache_map config
        = lookup ct co cr)).
  { intros config ct co cr. unfold armpmu_map_cache_event.
    fold ct co cr. subst lookup. cbv beta.
    destruct (Z.leb_spec CACHE_MAX ct), (Z.leb_spec OP_MAX co),
      (Z.leb_spec RESULT_MAX cr); split; intros; try reflexivity; lia. }
  assert (Hpack : ∀ ct co cr,
       0 <= ct < 256 → 0 <= co < 256 → 0 <= cr < 256 →
       ct < CACHE_MAX → co < OP_MAX → cr < RESULT_MAX →
       armpmu_map_cache_event CACHE_MAX OP_MAX RESULT_MAX cache_map
         (cache_config_pack ct co cr) = lookup ct co cr).
  { intros ct co cr Ht Ho Hr Ht' Ho' Hr'.
    destruct (cache_config_pack_fields ct co cr Ht Ho Hr) as (E1 & E2 & E3).
    destruct (Hgen (cache_config_pack ct co cr)) as [_ Hin].
    rewrite E1, E2, E3 in Hin. apply Hin. lia. }
  split; [exact Hgen |]. split; [exact Hpack |].
  split; [reflexivity |]. split.
  - intros H1 H2 H3. apply (Hpack 1 2 0); lia.
  - intros Hmax config Hty. destruct (Hgen config) as [Hout _].
    apply Hout. left. rewrite Z.shiftr_0_r, Hty. exact Hmax.
Qed.

Lemma armpmu_map_cache_event_decodes_witness :
  armpmu_map_cache_event 7 3 2 (fun ct co cr => ct + 10 * co + 100 * cr)
    0x000201 = 21
  ∧ armpmu_map_cache_event 7 3 2 (fun ct co cr => ct + 10 * co + 100 * cr)
      0x0002ff = - EINVAL.
Proof.
  pose proof (armpmu_map_cache_event_decodes 7 3 2
                (fun ct co cr => ct + 10 * co + 100 * cr)) as Hc.
  cbv zeta in Hc. destruct Hc as (_ & _ & _ & Hex & Hbad).
  split.
  - rewrite Hex by lia. reflexivity.
  - apply Hbad; [lia | reflexivity].
Defined.

(** ** The monad *)

Section MonadFacts.

Context {H : Type}.
Implicit Types w : world H.

Lemma bind_unfold {A B : Type} (m : M H A) (f : A → M H B) w :
  (m ≫= f) w = match m w with Some (a, w') => f a w' | None => None end.
Proof. reflexivity. Qed.

Lemma bind_inv {A B : Type} (m : M H A) (f : A → M H B) w b w2 :
  (m ≫= f) w = Some (b, w2) →
  ∃ a w1, m w = Some (a, w1) ∧ f a w1 = Some (b, w2).
Proof.
  rewrite bind_unfold. destruct (m w) as [[a w1] |]; [| discriminate].
  intros Hf. exists a, w1. split; [reflexivity | exact Hf].
Qed.

Lemma bind_some {A B : Type} (m : M H A) (f : A → M H B) w a w1 :
  m w = Some (a, w1) → (m ≫= f) w = f a w1.
Proof. intros Hm. rewrite bind_unfold, Hm. reflexivity. Qed.

Lemma ret_unfold {A : Type} (a : A) w : (mret a : M H A) w = Some (a, w).
Proof. reflexivity. Qed.

Lemma event_deref_some (p : ptr) w ev :
  event_heap w !! p = Some ev → event_deref p w = Some (ev, w).
Proof. intros Hp. unfold event_deref. rewrite Hp. reflexivity. Qed.

Lemma event_deref_inv (p : ptr) w ev w' :
  event_deref p w = Some (ev, w') → w' = w ∧ event_heap w !! p = Some ev.
Proof.
  unfold event_deref. destruct (event_heap w !! p); [| discriminate].
  intros [= -> ->]. split; reflexivity.
Qed.

Lemma event_modify_some (p : ptr) (f : perf_event → perf_event) w ev :
  event_heap w !! p = Some ev →
  event_modify p f w = Some (tt, event_store p (f ev) w).
Proof. intros Hp. unfold event_modify. rewrite Hp. reflexivity. Qed.

Lemma event_modify_inv (p : ptr) (f : perf_event → perf_event) w u w' :
  event_modify p f w = Some (u, w') →
  ∃ ev, event_heap w !! p = Some ev ∧ w' = event_store p (f ev) w.
Proof.
  unfold event_modify. destruct (event_heap w !! p) as [ev |];
    [| discriminate].
  intros [= _ <-]. exists ev. split; reflexivity.
Qed.

Lemma event_store_lookup (p : ptr) (ev : perf_event) w :
  event_heap (event_store p ev w) !! p = Some ev.
Proof. apply lookup_insert_eq. Qed.

Lemma event_store_lookup_ne (p q : ptr) (ev : perf_event) w :
  p ≠ q → event_heap (event_store p ev w) !! q = event_heap w !! q.
Proof. intros Hne. apply lookup_insert_ne. exact Hne. Qed.

Lemma event_store_store (p : ptr) (ev ev' : perf_event) w :
  event_store p ev' (event_store p ev w) = event_store p ev' w.
Proof.
  unfold event_store, set_event_heap. simpl.
  rewrite insert_insert_eq. reflexivity.
Qed.

(** A store through a pointer whose object is known. *)
Lemma event_modify_stored (p : ptr) (f : perf_event → perf_event) w ev :
  event_modify p f (event_store p ev w) = Some (tt, event_store p (f ev) w).
Proof.
  rewrite (event_modify_some _ _ _ ev) by apply event_store_lookup.
  rewrite event_store_store. reflexivity.
Qed.

Lemma to_arm_pmu_some (armpmu : arm_pmu H) w :
  to_arm_pmu armpmu (pmu_addr armpmu) w = Some (armpmu, w).
Proof. unfold to_arm_pmu. rewrite decide_True by reflexivity. reflexivity. Qed.

Lemma to_arm_pmu_inv (armpmu : arm_pmu H) (p : ptr) w a w' :
  to_arm_pmu armpmu p w = Some (a, w') →
  a = armpmu ∧ w' = w ∧ p = pmu_addr armpmu.
Proof.
  unfold to_arm_pmu. destruct (decide (p = pmu_addr armpmu)) as [-> |];
    [| discriminate].
  intros [= <- <-]. repeat split.
Qed.

Lemma get_hw_events_inv w cpuc w' :
  get_hw_events w = Some (cpuc, w') →
  w' = w ∧ percpu_hw_events w !! this_cpu w = Some cpuc.
Proof.
  unfold get_hw_events.
  destruct (percpu_hw_events w !! this_cpu w); [| discriminate].
  intros [= -> ->]. split; reflexivity.
Qed.

Lemma put_hw_events_inv (cpuc : cpu_hw_events) w u w' :
  put_hw_events cpuc w = Some (u, w') →
  is_Some (percpu_hw_events w !! this_cpu w)
  ∧ w' = set_percpu_hw_events
           (<[this_cpu w := cpuc]> (percpu_hw_events w)) w.
Proof.
  unfold put_hw_events.
  destruct (percpu_hw_events w !! this_cpu w) as [c |]; [| discriminate].
  intros [= _ <-]. split; [exists c |]; reflexivity.
Qed.

End MonadFacts.

(** *** Frames *)

Section Frames.

Context {H A B : Type}.
Variable R : world H → world H → Prop.
Context `{!PreOrder R}.

Lemma frame_ret (a : A) : frame R (mret a : M H A).
Proof. intros w a' w' [= _ <-]. reflexivity. Qed.

Lemma frame_bind (m : M H A) (f : A → M H B) :
  frame R m → (∀ a, frame R (f a)) → frame R (m ≫= f).
Proof.
  intros Hm Hf w b w2 Hrun.
  apply bind_inv in Hrun as (a & w1 & Hrun1 & Hrun2).
  transitivity w1; [exact (Hm _ _ _ Hrun1) | exact (Hf _ _ _ _ Hrun2)].
Qed.

Lemma frame_undefined : frame R (undefined : M H A).
Proof. intros w a w' Hrun. discriminate Hrun. Qed.

Lemma returns_ret (a : A) : returns R (mret a : M H A).
Proof. intros w. exists a, w. split; reflexivity. Qed.

Lemma returns_bind (m : M H A) (f : A → M H B) :
  returns R m → (∀ a, returns R (f a)) → returns R (m ≫= f).
Proof.
  intros Hm Hf w. destruct (Hm w) as (a & w1 & Hrun1 & HR1).
  destruct (Hf a w1) as (b & w2 & Hrun2 & HR2).
  exists b, w2. split; [| transitivity w1; assumption].
  rewrite (bind_some _ _ _ _ _ Hrun1). exact Hrun2.
Qed.

Lemma returns_frame (m : M H A) : returns R m → frame R m.
Proof.
  intros Hm w a w' Hrun. destruct (Hm w) as (a0 & w0 & Hrun0 & HR).
  rewrite Hrun in Hrun0. inversion Hrun0. subst. exact HR.
Qed.

End Frames.

#[export] Instance keeps_events_and_tables_preorder {H : Type} :
  PreOrder (@keeps_events_and_tables H).
Proof.
  split.
  - intros w. repeat split.
  - intros w1 w2 w3 (Ha & Hb & Hc) (Ha' & Hb' & Hc').
    repeat split; congruence.
Qed.

#[export] Instance writes_event_preorder {H : Type} (event : ptr) :
  PreOrder (@writes_event H event).
Proof.
  split.
  - intros w. repeat split. intros ev Hev. exists ev. repeat split. exact Hev.
  - intros w1 w2 w3 (Ha & Hb & Hc & Hd) (Ha' & Hb' & Hc' & Hd').
    split; [congruence |]. split; [congruence |]. split.
    + intros p Hp. rewrite (Hc' p Hp). exact (Hc p Hp).
    + intros ev Hev. destruct (Hd ev Hev) as (ev2 & Hev2 & Hi & Hp).
      destruct (Hd' ev2 Hev2) as (ev3 & Hev3 & Hi' & Hp').
      exists ev3. repeat split; congruence.
Qed.

Lemma keeps_writes_event {H : Type} (event : ptr) (w w' : world H) :
  keeps_events_and_tables w w' → writes_event event w w'.
Proof.
  intros (Ha & Hb & Hc). repeat split; try assumption.
  - intros p _. rewrite Hc. reflexivity.
  - intros ev Hev. exists ev. rewrite Hc. repeat split. exact Hev.
Qed.

#[export] Instance touches_event_preorder {H : Type} (event : ptr) :
  PreOrder (@touches_event H event).
Proof.
  split.
  - intros w. repeat split. intros Hs. exact Hs.
  - intros w1 w2 w3 (Ha & Hb & Hc & Hd) (Ha' & Hb' & Hc' & Hd').
    split; [congruence |]. split; [congruence |]. split.
    + intros p Hp. rewrite (Hc' p Hp). exact (Hc p Hp).
    + intros Hs. exact (Hd' (Hd Hs)).
Qed.

Lemma writes_touches_event {H : Type} (event : ptr) (w w' : world H) :
  writes_event event w w' → touches_event event w w'.
Proof.
  intros (Ha & Hb & Hc & Hd). repeat split; try assumption.
  intros [ev Hev]. destruct (Hd ev Hev) as (ev' & Hev' & _). exists ev'.
  exact Hev'.
Qed.

(** Takes one bind of a run apart. *)
Tactic Notation "mstep" hyp(Hrun) "as" ident(a) ident(w1) ident(Hm) :=
  apply bind_inv in Hrun; destruct Hrun as (a & w1 & Hm & Hrun).

(** ** Delta accounting and period programming *)

Section Accounting.

Context {H : Type}.
Variable armpmu : arm_pmu H.

(** C3.  [armpmu_event_update] on an event with shadow value [prev_count]
    reads the counter, masks both values with [max_period] and computes
    the 64-bit [delta]: [max_period - prev + new + 1] when the overflow
    flag is set, [new - prev] otherwise, in unsigned 64-bit arithmetic
    (exactly that integer when it does not wrap: with the flag set and
    [max_period] below 2^63, without the flag when [prev <= new]).  The
    delta is added to the 64-bit [count] and subtracted from
    [period_left], the shadow value becomes the raw value read, and the
    masked new value is returned.  With [prev = max_period - 10],
    [new = 5] and the flag set the delta is 16. *)
Theorem armpmu_event_update_delta (event : ptr) (i overflow : Z)
    (w : world H) (ev : perf_event) :
  event_heap w !! event = Some ev →
  pmu ev = pmu_addr armpmu →
  0 <= max_period armpmu < 2 ^ 64 →
  let raw := wrap32 (read_counter armpmu i (regs w)).1 in
  let new := Z.land raw (max_period armpmu) in
  let prev := Z.land (prev_count (hw ev)) (max_period armpmu) in
  let delta := event_delta (max_period armpmu) prev new overflow in
  let exact := if overflow =? 0 then new - prev
               else max_period armpmu - prev + new + 1 in
  delta = wrap64 exact
  ∧ (overflow ≠ 0 → max_period armpmu < 2 ^ 63 →
     delta = max_period armpmu - prev + new + 1)
  ∧ (overflow = 0 → prev <= new → delta = new - prev)
  ∧ (∀ mp, 10 <= mp < 2 ^ 63 → event_delta mp (mp - 10) 5 1 = 16)
  ∧ ∃ w' ev',
      armpmu_event_update armpmu event i overflow w = Some (new, w')
      ∧ event_heap w' !! event = Some ev'
      ∧ count ev' = wrap64 (count ev + delta)
      ∧ count ev' = wrap64 (count ev + exact)
      ∧ period_left (hw ev') = to_s64 (period_left (hw ev) - delta)
      ∧ period_left (hw ev') = to_s64 (period_left (hw ev) - exact)
      ∧ prev_count (hw ev') = raw.
Proof.
  intros Hev Hpmu Hmp raw new prev delta exact.
  assert (Hnew : 0 <= new <= max_period armpmu)
    by (apply land_nonneg_bound; lia).
  assert (Hprev : 0 <= prev <= max_period armpmu)
    by (apply land_nonneg_bound; lia).
  assert (Hdelta : delta = wrap64 exact).
  { subst delta exact. unfold event_delta.
    destruct (overflow =? 0); reflexivity. }
  split; [exact Hdelta |]. split.
  { intros Hov Hlt. rewrite Hdelta. subst exact.
    destruct (Z.eqb_spec overflow 0); [contradiction |].
    apply wrap64_small. lia. }
  split.
  { intros Hov Hle. rewrite Hdelta. subst exact.
    destruct (Z.eqb_spec overflow 0); [| contradiction].
    apply wrap64_small. lia. }
  split.
  { intros mp Hmp'. unfold event_delta. simpl.
    replace (mp - (mp - 10) + 5 + 1) with 16 by lia. reflexivity. }
  unfold armpmu_event_update.
  rewrite (bind_some _ _ _ _ _ (event_deref_some _ _ _ Hev)).
  rewrite Hpmu, (bind_some _ _ _ _ _ (to_arm_pmu_some _ _)).
  rewrite bind_unfold. unfold reg_read.
  destruct (read_counter armpmu i (regs w)) as [v h] eqn:Hrd.
  simpl in raw. fold raw. fold new prev. fold delta.
  unfold hwc_modify.
  rewrite bind_unfold, (event_modify_some _ _ _ ev) by exact Hev.
  rewrite bind_unfold, event_modify_stored.
  rewrite bind_unfold, event_modify_stored.
  rewrite ret_unfold.
  eexists _, _. split; [reflexivity |]. split.
  { apply event_store_lookup. }
  rewrite <- (to_s64_sub_r _ exact), <- (wrap64_add_r _ exact), <- Hdelta.
  simpl. repeat split.
Qed.


Lemma to_s64_range (z : Z) : - 2 ^ 63 <= to_s64 z < 2 ^ 63.
Proof.
  unfold to_s64. pose proof (Z.mod_pos_bound (z + 2 ^ 63) (2 ^ 64)). lia.
Qed.

(** C4.  [armpmu_event_set_period] with period length [P >= 0]: if
    [period_left <= -P] the field is reset to [P] and 1 ("changed") is
    returned, else if [period_left <= 0] then [P] is added to it and 1 is
    returned, else it is kept and 0 is returned.  The value is then
    clamped to at most [max_period], and the counter is written with the
    negation of the clamped value truncated to 32 bits (the shadow value
    gets the 64-bit negation).  With [period_left = 0] and [P = 1000] the
    call returns 1, leaves [period_left = 1000] and writes
    [2^32 - 1000]. *)
Theorem armpmu_event_set_period_programs (event : ptr) (i : Z)
    (w : world H) (ev : perf_event) :
  event_heap w !! event = Some ev →
  pmu ev = pmu_addr armpmu →
  let period := to_s64 (sample_period (hw ev)) in
  let left_ := period_left (hw ev) in
  0 <= period →
  - 2 ^ 63 <= left_ < 2 ^ 63 →
  let new_left :=
    if left_ <=? - period then period
    else if left_ <=? 0 then left_ + period else left_ in
  let changed :=
    if left_ <=? - period then 1 else if left_ <=? 0 then 1 else 0 in
  let programmed := Z.min new_left (to_s64 (max_period armpmu)) in
  ∃ w' ev',
    armpmu_event_set_period armpmu event i w = Some (changed, w')
    ∧ event_heap w' !! event = Some ev'
    ∧ period_left (hw ev') = new_left
    ∧ prev_count (hw ev') = wrap64 (- programmed)
    ∧ regs w' = write_counter armpmu i (wrap32 (- programmed)) (regs w)
    ∧ (left_ = 0 → period = 1000 → 1000 <= to_s64 (max_period armpmu) →
       changed = 1 ∧ period_left (hw ev') = 1000
       ∧ regs w' = write_counter armpmu i (2 ^ 32 - 1000) (regs w)).
Proof.
  intros Hev Hpmu period left_ Hpos Hleft new_left changed programmed.
  pose proof (to_s64_range (sample_period (hw ev))) as Hper. fold period in Hper.
  unfold armpmu_event_set_period.
  rewrite (bind_some _ _ _ _ _ (event_deref_some _ _ _ Hev)).
  rewrite Hpmu, (bind_some _ _ _ _ _ (to_arm_pmu_some _ _)).
  fold period left_. rewrite (to_s64_small (- period)) by lia.
  assert (Hclamp : ∀ v, (if to_s64 (max_period armpmu) <? v
                         then to_s64 (max_period armpmu) else v)
                        = Z.min v (to_s64 (max_period armpmu))).
  { intros v. destruct (Z.ltb_spec (to_s64 (max_period armpmu)) v); lia. }
  assert (Hex : left_ = 0 → period = 1000 →
                1000 <= to_s64 (max_period armpmu) →
                changed = 1 ∧ new_left = 1000 ∧ wrap32 (- programmed)
                                                = 2 ^ 32 - 1000).
  { intros Hz Hk Hm. subst changed programmed new_left. rewrite Hz, Hk.
    simpl. rewrite Z.min_l by exact Hm. repeat split. }
  subst new_left changed programmed.
  destruct (Z.leb_spec left_ (- period)) as [Hstale | Hfresh].
  - assert (Hagain : (if period <=? 0
                      then (to_s64 (period + period),
                            set_last_period (wrap64 period)
                              (set_period_left (to_s64 (period + period))
                                 (set_last_period (wrap64 period)
                                    (set_period_left period (hw ev)))), 1)
                      else (period,
                            set_last_period (wrap64 period)
                              (set_period_left period (hw ev)), 1))
                     = (period,
                        set_last_period (wrap64 period)
                          (set_period_left period (hw ev)), 1)).
    { destruct (Z.leb_spec period 0) as [Hzero | _]; [| reflexivity].
      replace (to_s64 (period + period)) with period
        by (rewrite to_s64_small; lia).
      reflexivity. }
    rewrite Hagain. clear Hagain.
    rewrite Hclamp, land_mask32.
    rewrite bind_unfold, (event_modify_some _ _ _ ev) by exact Hev.
    rewrite bind_unfold. unfold reg_write. rewrite ret_unfold.
    eexists _, _. split; [reflexivity |]. split; [apply event_store_lookup |].
    simpl. do 3 (split; [reflexivity |]).
    intros Hz Hk Hm. destruct (Hex Hz Hk Hm) as (Hc & Hn & ->).
    repeat split; assumption.
  - destruct (Z.leb_spec left_ 0) as [Hdue | Hahead].
    + rewrite (to_s64_small (left_ + period)) by lia.
      rewrite Hclamp, land_mask32.
      rewrite bind_unfold, (event_modify_some _ _ _ ev) by exact Hev.
      rewrite bind_unfold. unfold reg_write. rewrite ret_unfold.
      eexists _, _. split; [reflexivity |]. split; [apply event_store_lookup |].
      simpl. do 3 (split; [reflexivity |]).
      intros Hz Hk Hm. destruct (Hex Hz Hk Hm) as (Hc & Hn & ->).
      repeat split; assumption.
    + rewrite Hclamp, land_mask32.
      rewrite bind_unfold, (event_modify_some _ _ _ ev) by exact Hev.
      rewrite bind_unfold. unfold reg_write. rewrite ret_unfold.
      eexists _, _. split; [reflexivity |]. split; [apply event_store_lookup |].
      simpl. do 3 (split; [reflexivity |]).
      intros Hz Hk Hm. destruct (Hex Hz Hk Hm) as (Hc & Hn & ->).
      repeat split; assumption.
Qed.

(** C10.  [armpmu_read] on an event whose index is negative returns at
    once: the world after the call is the world before it, so no register
    of the PMU was accessed (whatever the backend's [read_counter] does
    to the registers) and the count, the shadow value and the period
    state of the event are as they were. *)
Theorem armpmu_read_unassigned_noop (event : ptr) (w : world H)
    (ev : perf_event) :
  event_heap w !! event = Some ev →
  idx (hw ev) < 0 →
  armpmu_read armpmu event w = Some (tt, w).
Proof.
  intros Hev Hidx. unfold armpmu_read.
  rewrite (bind_some _ _ _ _ _ (event_deref_some _ _ _ Hev)).
  destruct (Z.ltb_spec (idx (hw ev)) 0) as [_ | Hge]; [| lia].
  reflexivity.
Qed.

End Accounting.

Lemma armpmu_event_update_delta_witness :
  ∃ w' ev',
    armpmu_event_update (sample_pmu 2 sample_device) 1%nat 0 1
      (sample_world_with
         {[1%nat := sample_event_with
                      (sample_hw_with 0 1000 500 (2 ^ 32 - 1 - 10))]}
         [RegWrite 0 5]) = Some (5, w')
    ∧ event_heap w' !! 1%nat = Some ev'
    ∧ count ev' = 16
    ∧ period_left (hw ev') = 500 - 16.
Proof.
  destruct (armpmu_event_update_delta (sample_pmu 2 sample_device) 1%nat 0 1
              (sample_world_with
                 {[1%nat := sample_event_with
                              (sample_hw_with 0 1000 500 (2 ^ 32 - 1 - 10))]}
                 [RegWrite 0 5])
              (sample_event_with
                 (sample_hw_with 0 1000 500 (2 ^ 32 - 1 - 10))))
    as (_ & _ & _ & _ & w' & ev' & Hrun & Hev' & Hcount & _ & Hleft & _).
  - reflexivity.
  - reflexivity.
  - simpl. lia.
  - exists w', ev'. split; [exact Hrun |]. split; [exact Hev' |].
    split; [exact Hcount | exact Hleft].
Defined.

Lemma armpmu_event_set_period_programs_witness :
  ∃ w' ev',
    armpmu_event_set_period (sample_pmu 2 sample_device) 1%nat 0
      (sample_world_with
         {[1%nat := sample_event_with (sample_hw_with 0 1000 0 0)]} [])
    = Some (1, w')
    ∧ event_heap w' !! 1%nat = Some ev'
    ∧ period_left (hw ev') = 1000
    ∧ regs w' = [RegWrite 0 (2 ^ 32 - 1000)].
Proof.
  destruct (armpmu_event_set_period_programs (sample_pmu 2 sample_device)
              1%nat 0
              (sample_world_with
                 {[1%nat := sample_event_with (sample_hw_with 0 1000 0 0)]}
                 [])
              (sample_event_with (sample_hw_with 0 1000 0 0)))
    as (w' & ev' & Hrun & Hev' & Hleft & _ & Hregs & _).
  - reflexivity.
  - reflexivity.
  - vm_compute. discriminate.
  - simpl. lia.
  - exists w', ev'. split; [exact Hrun |]. split; [exact Hev' |].
    split; [exact Hleft | exact Hregs].
Defined.

(** The claim C4 as the specification states it, for every call, fails
    for a period that is negative as [s64], that is a [sample_period] at
    or above 2^63, which the function reads unchecked: with [P = -5] and
    [period_left = 3 <= -P] the field is not reset to [P]; the first test
    sets it to [-5], the second test, which is not an [else], fires as
    well and adds [P] again, and [period_left] ends as [-10]. *)
Lemma armpmu_event_set_period_negative_period :
  let ev := sample_event_with (sample_hw_with 0 (2 ^ 64 - 5) 3 0) in
  let P := to_s64 (sample_period (hw ev)) in
  P = -5
  ∧ period_left (hw ev) <= - P
  ∧ ∃ w' ev',
      armpmu_event_set_period (sample_pmu 2 sample_device) 1%nat 0
        (sample_world_with {[1%nat := ev]} []) = Some (1, w')
      ∧ event_heap w' !! 1%nat = Some ev'
      ∧ period_left (hw ev') = -10
      ∧ period_left (hw ev') ≠ P.
Proof.
  cbv zeta. split; [vm_compute; reflexivity |].
  split; [vm_compute; discriminate |].
  destruct (armpmu_event_set_period _ _ _ _) as [[r w'] |] eqn:Hrun;
    [| vm_compute in Hrun; discriminate Hrun].
  vm_compute in Hrun. inversion Hrun; subst r w'; clear Hrun.
  eexists _, _. split; [reflexivity |].
  split; [vm_compute; reflexivity |].
  split; [reflexivity | vm_compute; discriminate].
Qed.

Lemma armpmu_read_unassigned_noop_witness :
  armpmu_read (sample_pmu 2 sample_device) 1%nat
    (sample_world_with
       {[1%nat := sample_event_with (sample_hw_with (-1) 1000 0 0)]} [])
  = Some (tt,
          sample_world_with
            {[1%nat := sample_event_with (sample_hw_with (-1) 1000 0 0)]} []).
Proof.
  apply (armpmu_read_unassigned_noop (sample_pmu 2 sample_device) 1%nat _
           (sample_event_with (sample_hw_with (-1) 1000 0 0))).
  - reflexivity.
  - simpl. lia.
Defined.

(** ** Group validation *)

Section GroupValidation.

Context {H : Type}.
Variable armpmu : arm_pmu H.
Implicit Types (w : world H) (c : cpu_hw_events) (m : ptr).

Lemma validate_event_run w c m ev leader :
  event_heap w !! m = Some ev →
  event_heap w !! group_leader ev = Some leader →
  (consults_allocator ev leader = true → pmu ev = pmu_addr armpmu) →
  validate_event armpmu c m w
  = Some (if consults_allocator ev leader
          then (if 0 <=? (get_event_idx armpmu c (hw ev)).1.1 then 1 else 0,
                (get_event_idx armpmu c (hw ev)).1.2)
          else (1, c), w).
Proof.
  intros Hev Hl Hpmu. unfold validate_event.
  rewrite (bind_some _ _ _ _ _ (event_deref_some _ _ _ Hev)).
  rewrite (bind_some _ _ _ _ _ (event_deref_some _ _ _ Hl)).
  unfold consults_allocator in *.
  destruct (bool_decide (pmu ev = pmu leader)); simpl in *; [| reflexivity].
  destruct (ev_state ev <=? PERF_EVENT_STATE_OFF); simpl in *;
    [reflexivity |].
  rewrite (Hpmu eq_refl), (bind_some _ _ _ _ _ (to_arm_pmu_some _ _)).
  destruct (get_event_idx armpmu c (hw ev)) as [[i c'] fake]. reflexivity.
Qed.

Lemma validate_event_frame c m : frame eq (validate_event armpmu c m).
Proof.
  intros w r w' Hrun. unfold validate_event in Hrun.
  mstep Hrun as ev w1 Hev. apply event_deref_inv in Hev as [-> _].
  mstep Hrun as l w2 Hl. apply event_deref_inv in Hl as [-> _].
  destruct (_ || _).
  - inversion Hrun. reflexivity.
  - mstep Hrun as a w3 Ha. apply to_arm_pmu_inv in Ha as (-> & -> & _).
    destruct (get_event_idx armpmu c (hw ev)) as [[i c'] fake].
    inversion Hrun. reflexivity.
Qed.

Lemma validate_siblings_frame siblings :
  ∀ c, frame eq (validate_siblings armpmu c siblings).
Proof.
  induction siblings as [| s rest IH]; intros c w r w' Hrun; simpl in Hrun.
  - inversion Hrun. reflexivity.
  - mstep Hrun as okc w1 Hs. destruct okc as [ok c1].
    apply validate_event_frame in Hs. subst w1.
    destruct (ok =? 0).
    + inversion Hrun. reflexivity.
    + exact (IH _ _ _ _ Hrun).
Qed.

Lemma validate_group_frame event : frame eq (validate_group armpmu event).
Proof.
  intros w r w' Hrun. unfold validate_group in Hrun.
  mstep Hrun as ev w1 Hev. apply event_deref_inv in Hev as [-> _].
  mstep Hrun as okc w2 Hl. destruct okc as [ok c1].
  apply validate_event_frame in Hl. subst w2.
  destruct (ok =? 0); [inversion Hrun; reflexivity |].
  mstep Hrun as l w3 Hld. apply event_deref_inv in Hld as [-> _].
  mstep Hrun as okc2 w4 Hs. destruct okc2 as [ok2 c2].
  apply validate_siblings_frame in Hs. subst w4.
  destruct (ok2 =? 0); [inversion Hrun; reflexivity |].
  mstep Hrun as okc3 w5 He. destruct okc3 as [ok3 c3].
  apply validate_event_frame in He. subst w5.
  destruct (ok3 =? 0); inversion Hrun; reflexivity.
Qed.

Lemma validate_group_result event w r w' :
  validate_group armpmu event w = Some (r, w') → r = 0 ∨ r = - ENOSPC.
Proof.
  intros Hrun. unfold validate_group in Hrun.
  mstep Hrun as ev w1 Hev. mstep Hrun as okc w2 Hl. destruct okc as [ok c1].
  destruct (ok =? 0); [inversion Hrun; right; reflexivity |].
  mstep Hrun as l w3 Hld. mstep Hrun as okc2 w4 Hs.
  destruct okc2 as [ok2 c2].
  destruct (ok2 =? 0); [inversion Hrun; right; reflexivity |].
  mstep Hrun as okc3 w5 He. destruct okc3 as [ok3 c3].
  destruct (ok3 =? 0); inversion Hrun; [right | left]; reflexivity.
Qed.

(** *** The placement relation *)

Lemma placed_app w c c1 c2 xs ys :
  placed armpmu w c xs c1 → placed armpmu w c1 ys c2 →
  placed armpmu w c (xs ++ ys) c2.
Proof.
  induction 1 as [c | c c' m rest ev l Hev Hl Hc _ IH
                  | c c' m rest ev l Hev Hl Hc Hi _ IH]; intros Hys; simpl.
  - exact Hys.
  - eapply placed_trivial; eauto.
  - eapply placed_counter; eauto.
Qed.

Lemma placed_functional w c xs c1 c2 :
  placed armpmu w c xs c1 → placed armpmu w c xs c2 → c1 = c2.
Proof.
  intros Hp. revert c2.
  induction Hp as [c | c c' m rest ev l Hev Hl Hc _ IH
                   | c c' m rest ev l Hev Hl Hc Hi _ IH]; intros c2 Hq;
    inversion Hq; subst; try reflexivity.
  - apply IH. assumption.
  - congruence.
  - congruence.
  - apply IH. replace ev with ev0 by congruence. assumption.
Qed.

Lemma placed_app_inv w c xs ys c2 :
  placed armpmu w c (xs ++ ys) c2 →
  ∃ c1, placed armpmu w c xs c1 ∧ placed armpmu w c1 ys c2.
Proof.
  revert c. induction xs as [| x xs IH]; intros c Hp; simpl in Hp.
  - exists c. split; [constructor | exact Hp].
  - inversion Hp; subst.
    + destruct (IH _ ltac:(eassumption)) as (c1 & Hx & Hy).
      exists c1. split; [eapply placed_trivial; eauto | exact Hy].
    + destruct (IH _ ltac:(eassumption)) as (c1 & Hx & Hy).
      exists c1. split; [eapply placed_counter; eauto | exact Hy].
Qed.

Lemma placed_not_rejected w c xs c' :
  placed armpmu w c xs c' → ¬ rejected armpmu w c xs.
Proof.
  intros Hp (before & m & after & c1 & ev & l & -> & Hb & Hev & Hl & Hc & Hi).
  apply placed_app_inv in Hp as (c1' & Hb' & Hm).
  rewrite (placed_functional _ _ _ _ _ Hb' Hb) in Hm.
  inversion Hm; subst.
  - congruence.
  - replace ev0 with ev in * by congruence. lia.
Qed.

Lemma rejected_app_l w c xs ys :
  rejected armpmu w c xs → rejected armpmu w c (xs ++ ys).
Proof.
  intros (before & m & after & c1 & ev & l & -> & Hrest).
  exists before, m, (after ++ ys), c1, ev, l.
  split; [| exact Hrest]. rewrite <- app_assoc. reflexivity.
Qed.

Lemma rejected_app_r w c c1 xs ys :
  placed armpmu w c xs c1 → rejected armpmu w c1 ys →
  rejected armpmu w c (xs ++ ys).
Proof.
  intros Hx (before & m & after & c2 & ev & l & -> & Hb & Hrest).
  exists (xs ++ before), m, after, c2, ev, l.
  split; [rewrite <- app_assoc; reflexivity |].
  split; [eapply placed_app; eauto | exact Hrest].
Qed.

(** One member: either it is placed, or it is the one rejected. *)
Lemma validate_event_placed w c m :
  member_ok armpmu w m →
  (∃ c', validate_event armpmu c m w = Some ((1, c'), w)
         ∧ placed armpmu w c [m] c')
  ∨ (∃ c', validate_event armpmu c m w = Some ((0, c'), w)
           ∧ rejected armpmu w c [m]).
Proof.
  intros (ev & l & Hev & Hl & Hpmu).
  rewrite (validate_event_run w c m ev l Hev Hl Hpmu).
  destruct (consults_allocator ev l) eqn:Hc.
  - destruct (Z.leb_spec 0 (get_event_idx armpmu c (hw ev)).1.1) as [Hi | Hi].
    + left. eexists. split; [reflexivity |].
      eapply placed_counter; eauto. constructor.
    + right. eexists. split; [reflexivity |].
      exists [], m, [], c, ev, l. repeat split; auto. constructor.
  - left. eexists. split; [reflexivity |].
    eapply placed_trivial; eauto. constructor.
Qed.

Lemma validate_siblings_placed w siblings :
  Forall (member_ok armpmu w) siblings →
  ∀ c,
    (∃ c', validate_siblings armpmu c siblings w = Some ((1, c'), w)
           ∧ placed armpmu w c siblings c')
    ∨ (∃ c', validate_siblings armpmu c siblings w = Some ((0, c'), w)
             ∧ rejected armpmu w c siblings).
Proof.
  induction 1 as [| s rest Hs _ IH]; intros c; simpl.
  - left. exists c. split; [reflexivity | constructor].
  - destruct (validate_event_placed w c s Hs)
      as [(c1 & Hrun & Hp) | (c1 & Hrun & Hr)].
    + rewrite (bind_some _ _ _ _ _ Hrun). simpl.
      destruct (IH c1) as [(c2 & Hrun2 & Hp2) | (c2 & Hrun2 & Hr2)].
      * left. exists c2. split; [exact Hrun2 |].
        exact (placed_app _ _ _ _ [s] rest Hp Hp2).
      * right. exists c2. split; [exact Hrun2 |].
        exact (rejected_app_r _ _ _ [s] rest Hp Hr2).
    + rewrite (bind_some _ _ _ _ _ Hrun). simpl.
      right. exists c1. split; [reflexivity |].
      exact (rejected_app_l _ _ [s] rest Hr).
Qed.


(** When the objects the walk reaches exist, [validate_group] returns:
    -ENOSPC with a rejected member, or 0 with all members placed. *)
Lemma validate_group_returns (event : ptr) (w : world H) ev leader :
  event_heap w !! event = Some ev →
  event_heap w !! group_leader ev = Some leader →
  Forall (member_ok armpmu w) (group_members ev leader event) →
  ∃ r, validate_group armpmu event w = Some (r, w)
       ∧ ((rejected armpmu w zeroed_cpu_hw_events
             (group_members ev leader event) ∧ r = - ENOSPC)
          ∨ ((∃ c', placed armpmu w zeroed_cpu_hw_events
                      (group_members ev leader event) c') ∧ r = 0)).
Proof.
  intros Hev Hl Hok. unfold group_members in *.
  apply Forall_cons in Hok as [Hlead Hok].
  apply Forall_app in Hok as [Hsibs Hevent].
  apply Forall_cons in Hevent as [Hevent _].
  unfold validate_group.
  rewrite (bind_some _ _ _ _ _ (event_deref_some _ _ _ Hev)).
  set (c0 := zeroed_cpu_hw_events).
  destruct (validate_event_placed w c0 (group_leader ev) Hlead)
    as [(c1 & Hrun1 & Hp1) | (c1 & Hrun1 & Hr1)];
    rewrite (bind_some _ _ _ _ _ Hrun1); simpl.
  2:{ exists (- ENOSPC). split; [reflexivity |]. left.
      split; [| reflexivity].
      exact (rejected_app_l _ _ [group_leader ev] _ Hr1). }
  rewrite (bind_some _ _ _ _ _ (event_deref_some _ _ _ Hl)).
  destruct (validate_siblings_placed w (sibling_list leader) Hsibs c1)
    as [(c2 & Hrun2 & Hp2) | (c2 & Hrun2 & Hr2)];
    rewrite (bind_some _ _ _ _ _ Hrun2); simpl.
  2:{ exists (- ENOSPC). split; [reflexivity |]. left.
      split; [| reflexivity].
      apply (rejected_app_r _ _ _ [group_leader ev] _ Hp1).
      apply rejected_app_l. exact Hr2. }
  destruct (validate_event_placed w c2 event Hevent)
    as [(c3 & Hrun3 & Hp3) | (c3 & Hrun3 & Hr3)];
    rewrite (bind_some _ _ _ _ _ Hrun3); simpl.
  - exists 0. split; [reflexivity |]. right.
    split; [| reflexivity]. exists c3.
    apply (placed_app _ _ _ _ [group_leader ev] _ Hp1).
    exact (placed_app _ _ _ _ _ _ Hp2 Hp3).
  - exists (- ENOSPC). split; [reflexivity |]. left.
    split; [| reflexivity].
    apply (rejected_app_r _ _ _ [group_leader ev] _ Hp1).
    exact (rejected_app_r _ _ _ _ _ Hp2 Hr3).
Qed.

(** Group validation on groups of this PMU.  [validate_group] places
    the leader, every sibling and the event under test, in this order,
    against a zeroed scratch table, handing
    the allocator a copy of each member's hardware state.  Whatever the
    input, a call that returns leaves the world as it was (every per-CPU
    table, every event object) and returns 0 or -ENOSPC.  A member whose
    PMU is not its group leader's, or which is switched off, passes
    without the allocator being consulted and without a change to the
    scratch table.  When the objects the walk reaches exist, the call
    returns, and it returns -ENOSPC exactly when some member for which
    the allocator is consulted gets no counter (the members before it
    having been placed), and 0 exactly when all members are placed. *)
Theorem validate_group_simulates (event : ptr) (w : world H) :
  (∀ r w', validate_group armpmu event w = Some (r, w') →
     w' = w ∧ (r = 0 ∨ r = - ENOSPC))
  ∧ (∀ c m mev leader,
       event_heap w !! m = Some mev →
       event_heap w !! group_leader mev = Some leader →
       pmu mev ≠ pmu leader ∨ ev_state mev <= PERF_EVENT_STATE_OFF →
       validate_event armpmu c m w = Some ((1, c), w))
  ∧ (∀ ev leader,
       event_heap w !! event = Some ev →
       event_heap w !! group_leader ev = Some leader →
       let members := group_members ev leader event in
       Forall (member_ok armpmu w) members →
       ∃ r, validate_group armpmu event w = Some (r, w)
            ∧ (r = - ENOSPC
               ↔ rejected armpmu w zeroed_cpu_hw_events members)
            ∧ (r = 0
               ↔ ∃ c', placed armpmu w zeroed_cpu_hw_events members c')).
Proof.
  split; [| split].
  - intros r w' Hrun. split.
    + symmetry. exact (validate_group_frame event _ _ _ Hrun).
    + exact (validate_group_result event _ _ _ Hrun).
  - intros c m mev leader Hm Hl Htriv.
    assert (Hc : consults_allocator mev leader = false).
    { unfold consults_allocator. destruct Htriv as [Hne | Hoff].
      - rewrite bool_decide_eq_false_2 by exact Hne. reflexivity.
      - destruct (Z.leb_spec (ev_state mev) PERF_EVENT_STATE_OFF); [| lia].
        apply andb_false_r. }
    rewrite (validate_event_run w c m mev leader Hm Hl) by congruence.
    rewrite Hc. reflexivity.
  - intros ev leader Hev Hl members Hok. subst members.
    destruct (validate_group_returns event w ev leader Hev Hl Hok)
      as (r & Hrun & [[Hr ->] | [[c' Hp] ->]]).
    + exists (- ENOSPC). split; [exact Hrun |].
      split; split; intros Hx; try reflexivity; try exact Hr.
      * discriminate Hx.
      * destruct Hx as [c' Hp].
        destruct (placed_not_rejected _ _ _ _ Hp Hr).
    + exists 0. split; [exact Hrun |].
      split; split; intros Hx; try reflexivity.
      * discriminate Hx.
      * destruct (placed_not_rejected _ _ _ _ Hp Hx).
      * exists c'. exact Hp.
Qed.

End GroupValidation.

Lemma validate_group_simulates_witness :
  validate_group (sample_pmu 2 sample_device) 3%nat
    (sample_world_with sample_group_heap [])
  = Some (- ENOSPC, sample_world_with sample_group_heap [])
  ∧ rejected (sample_pmu 2 sample_device)
      (sample_world_with sample_group_heap []) zeroed_cpu_hw_events
      [1%nat; 2%nat; 3%nat].
Proof.
  destruct (validate_group_simulates (sample_pmu 2 sample_device) 3%nat
              (sample_world_with sample_group_heap []))
    as (_ & _ & Hexact).
  destruct (Hexact (sample_event 1%nat [] 7 false)
                   (sample_event 1%nat [2%nat] 5 false))
    as (r & Hrun & Hrej & _).
  - reflexivity.
  - reflexivity.
  - repeat constructor.
    + exists (sample_event 1%nat [2%nat] 5 false),
             (sample_event 1%nat [2%nat] 5 false).
      repeat split; reflexivity.
    + exists (sample_event 1%nat [] 6 false),
             (sample_event 1%nat [2%nat] 5 false).
      repeat split; reflexivity.
    + exists (sample_event 1%nat [] 7 false),
             (sample_event 1%nat [2%nat] 5 false).
      repeat split; reflexivity.
  - assert (Hr : r = - ENOSPC).
    { assert (Hc : validate_group (sample_pmu 2 sample_device) 3%nat
                     (sample_world_with sample_group_heap [])
                   = Some (- ENOSPC, sample_world_with sample_group_heap []))
        by (vm_compute; reflexivity).
      rewrite Hc in Hrun. inversion Hrun. reflexivity. }
    subst r. split; [exact Hrun |]. apply Hrej. reflexivity.
Defined.

(** C5.  Group validation does not treat every member of another backend
    as trivially valid.  [validate_event] compares the PMU of a member
    with that of the member's own group leader, which for the leader is
    itself: an enabled leader of another PMU (a software event leading
    the group the new hardware event 3 joins) is not passed over with 1
    and an untouched scratch table; the allocator is looked up through
    [to_arm_pmu] of the foreign PMU, which is not an [arm_pmu], and the
    call is undefined.  So is [validate_group] for the new event, and
    with it [__hw_perf_event_init]. *)
Theorem validate_group_foreign_leader :
  let armpmu := sample_pmu 2 sample_device in
  let w := sample_world_with foreign_leader_heap [] in
  (∃ leader ev,
     event_heap w !! 1%nat = Some leader
     ∧ event_heap w !! 3%nat = Some ev
     ∧ group_leader ev = 1%nat
     ∧ group_leader leader = 1%nat
     ∧ pmu ev = pmu_addr armpmu
     ∧ pmu leader ≠ pmu_addr armpmu
     ∧ PERF_EVENT_STATE_OFF < ev_state leader)
  ∧ validate_event armpmu zeroed_cpu_hw_events 1%nat w
    ≠ Some ((1, zeroed_cpu_hw_events), w)
  ∧ validate_event armpmu zeroed_cpu_hw_events 1%nat w = None
  ∧ validate_group armpmu 3%nat w = None
  ∧ __hw_perf_event_init armpmu 3%nat w = None.
Proof.
  cbv zeta. split.
  - eexists _, _. split; [vm_compute; reflexivity |].
    split; [vm_compute; reflexivity |].
    repeat split; try reflexivity; vm_compute; discriminate.
  - assert (Hleader : validate_event (sample_pmu 2 sample_device)
                        zeroed_cpu_hw_events 1%nat
                        (sample_world_with foreign_leader_heap []) = None)
      by (vm_compute; reflexivity).
    split; [rewrite Hleader; discriminate |].
    split; [exact Hleader |].
    split; vm_compute; reflexivity.
Qed.

(** ** Event initialisation *)

Section Initialisation.

Context {H : Type}.
Variable armpmu : arm_pmu H.
Variable irq_env : irq_layer.
Implicit Types (w : world H).

(** [__hw_perf_event_init], path by path. *)
Lemma hw_perf_event_init_run (event : ptr) w ev :
  event_heap w !! event = Some ev →
  pmu ev = pmu_addr armpmu →
  __hw_perf_event_init armpmu event w
  = if map_event armpmu ev <? 0 then Some (map_event armpmu ev, w)
    else if mode_exclusion_refused armpmu ev then
      Some (- EPERM, event_store event (set_hw (filtered_hw armpmu ev) ev) w)
    else
      let w1 :=
        event_store event (set_hw (configured_hw armpmu ev) ev) w in
      if bool_decide (group_leader ev = event) then Some (0, w1)
      else
        match validate_group armpmu event w1 with
        | Some (rv, w2) => Some (if rv =? 0 then rv else - EINVAL, w2)
        | None => None
        end.
Proof.
  intros Hev Hpmu. unfold __hw_perf_event_init.
  rewrite (bind_some _ _ _ _ _ (event_deref_some _ _ _ Hev)).
  rewrite Hpmu, (bind_some _ _ _ _ _ (to_arm_pmu_some _ _)).
  destruct (map_event armpmu ev <? 0); [reflexivity |].
  unfold hwc_modify.
  rewrite bind_unfold, (event_modify_some _ _ _ ev) by exact Hev.
  do 3 rewrite bind_unfold, event_modify_stored.
  unfold mode_exclusion_refused, configured_hw, filtered_hw.
  destruct (set_event_filter armpmu) as [set_filter |].
  - rewrite bind_unfold, bind_unfold.
    rewrite (event_deref_some _ _ _ (event_store_lookup _ _ _)).
    cbn [hw attr set_hw].
    change (set_event_base 0 (set_config 0 (set_config_base 0
              (set_idx (-1) (hw ev))))) with (init_hw (hw ev)).
    destruct (set_filter (init_hw (hw ev)) (attr ev)) as [r hwc] eqn:Hf.
    rewrite bind_unfold, event_modify_stored, ret_unfold.
    cbn [fst snd set_hw hw attr pmu group_leader sibling_list ev_state count].
    destruct (negb (r =? 0) && event_requires_mode_exclusion (attr ev));
      [reflexivity |].
    rewrite bind_unfold, event_modify_stored.
    rewrite bind_unfold.
    rewrite (event_deref_some _ _ _ (event_store_lookup _ _ _)).
    cbn [set_hw hw attr pmu group_leader sibling_list ev_state count].
    destruct (sample_period _ =? 0).
    + rewrite bind_unfold, event_modify_stored.
      cbn [set_hw hw attr pmu group_leader sibling_list ev_state count].
      destruct (bool_decide (group_leader ev = event)); [reflexivity |].
      cbn [negb]. rewrite bind_unfold.
      destruct (validate_group armpmu event _) as [[rv w2] |];
        [| reflexivity].
      destruct (rv =? 0); reflexivity.
    + rewrite bind_unfold, ret_unfold.
      destruct (bool_decide (group_leader ev = event)); [reflexivity |].
      cbn [negb]. rewrite bind_unfold.
      destruct (validate_group armpmu event _) as [[rv w2] |];
        [| reflexivity].
      destruct (rv =? 0); reflexivity.
  - rewrite bind_unfold, ret_unfold.
    cbn [andb set_hw hw attr pmu group_leader sibling_list ev_state count].
    change (set_event_base 0 (set_config 0 (set_config_base 0
              (set_idx (-1) (hw ev))))) with (init_hw (hw ev)).
    destruct (event_requires_mode_exclusion (attr ev)); [reflexivity |].
    rewrite bind_unfold, event_modify_stored.
    rewrite bind_unfold.
    rewrite (event_deref_some _ _ _ (event_store_lookup _ _ _)).
    cbn [set_hw hw attr pmu group_leader sibling_list ev_state count].
    destruct (sample_period _ =? 0).
    + rewrite bind_unfold, event_modify_stored.
      cbn [set_hw hw attr pmu group_leader sibling_list ev_state count].
      destruct (bool_decide (group_leader ev = event)); [reflexivity |].
      cbn [negb]. rewrite bind_unfold.
      destruct (validate_group armpmu event _) as [[rv w2] |];
        [| reflexivity].
      destruct (rv =? 0); reflexivity.
    + rewrite bind_unfold, ret_unfold.
      destruct (bool_decide (group_leader ev = event)); [reflexivity |].
      cbn [negb]. rewrite bind_unfold.
      destruct (validate_group armpmu event _) as [[rv w2] |];
        [| reflexivity].
      destruct (rv =? 0); reflexivity.
Qed.

End Initialisation.

(** ** Interrupt reservation *)

Section Reservation.

Context {H : Type}.
Variable armpmu : arm_pmu H.
Variable irq_env : irq_layer.
Implicit Types (w : world H).

Local Abbreviation keeps := (@keeps_events_and_tables H).

(** The operations on the reservation state return, whatever the state,
    and write neither events nor tables. *)
Ltac returns_prim :=
  let w := fresh "w" in
  intros w; eexists _, _; split; [reflexivity | repeat split].

Lemma reserve_pmu_returns : returns keeps (@reserve_pmu H).
Proof.
  intros w. unfold reserve_pmu. destruct (pmu_reserved w);
    eexists _, _; (split; [reflexivity | repeat split]).
Qed.

Lemma release_pmu_returns : returns keeps (@release_pmu H).
Proof. returns_prim. Qed.

Lemma do_request_irq_returns irq : returns keeps (@do_request_irq H irq_env irq).
Proof.
  intros w. unfold do_request_irq. destruct (request_irq irq_env irq =? 0);
    eexists _, _; (split; [reflexivity | repeat split]).
Qed.

Lemma free_irq_returns irq : returns keeps (@free_irq H irq).
Proof. returns_prim. Qed.

Lemma cpumask_test_and_clear_cpu_returns cpu :
  returns keeps (@cpumask_test_and_clear_cpu H cpu).
Proof. returns_prim. Qed.

Lemma cpumask_set_cpu_returns cpu : returns keeps (@cpumask_set_cpu H cpu).
Proof. returns_prim. Qed.

Lemma atomic_read_returns : returns keeps (@atomic_read H).
Proof. returns_prim. Qed.

Lemma atomic_inc_returns : returns keeps (@atomic_inc H).
Proof. returns_prim. Qed.

Lemma atomic_inc_not_zero_returns : returns keeps (@atomic_inc_not_zero H).
Proof.
  intros w. unfold atomic_inc_not_zero. destruct (active_events w =? 0);
    eexists _, _; (split; [reflexivity | repeat split]).
Qed.

Lemma atomic_dec_and_mutex_lock_returns :
  returns keeps (@atomic_dec_and_mutex_lock H).
Proof. returns_prim. Qed.

Lemma armpmu_release_irqs_returns cpus :
  returns keeps (armpmu_release_irqs armpmu cpus).
Proof.
  induction cpus as [| i rest IH]; simpl.
  - apply returns_ret; typeclasses eauto.
  - apply returns_bind; [typeclasses eauto | |].
    + apply cpumask_test_and_clear_cpu_returns.
    + intros active. apply returns_bind; [typeclasses eauto | |].
      * destruct active; [| apply returns_ret; typeclasses eauto].
        destruct (0 <=? platform_get_irq (plat_device armpmu) i).
        -- apply free_irq_returns.
        -- apply returns_ret; typeclasses eauto.
      * intros _. exact IH.
Qed.

Lemma armpmu_release_hardware_returns :
  returns keeps (armpmu_release_hardware armpmu irq_env).
Proof.
  unfold armpmu_release_hardware.
  apply returns_bind; [typeclasses eauto | |].
  - apply armpmu_release_irqs_returns.
  - intros _. apply release_pmu_returns.
Qed.

Lemma armpmu_reserve_irqs_returns irqs cpus :
  returns keeps (armpmu_reserve_irqs armpmu irq_env irqs cpus).
Proof.
  induction cpus as [| i rest IH]; simpl.
  - apply returns_ret; typeclasses eauto.
  - destruct (platform_get_irq (plat_device armpmu) i <? 0); [exact IH |].
    destruct (negb _ && _); [exact IH |].
    apply returns_bind; [typeclasses eauto | |].
    + apply do_request_irq_returns.
    + intros err. destruct (negb (err =? 0)).
      * apply returns_bind; [typeclasses eauto | |].
        -- apply armpmu_release_hardware_returns.
        -- intros _. apply returns_ret; typeclasses eauto.
      * apply returns_bind; [typeclasses eauto | |].
        -- apply cpumask_set_cpu_returns.
        -- intros _. exact IH.
Qed.

Lemma armpmu_reserve_hardware_returns :
  returns keeps (armpmu_reserve_hardware armpmu irq_env).
Proof.
  unfold armpmu_reserve_hardware.
  apply returns_bind; [typeclasses eauto | |].
  - apply reserve_pmu_returns.
  - intros err. destruct (negb (err =? 0));
      [apply returns_ret; typeclasses eauto |].
    destruct (_ <? 1); [apply returns_ret; typeclasses eauto |].
    apply armpmu_reserve_irqs_returns.
Qed.

Lemma hw_perf_event_destroy_run (event : ptr) w ev :
  event_heap w !! event = Some ev →
  pmu ev = pmu_addr armpmu →
  ∃ w', hw_perf_event_destroy armpmu irq_env event w = Some (tt, w')
        ∧ keeps w w'.
Proof.
  intros Hev Hpmu. unfold hw_perf_event_destroy.
  rewrite (bind_some _ _ _ _ _ (event_deref_some _ _ _ Hev)).
  rewrite Hpmu, (bind_some _ _ _ _ _ (to_arm_pmu_some _ _)).
  assert (Hrest : returns keeps
            (last ← @atomic_dec_and_mutex_lock H;
             if last : bool then armpmu_release_hardware armpmu irq_env
             else mret tt)).
  { apply returns_bind; [typeclasses eauto | |].
    - apply atomic_dec_and_mutex_lock_returns.
    - intros [|]; [apply armpmu_release_hardware_returns |].
      apply returns_ret; typeclasses eauto. }
  destruct (Hrest w) as ([] & w' & Hrun & Hk). exists w'. split; assumption.
Qed.

Lemma hw_perf_event_destroy_frame (event : ptr) :
  frame keeps (hw_perf_event_destroy armpmu irq_env event).
Proof.
  intros w u w' Hrun.
  assert (Hrun' := Hrun). unfold hw_perf_event_destroy in Hrun'.
  mstep Hrun' as ev w1 Hev. apply event_deref_inv in Hev as [-> Hev].
  mstep Hrun' as a w2 Ha. apply to_arm_pmu_inv in Ha as (_ & -> & Hpmu).
  destruct (hw_perf_event_destroy_run event w ev Hev Hpmu) as (w0 & Hr & Hk).
  rewrite Hrun in Hr. inversion Hr. subst. exact Hk.
Qed.


(** *** What a failed reservation leaves behind *)

(** The release loop frees the line of every CPU it visits whose bit is
    set in [active_irqs]. *)
Lemma release_irqs_held cpus :
  (∀ c, c ∈ cpus → 0 <= c) →
  ∀ w u w',
    armpmu_release_irqs armpmu cpus w = Some (u, w') →
    pmu_reserved w' = pmu_reserved w
    ∧ ∀ irq, irq ∈ irqs_held w' →
        irq ∈ irqs_held w
        ∧ ∀ i, i ∈ cpus →
            ¬ (test_bit i (active_irqs w) = true
               ∧ platform_get_irq (plat_device armpmu) i = irq
               ∧ 0 <= irq).
Proof.
  induction cpus as [| c rest IH]; intros Hcpus w u w' Hrun; cbn in Hrun.
  - inversion Hrun; subst. split; [reflexivity |].
    intros irq Hin. split; [exact Hin |]. intros i Hi. inversion Hi.
  - assert (Hc : 0 <= c) by (apply Hcpus; left).
    assert (Hrest' : ∀ c', c' ∈ rest → 0 <= c')
      by (intros c' Hc'; apply Hcpus; right; exact Hc').
    mstep Hrun as active w1 Hclr. inversion Hclr; subst active w1; clear Hclr.
    mstep Hrun as u1 w2 Hfree.
    destruct (IH Hrest' _ _ _ Hrun) as [Hres Hrest]. clear IH Hrun.
    assert (Hbits : ∀ i, 0 <= i → i ≠ c →
              test_bit i (clear_bit c (active_irqs w))
              = test_bit i (active_irqs w)).
    { intros i Hi Hne. unfold test_bit. rewrite clear_bit_testbit by lia.
      rewrite (proj2 (Z.eqb_neq i c) Hne). apply andb_true_r. }
    assert (Hstep : pmu_reserved w2 = pmu_reserved w
              ∧ active_irqs w2 = clear_bit c (active_irqs w)
              ∧ ∀ irq, irq ∈ irqs_held w2 →
                  irq ∈ irqs_held w
                  ∧ (test_bit c (active_irqs w) = true →
                     0 <= platform_get_irq (plat_device armpmu) c →
                     irq ≠ platform_get_irq (plat_device armpmu) c)).
    { destruct (test_bit c (active_irqs w)) eqn:Hact.
      - destruct (Z.leb_spec 0 (platform_get_irq (plat_device armpmu) c)).
        + inversion Hfree; subst w2; clear Hfree.
          cbn [pmu_reserved active_irqs irqs_held set_irqs_held
               set_active_irqs].
          split; [reflexivity |]. split; [reflexivity |].
          intros irq Hin. apply list_elem_of_filter in Hin as [Hne Hin].
          split; [exact Hin |]. intros _ _. exact Hne.
        + inversion Hfree; subst w2; clear Hfree.
          cbn [pmu_reserved active_irqs irqs_held set_active_irqs].
          split; [reflexivity |]. split; [reflexivity |].
          intros irq Hin. split; [exact Hin |]. intros _ Hx. lia.
      - inversion Hfree; subst w2; clear Hfree.
        cbn [pmu_reserved active_irqs irqs_held set_active_irqs].
        split; [reflexivity |]. split; [reflexivity |].
        intros irq Hin. split; [exact Hin |]. intros Hx. discriminate Hx. }
    destruct Hstep as (Hres2 & Hmask2 & Hheld2).
    split; [congruence |].
    intros irq Hin. destruct (Hrest irq Hin) as [Hin2 Hnot].
    destruct (Hheld2 irq Hin2) as [Hin0 Hhead].
    split; [exact Hin0 |].
    intros i Hi (Hbit & Hirq & Hge).
    destruct (decide (i = c)) as [-> | Hne].
    + apply (Hhead Hbit); [lia | congruence].
    + apply elem_of_cons in Hi as [Hx | Hx]; [contradiction |].
      apply (Hnot i Hx). rewrite Hmask2, (Hbits i (Hrest' i Hx) Hne).
      repeat split; assumption.
Qed.

Lemma release_hardware_frees_all w u w' :
  held_lines_active armpmu
    (Z.min (num_resources (plat_device armpmu)) (num_possible_cpus irq_env))
    w →
  armpmu_release_hardware armpmu irq_env w = Some (u, w') →
  nothing_reserved w'.
Proof.
  intros Hheld Hrun. unfold armpmu_release_hardware in Hrun.
  mstep Hrun as u1 w1 Hloop. inversion Hrun; subst u w'; clear Hrun.
  apply release_irqs_held in Hloop as [_ Hleft].
  2:{ intros c Hc. apply elem_of_seqZ in Hc. lia. }
  split; [| reflexivity]. cbn [irqs_held set_pmu_reserved].
  apply elem_of_nil_inv. intros irq Hin.
  destruct (Hleft irq Hin) as [Hin0 Hnot].
  destruct (Hheld irq Hin0) as (i & Hi & Hbit & Hirq & Hge).
  apply (Hnot i); [apply elem_of_seqZ; lia | repeat split; assumption].
Qed.

(** The request loop either goes through, or gives everything back. *)
Lemma reserve_irqs_all_or_nothing cpus :
  let irqs :=
    Z.min (num_resources (plat_device armpmu)) (num_possible_cpus irq_env) in
  (∀ c, c ∈ cpus → 0 <= c < irqs) →
  ∀ w err w',
    held_lines_active armpmu irqs w →
    armpmu_reserve_irqs armpmu irq_env irqs cpus w = Some (err, w') →
    (err = 0 →
     held_lines_active armpmu irqs w' ∧ pmu_reserved w' = pmu_reserved w)
    ∧ (err ≠ 0 → nothing_reserved w').
Proof.
  intros irqs. induction cpus as [| c rest IH]; intros Hcpus w err w' Hheld Hrun;
    cbn [armpmu_reserve_irqs] in Hrun.
  - inversion Hrun; subst. split; [intros _; split; [exact Hheld | reflexivity] |].
    intros Hne. contradiction.
  - assert (Hc : 0 <= c < irqs) by (apply Hcpus; left).
    assert (Hrest : ∀ c', c' ∈ rest → 0 <= c' < irqs)
      by (intros c' Hc'; apply Hcpus; right; exact Hc').
    destruct (Z.ltb_spec (platform_get_irq (plat_device armpmu) c) 0)
      as [Hneg | Hirq]; [exact (IH Hrest _ _ _ Hheld Hrun) |].
    destruct (negb _ && _); [exact (IH Hrest _ _ _ Hheld Hrun) |].
    mstep Hrun as err0 w1 Hreq. unfold do_request_irq in Hreq.
    destruct (Z.eqb_spec
                (request_irq irq_env (platform_get_irq (plat_device armpmu) c))
                0) as [Hgrant | Hrefuse].
    + inversion Hreq; subst err0 w1; clear Hreq. cbn [negb Z.eqb] in Hrun.
      mstep Hrun as u2 w2 Hset. inversion Hset; subst u2 w2; clear Hset.
      assert (Hheld2 : held_lines_active armpmu irqs
                (set_active_irqs (set_bit c (active_irqs w))
                   (set_irqs_held
                      (platform_get_irq (plat_device armpmu) c :: irqs_held w)
                      w))).
      { intros irq Hin.
        cbn [irqs_held active_irqs set_active_irqs set_irqs_held] in *.
        apply elem_of_cons in Hin as [-> | Hin].
        -- exists c. split; [exact Hc |]. split; [| split; [reflexivity | lia]].
           unfold test_bit. rewrite set_bit_testbit by lia.
           rewrite Z.eqb_refl. apply orb_true_r.
        -- destruct (Hheld irq Hin) as (i & Hi & Hbit & Hget & Hge).
           exists i. split; [exact Hi |]. split; [| split; assumption].
           unfold test_bit in *. rewrite set_bit_testbit by lia.
           rewrite Hbit. reflexivity. }
      destruct (IH Hrest _ _ _ Hheld2 Hrun) as [Hok Hfail].
      split; [| exact Hfail].
      intros Herr. destruct (Hok Herr) as [Hheld' Hres].
      split; [exact Hheld' | exact Hres].
    + inversion Hreq; subst err0 w1; clear Hreq.
      rewrite (proj2 (Z.eqb_neq _ _) Hrefuse) in Hrun. cbn [negb] in Hrun.
      mstep Hrun as u2 w2 Hrel. inversion Hrun; subst err w'; clear Hrun.
      split; [intros Hx; contradiction |]. intros _.
      exact (release_hardware_frees_all w u2 w2 Hheld Hrel).
Qed.

(** When an interrupt request fails after the platform reservation
    succeeded and interrupts are there, nothing stays reserved. *)
Lemma armpmu_reserve_hardware_rolls_back w err w' :
  irqs_held w = [] →
  pmu_reserved w = false →
  1 <= Z.min (num_resources (plat_device armpmu))
             (num_possible_cpus irq_env) →
  armpmu_reserve_hardware armpmu irq_env w = Some (err, w') →
  err ≠ 0 →
  nothing_reserved w'.
Proof.
  intros Hnone Hfree Hirqs Hrun Herr. unfold armpmu_reserve_hardware in Hrun.
  mstep Hrun as err0 w1 Hres. unfold reserve_pmu in Hres. rewrite Hfree in Hres.
  inversion Hres; subst err0 w1; clear Hres. cbn [negb Z.eqb] in Hrun.
  destruct (Z.ltb_spec
              (Z.min (num_resources (plat_device armpmu))
                     (num_possible_cpus irq_env)) 1) as [Hlt | _]; [lia |].
  apply reserve_irqs_all_or_nothing in Hrun as [_ Hfail].
  - exact (Hfail Herr).
  - intros c Hc. apply elem_of_seqZ in Hc. lia.
  - intros irq Hin. cbn [irqs_held set_pmu_reserved] in Hin.
    rewrite Hnone in Hin. inversion Hin.
Qed.

(** Without an interrupt the function returns early, the platform
    reservation in hand. *)
Lemma armpmu_reserve_hardware_no_irq w :
  pmu_reserved w = false →
  Z.min (num_resources (plat_device armpmu)) (num_possible_cpus irq_env) < 1 →
  armpmu_reserve_hardware armpmu irq_env w
  = Some (- ENODEV, set_pmu_reserved true w).
Proof.
  intros Hfree Hirqs. unfold armpmu_reserve_hardware.
  rewrite bind_unfold. unfold reserve_pmu. rewrite Hfree. cbn [negb Z.eqb].
  destruct (Z.ltb_spec
              (Z.min (num_resources (plat_device armpmu))
                     (num_possible_cpus irq_env)) 1) as [_ | Hge]; [| lia].
  reflexivity.
Qed.

End Reservation.

(** ** Event creation *)

Section Creation.

Context {H : Type}.
Variable armpmu : arm_pmu H.
Variable irq_env : irq_layer.
Implicit Types (w : world H).

Lemma member_ok_store (event : ptr) w ev hwc m :
  event_heap w !! event = Some ev →
  member_ok armpmu w m →
  member_ok armpmu (event_store event (set_hw hwc ev) w) m.
Proof.
  intros Hev (mev & l & Hm & Hl & Hpmu).
  assert (Hlook : ∀ p pev, event_heap w !! p = Some pev →
            ∃ pev', event_heap (event_store event (set_hw hwc ev) w) !! p
                    = Some pev'
                    ∧ pmu pev' = pmu pev ∧ ev_state pev' = ev_state pev
                    ∧ group_leader pev' = group_leader pev).
  { intros p pev Hp. destruct (decide (event = p)) as [<- | Hne].
    - rewrite event_store_lookup. eexists. split; [reflexivity |].
      replace pev with ev by congruence. repeat split.
    - rewrite event_store_lookup_ne by exact Hne. exists pev.
      repeat split. exact Hp. }
  destruct (Hlook m mev Hm) as (mev' & Hm' & Hp1 & Hs1 & Hg1).
  destruct (Hlook (group_leader mev) l Hl) as (l' & Hl' & Hp2 & _ & _).
  exists mev', l'. rewrite Hg1. split; [exact Hm' |]. split; [exact Hl' |].
  unfold consults_allocator in *. rewrite Hp1, Hp2, Hs1. exact Hpmu.
Qed.

(** C6, as the code has it.  For an event in a group (its group leader
    is another event) whose mapping and mode-exclusion checks pass,
    [__hw_perf_event_init] runs [validate_group] on the event as
    initialised so far; when the validation fails with -ENOSPC the
    initialisation fails with -EINVAL, never with -ENOSPC, and when it
    succeeds the initialisation returns 0. *)
Theorem hw_perf_event_init_group_invalid (event : ptr) w ev leader :
  event_heap w !! event = Some ev →
  pmu ev = pmu_addr armpmu →
  group_leader ev ≠ event →
  0 <= map_event armpmu ev →
  mode_exclusion_refused armpmu ev = false →
  event_heap w !! group_leader ev = Some leader →
  Forall (member_ok armpmu w) (group_members ev leader event) →
  ∃ r rv w',
    __hw_perf_event_init armpmu event w = Some (r, w')
    ∧ validate_group armpmu event w' = Some (rv, w')
    ∧ (rv = 0 ∨ rv = - ENOSPC)
    ∧ (rv = 0 → r = 0)
    ∧ (rv = - ENOSPC → r = - EINVAL)
    ∧ r ≠ - ENOSPC.
Proof.
  intros Hev Hpmu Hgrp Hmap Hexcl Hl Hok.
  rewrite (hw_perf_event_init_run armpmu event w ev Hev Hpmu).
  destruct (Z.ltb_spec (map_event armpmu ev) 0) as [Hneg | _]; [lia |].
  rewrite Hexcl. cbv zeta.
  rewrite bool_decide_eq_false_2 by exact Hgrp.
  set (w1 := event_store event (set_hw (configured_hw armpmu ev) ev) w).
  destruct (validate_group_returns armpmu event w1
              (set_hw (configured_hw armpmu ev) ev) leader)
    as (rv & Hrun & _).
  { apply event_store_lookup. }
  { cbn [group_leader set_hw]. subst w1.
    rewrite event_store_lookup_ne by congruence. exact Hl. }
  { unfold group_members in *. cbn [group_leader set_hw].
    eapply Forall_impl; [exact Hok |].
    intros m. apply member_ok_store. exact Hev. }
  rewrite Hrun. pose proof (validate_group_result armpmu event _ _ _ Hrun) as Hrv.
  exists (if rv =? 0 then rv else - EINVAL), rv, w1.
  split; [reflexivity |]. split; [exact Hrun |]. split; [exact Hrv |].
  destruct Hrv as [-> | ->]; simpl; repeat split; intros; try lia;
    try reflexivity; discriminate.
Qed.

(** C7, as the code has it.  For an event descriptor that asks for mode
    exclusion on a backend without a mode filter, or whose filter call
    fails, and whose mapping succeeds, [__hw_perf_event_init] fails with
    -EPERM and leaves the reservation state as it was.  Event creation
    ([armpmu_event_init]) makes the interrupt reservation of a first
    event before this check: it returns -EPERM when events are already
    active or when that reservation succeeds, and the error of the
    reservation, in the world the reservation left, when it fails. *)
Theorem mode_exclusion_checked_after_reservation (event : ptr) w ev :
  event_heap w !! event = Some ev →
  pmu ev = pmu_addr armpmu →
  0 <= map_event armpmu ev →
  mode_exclusion_refused armpmu ev = true →
  (∃ w', __hw_perf_event_init armpmu event w = Some (- EPERM, w')
         ∧ irqs_held w' = irqs_held w
         ∧ pmu_reserved w' = pmu_reserved w
         ∧ active_irqs w' = active_irqs w
         ∧ active_events w' = active_events w)
  ∧ (active_events w ≠ 0 →
     ∃ w', armpmu_event_init armpmu irq_env event w = Some (- EPERM, w'))
  ∧ (active_events w = 0 →
     ∃ err w1,
       armpmu_reserve_hardware armpmu irq_env w = Some (err, w1)
       ∧ (err ≠ 0 →
          armpmu_event_init armpmu irq_env event w = Some (err, w1))
       ∧ (err = 0 →
          ∃ w', armpmu_event_init armpmu irq_env event w
                = Some (- EPERM, w'))).
Proof.
  intros Hev Hpmu Hmap Hexcl.
  assert (Hinit : ∀ w0, event_heap w0 = event_heap w →
            __hw_perf_event_init armpmu event w0
            = Some (- EPERM,
                    event_store event (set_hw (filtered_hw armpmu ev) ev) w0)).
  { intros w0 Hheap.
    rewrite (hw_perf_event_init_run armpmu event w0 ev)
      by (rewrite ?Hheap; assumption).
    destruct (Z.ltb_spec (map_event armpmu ev) 0) as [Hneg | _]; [lia |].
    rewrite Hexcl. reflexivity. }
  assert (Hfinish : ∀ w0, event_heap w0 = event_heap w →
            ∃ w',
              (err ← __hw_perf_event_init armpmu event;
               (if negb (err =? 0)
                then hw_perf_event_destroy armpmu irq_env event
                else mret tt);;
               mret err) w0 = Some (- EPERM, w')).
  { intros w0 Hheap. rewrite (bind_some _ _ _ _ _ (Hinit w0 Hheap)).
    change (negb (- EPERM =? 0)) with true. cbv iota.
    destruct (hw_perf_event_destroy_run armpmu irq_env event
                (event_store event (set_hw (filtered_hw armpmu ev) ev) w0)
                (set_hw (filtered_hw armpmu ev) ev))
      as (w' & Hd & _).
    { apply event_store_lookup. }
    { exact Hpmu. }
    rewrite (bind_some _ _ _ _ _ Hd). exists w'. reflexivity. }
  assert (Hnoent : (map_event armpmu ev =? - ENOENT) = false).
  { apply Z.eqb_neq. unfold ENOENT. lia. }
  split; [| split].
  - exists (event_store event (set_hw (filtered_hw armpmu ev) ev) w).
    split; [apply Hinit; reflexivity | repeat split].
  - intros Hactive. unfold armpmu_event_init.
    rewrite (bind_some _ _ _ _ _ (event_deref_some _ _ _ Hev)).
    rewrite Hpmu, (bind_some _ _ _ _ _ (to_arm_pmu_some _ _)).
    rewrite Hnoent, bind_unfold. unfold atomic_inc_not_zero.
    rewrite (proj2 (Z.eqb_neq _ _) Hactive).
    rewrite bind_unfold, ret_unfold. change (negb (0 =? 0)) with false.
    cbv iota. apply Hfinish. reflexivity.
  - intros Hidle.
    destruct (armpmu_reserve_hardware_returns armpmu irq_env w)
      as (err & w1 & Hres & Hk).
    exists err, w1. split; [exact Hres |].
    assert (Hhead :
              armpmu_event_init armpmu irq_env event w
              = (if negb (err =? 0) then Some (err, w1)
                 else (atomic_inc;;
                       err ← __hw_perf_event_init armpmu event;
                       (if negb (err =? 0)
                        then hw_perf_event_destroy armpmu irq_env event
                        else mret tt);;
                       mret err) w1)).
    { unfold armpmu_event_init.
      rewrite (bind_some _ _ _ _ _ (event_deref_some _ _ _ Hev)).
      rewrite Hpmu, (bind_some _ _ _ _ _ (to_arm_pmu_some _ _)).
      rewrite Hnoent, bind_unfold. unfold atomic_inc_not_zero.
      rewrite Hidle. change (0 =? 0) with true. cbv iota.
      rewrite bind_unfold, bind_unfold. unfold atomic_read.
      rewrite Hidle. change (0 =? 0) with true. cbv iota.
      rewrite bind_unfold, Hres.
      destruct (Z.eqb_spec err 0) as [-> | Hne]; [reflexivity |].
      rewrite bind_unfold, ret_unfold, ret_unfold.
      rewrite (proj2 (Z.eqb_neq _ _) Hne). reflexivity. }
    rewrite Hhead. split.
    + intros Hne. rewrite (proj2 (Z.eqb_neq _ _) Hne). reflexivity.
    + intros ->. simpl. apply Hfinish. destruct Hk as (_ & _ & Hh).
      exact Hh.
Qed.

End Creation.

(** ** Scheduling onto and off the hardware *)

Section Scheduling.

Context {H : Type}.
Variable armpmu : arm_pmu H.
Implicit Types (w : world H) (event : ptr).

(** *** What the building blocks write *)

Lemma event_deref_frame (R : world H → world H → Prop) `{!Reflexive R} p :
  frame R (event_deref p).
Proof. intros w a w' Hrun. apply event_deref_inv in Hrun as [-> _]. reflexivity. Qed.

Lemma to_arm_pmu_frame (R : world H → world H → Prop) `{!Reflexive R} p :
  frame R (to_arm_pmu armpmu p).
Proof.
  intros w a w' Hrun. apply to_arm_pmu_inv in Hrun as (_ & -> & _).
  reflexivity.
Qed.

Lemma get_hw_events_frame (R : world H → world H → Prop) `{!Reflexive R} :
  frame R get_hw_events.
Proof.
  intros w a w' Hrun. apply get_hw_events_inv in Hrun as [-> _]. reflexivity.
Qed.

Lemma reg_write_frame (f : H → H) :
  frame keeps_events_and_tables (reg_write f).
Proof. intros w a w' [= _ <-]. repeat split. Qed.

Lemma reg_read_frame {A : Type} (f : H → A * H) :
  frame keeps_events_and_tables (reg_read f).
Proof.
  intros w a w' Hrun. unfold reg_read in Hrun.
  destruct (f (regs w)) as [a0 h]. inversion Hrun. repeat split.
Qed.

Lemma frame_weaken {A : Type} (R R' : world H → world H → Prop) (m : M H A) :
  (∀ w w', R w w' → R' w w') → frame R m → frame R' m.
Proof. intros HR Hm w a w' Hrun. apply HR. exact (Hm _ _ _ Hrun). Qed.

Lemma writes_event_store event ev ev' w :
  event_heap w !! event = Some ev →
  idx (hw ev') = idx (hw ev) → pmu ev' = pmu ev →
  writes_event event w (event_store event ev' w).
Proof.
  intros Hev Hidx Hpmu. repeat split.
  - intros p Hp. apply event_store_lookup_ne. congruence.
  - intros ev0 Hev0. exists ev'. rewrite event_store_lookup.
    replace ev0 with ev by congruence. repeat split; assumption.
Qed.

Lemma event_modify_writes event (f : perf_event → perf_event) w u w' :
  event_modify event f w = Some (u, w') →
  (∀ ev, event_heap w !! event = Some ev →
     idx (hw (f ev)) = idx (hw ev) ∧ pmu (f ev) = pmu ev) →
  writes_event event w w'.
Proof.
  intros Hrun Hf. apply event_modify_inv in Hrun as (ev & Hev & ->).
  destruct (Hf ev Hev) as [Hi Hp].
  exact (writes_event_store event ev (f ev) w Hev Hi Hp).
Qed.

Lemma hwc_modify_frame event (g : hw_perf_event → hw_perf_event) :
  (∀ h, idx (g h) = idx h) →
  frame (@writes_event H event) (hwc_modify event g).
Proof.
  intros Hg w u w' Hrun. unfold hwc_modify in Hrun.
  apply (event_modify_writes _ _ _ _ _ Hrun).
  intros ev _. split; [apply Hg | reflexivity].
Qed.

Lemma event_modify_count_frame event (g : perf_event → Z) :
  frame (@writes_event H event)
        (event_modify event (fun e => set_count (g e) e)).
Proof.
  intros w u w' Hrun. apply (event_modify_writes _ _ _ _ _ Hrun).
  intros ev _. split; reflexivity.
Qed.

Lemma reg_write_writes event (f : H → H) :
  frame (@writes_event H event) (reg_write f).
Proof.
  eapply frame_weaken; [apply keeps_writes_event | apply reg_write_frame].
Qed.

Lemma reg_read_writes {A : Type} event (f : H → A * H) :
  frame (@writes_event H event) (reg_read f).
Proof.
  eapply frame_weaken; [apply keeps_writes_event | apply reg_read_frame].
Qed.

(** One step of a frame proof for straight-line driver code. *)
Ltac frame_step :=
  lazymatch goal with
  | |- frame _ (_ ≫= _) => apply frame_bind; [typeclasses eauto | | intros ?]
  | |- frame _ (mret _) => apply frame_ret; typeclasses eauto
  | |- frame _ undefined => apply frame_undefined
  | |- frame _ (event_deref _) => apply event_deref_frame; typeclasses eauto
  | |- frame _ (to_arm_pmu _ _) => apply to_arm_pmu_frame; typeclasses eauto
  | |- frame _ get_hw_events => apply get_hw_events_frame; typeclasses eauto
  | |- frame (writes_event _) (reg_write _) => apply reg_write_writes
  | |- frame (writes_event _) (reg_read _) => apply reg_read_writes
  | |- frame keeps_events_and_tables (reg_write _) => apply reg_write_frame
  | |- frame (writes_event _) (hwc_modify _ _) =>
      apply hwc_modify_frame; intros ?; reflexivity
  | |- frame (writes_event _) (event_modify _ (fun e => set_count _ e)) =>
      apply event_modify_count_frame
  | |- frame _ (if ?b then _ else _) => destruct b
  end.

Lemma armpmu_event_update_frame event i overflow :
  frame (writes_event event) (armpmu_event_update armpmu event i overflow).
Proof. unfold armpmu_event_update. repeat frame_step. Qed.

Lemma armpmu_event_set_period_frame event i :
  frame (writes_event event) (armpmu_event_set_period armpmu event i).
Proof.
  intros w r w' Hrun. unfold armpmu_event_set_period in Hrun.
  mstep Hrun as ev w1 Hev. apply event_deref_inv in Hev as [-> Hev].
  mstep Hrun as a w2 Ha. apply to_arm_pmu_inv in Ha as (-> & -> & _).
  destruct (period_left (hw ev) <=? _);
    match type of Hrun with
    | context [if ?b then _ else _] => destruct b
    end;
    mstep Hrun as u w3 Hst;
    (apply event_modify_writes in Hst;
     [| intros ev0 Hev0; replace ev0 with ev by congruence;
        split; reflexivity]);
    mstep Hrun as u' w4 Hwr; apply (reg_write_writes event) in Hwr;
    inversion Hrun; subst; (etransitivity; [exact Hst | exact Hwr]).
Qed.

Lemma armpmu_stop_frame event flags :
  frame (writes_event event) (armpmu_stop armpmu event flags).
Proof.
  unfold armpmu_stop. repeat frame_step.
  apply armpmu_event_update_frame.
Qed.

Lemma armpmu_start_frame event flags :
  frame (writes_event event) (armpmu_start armpmu event flags).
Proof.
  unfold armpmu_start. repeat frame_step.
  apply armpmu_event_set_period_frame.
Qed.

Lemma armpmu_enable_loop_frame cpuc indices :
  ∀ enabled,
    frame keeps_events_and_tables
          (armpmu_enable_loop armpmu cpuc indices enabled).
Proof.
  induction indices as [| i rest IH]; intros enabled; simpl.
  - frame_step.
  - destruct (events cpuc !! Z.to_nat i) as [[event |] |].
    + repeat frame_step. apply IH.
    + apply IH.
    + frame_step.
Qed.

Lemma perf_pmu_enable_frame p :
  frame keeps_events_and_tables (perf_pmu_enable armpmu p).
Proof.
  unfold perf_pmu_enable, armpmu_enable. repeat frame_step.
  apply armpmu_enable_loop_frame.
Qed.

Lemma perf_pmu_disable_frame p :
  frame keeps_events_and_tables (perf_pmu_disable armpmu p).
Proof. unfold perf_pmu_disable, armpmu_disable. repeat frame_step. Qed.


(** *** The effect of add and del *)

Lemma rescheduled_start event w ev table :
  event_heap w !! event = Some ev →
  percpu_hw_events w !! this_cpu w = Some table →
  rescheduled w event w table (idx (hw ev)).
Proof.
  intros Hev Ht. repeat split; try assumption. exists ev. split; auto.
Qed.

Lemma rescheduled_writes event w x y table i :
  rescheduled w event x table i → writes_event event x y →
  rescheduled w event y table i.
Proof.
  intros (Hc & Ho & Ht & Hp & ev' & Hev' & Hi) (Ha & Hb & Hd & He).
  split; [congruence |]. split.
  { intros p Hp'. rewrite (Hd p Hp'). exact (Ho p Hp'). }
  split; [intros cpu Hcpu; rewrite Ha; exact (Ht cpu Hcpu) |].
  split; [rewrite Ha; exact Hp |].
  destruct (He ev' Hev') as (ev2 & Hev2 & Hi2 & _).
  exists ev2. split; [exact Hev2 | congruence].
Qed.

Lemma rescheduled_keeps event w x y table i :
  rescheduled w event x table i → keeps_events_and_tables x y →
  rescheduled w event y table i.
Proof.
  intros Hr Hk. apply (rescheduled_writes event w x y table i Hr).
  apply keeps_writes_event. exact Hk.
Qed.

Lemma rescheduled_put event w x y table table' i u :
  rescheduled w event x table i →
  put_hw_events table' x = Some (u, y) →
  rescheduled w event y table' i.
Proof.
  intros (Hc & Ho & Ht & Hp & Hev) Hrun.
  apply put_hw_events_inv in Hrun as [_ ->]. unfold rescheduled.
  cbn [this_cpu event_heap percpu_hw_events set_percpu_hw_events].
  rewrite Hc.
  split; [reflexivity |]. split; [exact Ho |]. split.
  { intros cpu Hcpu. rewrite lookup_insert_ne by congruence.
    exact (Ht cpu Hcpu). }
  split; [apply lookup_insert_eq | exact Hev].
Qed.

Lemma rescheduled_modify event w x y table i i'
    (g : hw_perf_event → hw_perf_event) u :
  rescheduled w event x table i →
  hwc_modify event g x = Some (u, y) →
  (∀ h, idx h = i → idx (g h) = i') →
  rescheduled w event y table i'.
Proof.
  intros (Hc & Ho & Ht & Hp & ev' & Hev' & Hi) Hrun Hg.
  unfold hwc_modify in Hrun.
  apply event_modify_inv in Hrun as (ev0 & Hev0 & ->).
  replace ev0 with ev' in * by congruence.
  split; [exact Hc |]. split.
  { intros p Hp'. rewrite event_store_lookup_ne by congruence.
    exact (Ho p Hp'). }
  split; [exact Ht |]. split; [exact Hp |].
  eexists. split; [apply event_store_lookup |]. simpl. apply Hg. exact Hi.
Qed.

(** [armpmu_add]: when the allocator gives no counter the error is
    returned and the table is as the allocator left it; otherwise the
    event gets the counter as its index and its address goes into the
    slot. *)
Lemma armpmu_add_effect event flags w err w' :
  armpmu_add armpmu event flags w = Some (err, w') →
  ∃ ev cpuc,
    event_heap w !! event = Some ev
    ∧ percpu_hw_events w !! this_cpu w = Some cpuc
    ∧ let i := (get_event_idx armpmu cpuc (hw ev)).1.1 in
      let cpuc1 := (get_event_idx armpmu cpuc (hw ev)).1.2 in
      let hwc1 := (get_event_idx armpmu cpuc (hw ev)).2 in
      if i <? 0 then
        err = i ∧ rescheduled w event w' cpuc1 (idx hwc1)
      else
        err = 0 ∧ i < ARMPMU_MAX_HWEVENTS
        ∧ rescheduled w event w'
            {| events := <[Z.to_nat i := Some event]> (events cpuc1);
               used_mask := used_mask cpuc1 |} i.
Proof.
  intros Hrun. unfold armpmu_add in Hrun.
  mstep Hrun as ev w0 Hev. apply event_deref_inv in Hev as [-> Hev].
  mstep Hrun as a w1 Ha. apply to_arm_pmu_inv in Ha as (-> & -> & _).
  mstep Hrun as u1 w1 Hdis. apply perf_pmu_disable_frame in Hdis.
  mstep Hrun as cpuc w2 Hget. apply get_hw_events_inv in Hget as [-> Hget].
  assert (Hcpuc : percpu_hw_events w !! this_cpu w = Some cpuc).
  { destruct Hdis as (Hp & Hc & _). rewrite <- Hp, <- Hc. exact Hget. }
  exists ev, cpuc. split; [exact Hev |]. split; [exact Hcpuc |].
  pose proof (rescheduled_keeps event w w w1 cpuc _
                (rescheduled_start event w ev cpuc Hev Hcpuc) Hdis) as Hr.
  destruct (get_event_idx armpmu cpuc (hw ev)) as [[i cpuc1] hwc1].
  cbn [fst snd].
  mstep Hrun as u2 w3 Hput.
  apply (rescheduled_put _ _ _ _ _ _ _ _ Hr) in Hput. clear Hr.
  mstep Hrun as u3 w4 Hst.
  apply (rescheduled_modify _ _ _ _ _ _ (idx hwc1) _ _ Hput) in Hst;
    [| intros; reflexivity].
  clear Hput.
  mstep Hrun as err0 w5 Hbody.
  mstep Hrun as u4 w6 Hen. apply perf_pmu_enable_frame in Hen.
  inversion Hrun; subst err0 w6; clear Hrun.
  destruct (Z.ltb_spec i 0) as [Hneg | Hpos].
  - inversion Hbody; subst. split; [reflexivity |].
    exact (rescheduled_keeps _ _ _ _ _ _ Hst Hen).
  - mstep Hbody as u5 w7 Hidx.
    apply (rescheduled_modify _ _ _ _ _ _ i _ _ Hst) in Hidx;
      [| intros; reflexivity].
    mstep Hbody as ev1 w8 Hev1. apply event_deref_inv in Hev1 as [-> _].
    mstep Hbody as u6 w8 Hwr. apply reg_write_frame in Hwr.
    pose proof (rescheduled_keeps _ _ _ _ _ _ Hidx Hwr) as Hr.
    mstep Hbody as u7 w9 Hslot.
    destruct (Z.ltb_spec i ARMPMU_MAX_HWEVENTS) as [Hlt | Hge];
      [| discriminate Hslot].
    apply (rescheduled_put _ _ _ _ _ _ _ _ Hr) in Hslot.
    mstep Hbody as u8 w10 Hstate.
    apply (rescheduled_modify _ _ _ _ _ _ i _ _ Hslot) in Hstate;
      [| intros h Hh; exact Hh].
    mstep Hbody as u9 w11 Hstart.
    assert (Hfin : rescheduled w event w11
              {| events := <[Z.to_nat i := Some event]> (events cpuc1);
                 used_mask := used_mask cpuc1 |} i).
    { destruct (Z.land flags PERF_EF_START =? 0).
      - inversion Hstart; subst. exact Hstate.
      - apply armpmu_start_frame in Hstart.
        exact (rescheduled_writes _ _ _ _ _ _ Hstate Hstart). }
    inversion Hbody; subst. split; [reflexivity |]. split; [exact Hlt |].
    exact (rescheduled_keeps _ _ _ _ _ _ Hfin Hen).
Qed.

(** [armpmu_del] empties the slot at the index of the event and clears
    its bit; the index of the event stays. *)
Lemma armpmu_del_effect event flags w u w' :
  armpmu_del armpmu event flags w = Some (u, w') →
  ∃ ev cpuc,
    event_heap w !! event = Some ev
    ∧ percpu_hw_events w !! this_cpu w = Some cpuc
    ∧ 0 <= idx (hw ev) < ARMPMU_MAX_HWEVENTS
    ∧ rescheduled w event w'
        {| events := <[Z.to_nat (idx (hw ev)) := None]> (events cpuc);
           used_mask := clear_bit (idx (hw ev)) (used_mask cpuc) |}
        (idx (hw ev)).
Proof.
  intros Hrun. unfold armpmu_del in Hrun.
  mstep Hrun as ev w0 Hev. apply event_deref_inv in Hev as [-> Hev].
  mstep Hrun as a w1 Ha. apply to_arm_pmu_inv in Ha as (-> & -> & _).
  mstep Hrun as u1 w1 Hstop. apply armpmu_stop_frame in Hstop.
  mstep Hrun as cpuc w2 Hget. apply get_hw_events_inv in Hget as [-> Hget].
  assert (Hcpuc : percpu_hw_events w !! this_cpu w = Some cpuc).
  { destruct Hstop as (Hp & Hc & _). rewrite <- Hp, <- Hc. exact Hget. }
  exists ev, cpuc. split; [exact Hev |]. split; [exact Hcpuc |].
  pose proof (rescheduled_writes event w w w1 cpuc _
                (rescheduled_start event w ev cpuc Hev Hcpuc) Hstop) as Hr.
  destruct (Z.leb_spec 0 (idx (hw ev))) as [Hlo | Hlo];
    [| discriminate Hrun].
  destruct (Z.ltb_spec (idx (hw ev)) ARMPMU_MAX_HWEVENTS) as [Hhi | Hhi];
    [| discriminate Hrun].
  split; [lia |].
  exact (rescheduled_put _ _ _ _ _ _ _ _ Hr Hrun).
Qed.

End Scheduling.

(** ** Bitmaps and tables *)

Lemma bitmap_weight_mirror (l : list (option ptr)) (mask : Z) :
  ∀ k : nat,
    (∀ i : nat, (i < length l)%nat →
       Z.testbit mask (Z.of_nat (k + i)) = true ↔ l !! i ≠ Some None) →
    length (filter (fun i : nat => Z.testbit mask (Z.of_nat i) = true)
                   (seq k (length l)))
    = length (filter (fun o : option ptr => o ≠ None) l).
Proof.
  induction l as [| o l IH]; intros k Hbits; [reflexivity |].
  cbn [length seq]. rewrite !filter_cons.
  assert (Htail : ∀ i : nat, (i < length l)%nat →
            Z.testbit mask (Z.of_nat (S k + i)) = true ↔ l !! i ≠ Some None).
  { intros i Hi. specialize (Hbits (S i) ltac:(simpl; lia)).
    replace (S k + i)%nat with (k + S i)%nat by lia. exact Hbits. }
  specialize (Hbits 0%nat ltac:(simpl; lia)).
  rewrite Nat.add_0_r in Hbits. cbn [lookup list_lookup] in Hbits.
  destruct (decide (Z.testbit mask (Z.of_nat k) = true)) as [Hb | Hb];
    destruct (decide (o ≠ None)) as [Ho | Ho]; cbn [length];
    rewrite ?(IH (S k) Htail); try reflexivity.
  - exfalso. apply Hbits in Hb. apply Ho. congruence.
  - exfalso. apply Hb, Hbits. congruence.
Qed.

Lemma bitmap_weight_bound (mask : Z) (bound : Z) (nbits : nat) :
  0 <= bound →
  (∀ n : Z, Z.testbit mask n = true → 0 <= n < bound) →
  Z.of_nat (bitmap_weight mask nbits) <= Z.min (Z.of_nat nbits) bound.
Proof.
  intros Hbound Hbits. unfold bitmap_weight.
  induction nbits as [| m IH]; [simpl; lia |].
  rewrite seq_S, filter_app, length_app. cbn [Nat.add].
  rewrite filter_cons, filter_nil.
  destruct (decide (Z.testbit mask (Z.of_nat m) = true)) as [Hb | Hb];
    cbn [length].
  - apply Hbits in Hb. lia.
  - lia.
Qed.

Section Tables.

Context {H : Type}.
Variable armpmu : arm_pmu H.
Implicit Types (w : world H) (cpuc : cpu_hw_events).

Lemma table_ok_zeroed : table_ok armpmu zeroed_cpu_hw_events.
Proof.
  split; [apply length_replicate |]. split.
  - intros i Hi. cbn [used_mask events zeroed_cpu_hw_events].
    rewrite Z.bits_0, lookup_replicate_2 by exact Hi.
    split; [discriminate | intros Hne; contradiction].
  - intros n Hn. cbn [used_mask zeroed_cpu_hw_events] in Hn.
    rewrite Z.bits_0 in Hn. discriminate.
Qed.

Lemma table_ok_set cpuc (i : Z) (event : ptr) :
  table_ok armpmu cpuc →
  0 <= i < num_events armpmu →
  num_events armpmu <= ARMPMU_MAX_HWEVENTS →
  table_ok armpmu
    {| events := <[Z.to_nat i := Some event]> (events cpuc);
       used_mask := set_bit i (used_mask cpuc) |}.
Proof.
  intros (Hlen & Hmirror & Hbits) Hi Hnum.
  split; [cbn [events]; rewrite length_insert; exact Hlen |]. split.
  - intros j Hj. cbn [events used_mask].
    rewrite set_bit_testbit by lia.
    destruct (Z.eqb_spec (Z.of_nat j) i) as [Heq | Hne].
    + rewrite orb_true_r. replace (Z.to_nat i) with j by lia.
      rewrite list_lookup_insert_eq by lia.
      split; [discriminate | reflexivity].
    + rewrite orb_false_r, list_lookup_insert_ne by lia.
      apply Hmirror. exact Hj.
  - intros n Hn. cbn [used_mask] in Hn.
    destruct (Z.lt_ge_cases n 0) as [Hneg | Hpos].
    { rewrite Z.testbit_neg_r in Hn by exact Hneg. discriminate. }
    rewrite set_bit_testbit in Hn by lia.
    apply orb_true_iff in Hn as [Hold | Hnew].
    + apply Hbits. exact Hold.
    + apply Z.eqb_eq in Hnew. lia.
Qed.

Lemma table_ok_clear cpuc (i : Z) :
  table_ok armpmu cpuc →
  0 <= i < ARMPMU_MAX_HWEVENTS →
  table_ok armpmu
    {| events := <[Z.to_nat i := None]> (events cpuc);
       used_mask := clear_bit i (used_mask cpuc) |}.
Proof.
  intros (Hlen & Hmirror & Hbits) Hi.
  split; [cbn [events]; rewrite length_insert; exact Hlen |]. split.
  - intros j Hj. cbn [events used_mask].
    rewrite clear_bit_testbit by lia.
    destruct (Z.eqb_spec (Z.of_nat j) i) as [Heq | Hne].
    + rewrite andb_false_r. replace (Z.to_nat i) with j by lia.
      rewrite list_lookup_insert_eq by lia.
      split; [discriminate | intros Hx; contradiction].
    + rewrite andb_true_r, list_lookup_insert_ne by lia.
      apply Hmirror. exact Hj.
  - intros n Hn. cbn [used_mask] in Hn.
    destruct (Z.lt_ge_cases n 0) as [Hneg | Hpos].
    { rewrite Z.testbit_neg_r in Hn by exact Hneg. discriminate. }
    rewrite clear_bit_testbit in Hn by lia.
    apply andb_true_iff in Hn as [Hold _]. apply Hbits. exact Hold.
Qed.

(** In a table whose bitmap mirrors its array, the weight of the bitmap
    is the number of occupied slots, at most the number of counters. *)
Lemma table_ok_counts cpuc :
  0 <= num_events armpmu →
  table_ok armpmu cpuc →
  bitmap_weight (used_mask cpuc) (Z.to_nat ARMPMU_MAX_HWEVENTS)
  = nr_scheduled cpuc
  ∧ Z.of_nat (nr_scheduled cpuc) <= num_events armpmu.
Proof.
  intros Hnum (Hlen & Hmirror & Hbits).
  assert (Heq : bitmap_weight (used_mask cpuc)
                  (Z.to_nat ARMPMU_MAX_HWEVENTS) = nr_scheduled cpuc).
  { unfold bitmap_weight, nr_scheduled. rewrite <- Hlen.
    apply bitmap_weight_mirror. intros i Hi. apply Hmirror. lia. }
  split; [exact Heq |]. rewrite <- Heq.
  pose proof (bitmap_weight_bound (used_mask cpuc) (num_events armpmu)
                (Z.to_nat ARMPMU_MAX_HWEVENTS) Hnum Hbits).
  lia.
Qed.

End Tables.

(** ** Invariants over sequences of operations *)

Section Invariants.

Context {H : Type}.
Variable armpmu : arm_pmu H.
Variable irq_env : irq_layer.
Implicit Types (w : world H) (event : ptr).

Lemma keeps_touches_event event w w' :
  keeps_events_and_tables w w' → touches_event event w w'.
Proof.
  intros Hk. apply writes_touches_event, keeps_writes_event. exact Hk.
Qed.

Lemma event_modify_touches event (f : perf_event → perf_event) :
  frame (@touches_event H event) (event_modify event f).
Proof.
  intros w u w' Hrun. apply event_modify_inv in Hrun as (ev & Hev & ->).
  repeat split.
  - intros p Hp. apply event_store_lookup_ne. congruence.
  - intros _. rewrite event_store_lookup. eexists. reflexivity.
Qed.

Lemma validate_group_touches event :
  frame (@touches_event H event) (validate_group armpmu event).
Proof.
  intros w r w' Hrun. apply validate_group_frame in Hrun as ->. reflexivity.
Qed.

Lemma hw_perf_event_init_frame event :
  frame (touches_event event) (__hw_perf_event_init armpmu event).
Proof.
  unfold __hw_perf_event_init, hwc_modify.
  repeat lazymatch goal with
  | |- frame _ (_ ≫= _) => apply frame_bind; [typeclasses eauto | | intros ?]
  | |- frame _ (mret _) => apply frame_ret; typeclasses eauto
  | |- frame _ (event_deref _) => apply event_deref_frame; typeclasses eauto
  | |- frame _ (to_arm_pmu _ _) => apply to_arm_pmu_frame; typeclasses eauto
  | |- frame _ (event_modify _ _) => apply event_modify_touches
  | |- frame _ (validate_group _ _) => apply validate_group_touches
  | |- frame _ (if ?b then _ else _) => destruct b
  | |- frame _ (let '(_, _) := ?x in _) => destruct x
  | |- frame _ (match ?x with Some _ => _ | None => _ end) => destruct x
  end.
Qed.

Lemma armpmu_event_init_frame event :
  frame (touches_event event) (armpmu_event_init armpmu irq_env event).
Proof.
  unfold armpmu_event_init.
  repeat lazymatch goal with
  | |- frame _ (_ ≫= _) => apply frame_bind; [typeclasses eauto | | intros ?]
  | |- frame _ (mret _) => apply frame_ret; typeclasses eauto
  | |- frame _ (event_deref _) => apply event_deref_frame; typeclasses eauto
  | |- frame _ (to_arm_pmu _ _) => apply to_arm_pmu_frame; typeclasses eauto
  | |- frame _ (__hw_perf_event_init _ _) => apply hw_perf_event_init_frame
  | |- frame _ (hw_perf_event_destroy _ _ _) =>
      eapply frame_weaken;
        [apply keeps_touches_event | apply hw_perf_event_destroy_frame]
  | |- frame _ (armpmu_reserve_hardware _ _) =>
      eapply frame_weaken;
        [apply keeps_touches_event
        | apply returns_frame, armpmu_reserve_hardware_returns]
  | |- frame _ atomic_inc_not_zero =>
      eapply frame_weaken;
        [apply keeps_touches_event
        | apply returns_frame, atomic_inc_not_zero_returns]
  | |- frame _ atomic_read =>
      eapply frame_weaken;
        [apply keeps_touches_event
        | apply returns_frame, atomic_read_returns]
  | |- frame _ atomic_inc =>
      eapply frame_weaken;
        [apply keeps_touches_event
        | apply returns_frame, atomic_inc_returns]
  | |- frame _ (if ?b then _ else _) => destruct b
  end.
Qed.

(** *** Scheduled events have an index *)








(** *** The bitmap mirrors the table *)

Lemma tables_ok_rescheduled w w' event table i :
  tables_ok armpmu w →
  rescheduled w event w' table i →
  table_ok armpmu table →
  tables_ok armpmu w'.
Proof.
  intros Hinv (Hc & _ & Ht & Hp & _) Htable cpu c Hcpu.
  destruct (decide (cpu = this_cpu w)) as [-> | Hne].
  - replace c with table by congruence. exact Htable.
  - apply (Hinv cpu). rewrite <- (Ht cpu Hne). exact Hcpu.
Qed.

Lemma step_tables_ok op w r w' :
  allocator_frame armpmu →
  allocator_test_and_set armpmu →
  tables_ok armpmu w →
  step armpmu irq_env op w = Some (r, w') →
  tables_ok armpmu w'.
Proof.
  intros Hframe [Hnum Htas] Hinv Hrun.
  destruct op as [event ev | cpu event flags | cpu event flags];
    cbn [step] in Hrun.
  - mstep Hrun as u w1 Halloc. unfold perf_event_alloc in Halloc.
    destruct (event_heap w !! event); [discriminate |].
    inversion Halloc; subst u w1; clear Halloc.
    apply armpmu_event_init_frame in Hrun as (Hp & _).
    cbn [percpu_hw_events set_event_heap] in Hp.
    intros cpu c Hc. apply (Hinv cpu). rewrite <- Hp. exact Hc.
  - unfold on_cpu in Hrun.
    apply armpmu_add_effect in Hrun as (ev & cpuc & Hev & Hcpuc & Heff).
    cbv zeta in Heff. cbn [this_cpu set_this_cpu percpu_hw_events] in Hcpuc.
    pose proof (Hinv cpu cpuc Hcpuc) as Hok.
    destruct (Hframe cpuc (hw ev)) as [Hevents _].
    specialize (Htas cpuc (hw ev)). cbv zeta in Htas.
    destruct (Z.ltb_spec (get_event_idx armpmu cpuc (hw ev)).1.1 0)
      as [Hneg | Hpos].
    + destruct Heff as [_ Hr].
      apply (tables_ok_rescheduled (set_this_cpu cpu w) w' event _ _ Hinv Hr).
      destruct Hok as (Hlen & Hmirror & Hbits).
      split; [rewrite Hevents; exact Hlen |].
      rewrite Hevents, Htas. split; assumption.
    + destruct Heff as (_ & _ & Hr). destruct Htas as (Hlt & _ & Hmask).
      apply (tables_ok_rescheduled (set_this_cpu cpu w) w' event _ _ Hinv Hr).
      rewrite Hevents, Hmask. apply table_ok_set; [exact Hok | lia | lia].
  - unfold on_cpu in Hrun. mstep Hrun as u w1 Hdel.
    inversion Hrun; subst r w1; clear Hrun.
    apply armpmu_del_effect in Hdel as (ev & cpuc & Hev & Hcpuc & Hi & Hr).
    cbn [this_cpu set_this_cpu percpu_hw_events] in Hcpuc.
    apply (tables_ok_rescheduled (set_this_cpu cpu w) w' event _ _ Hinv Hr).
    apply table_ok_clear; [exact (Hinv cpu cpuc Hcpuc) | exact Hi].
Qed.

Lemma run_tables_ok ops :
  allocator_frame armpmu →
  allocator_test_and_set armpmu →
  ∀ w u w', tables_ok armpmu w →
    run armpmu irq_env ops w = Some (u, w') →
    tables_ok armpmu w'.
Proof.
  intros Hframe Htas. induction ops as [| op rest IH];
    intros w u w' Hinv Hrun; cbn [run] in Hrun.
  - inversion Hrun; subst. exact Hinv.
  - mstep Hrun as r w1 Hstep.
    apply (IH w1 u w'); [| exact Hrun].
    exact (step_tables_ok op w r w1 Hframe Htas Hinv Hstep).
Qed.

Lemma tables_zeroed_tables_ok w : tables_zeroed w → tables_ok armpmu w.
Proof.
  intros Hz cpu c Hc. rewrite (Hz cpu c Hc). apply table_ok_zeroed.
Qed.

End Invariants.

(** ** The sample backend *)

Lemma first_free_idx_cases (num : Z) (cpuc : cpu_hw_events)
    (hwc : hw_perf_event) :
  (∃ i, 0 <= i < num ∧ test_bit i (used_mask cpuc) = false
        ∧ first_free_idx num cpuc hwc
          = (i, {| events := events cpuc;
                   used_mask := set_bit i (used_mask cpuc) |}, hwc))
  ∨ first_free_idx num cpuc hwc = (- EAGAIN, cpuc, hwc).
Proof.
  unfold first_free_idx.
  destruct (find _ (seqZ 0 num)) as [i |] eqn:Hfind; [left | right];
    [| reflexivity].
  apply find_some in Hfind as [Hin Hfree].
  apply list_elem_of_In, elem_of_seqZ in Hin.
  exists i. split; [lia |]. split; [| reflexivity].
  apply negb_true_iff. exact Hfree.
Qed.

Lemma sample_pmu_allocator_frame (num : Z) (dev : platform_device) :
  allocator_frame (sample_pmu num dev).
Proof.
  intros cpuc hwc. cbn [get_event_idx sample_pmu].
  destruct (first_free_idx_cases num cpuc hwc) as [(i & _ & _ & ->) | ->];
    split; reflexivity.
Qed.

Lemma sample_pmu_allocator_test_and_set (num : Z) (dev : platform_device) :
  0 <= num <= ARMPMU_MAX_HWEVENTS →
  allocator_test_and_set (sample_pmu num dev).
Proof.
  intros Hnum. split; [exact Hnum |]. intros cpuc hwc.
  cbn [get_event_idx num_events sample_pmu].
  destruct (first_free_idx_cases num cpuc hwc)
    as [(i & Hi & Hfree & ->) | ->]; cbn [fst snd used_mask].
  - destruct (Z.ltb_spec i 0); [lia |]. repeat split; [lia | exact Hfree].
  - reflexivity.
Qed.


Lemma sample_world_full_zeroed heap log active irq_mask held reserved :
  tables_zeroed (sample_world_full heap log active irq_mask held reserved).
Proof.
  intros cpu cpuc Hc. cbn [percpu_hw_events sample_world_full] in Hc.
  apply lookup_insert_Some in Hc as [[_ <-] | [_ Hc]]; [reflexivity |].
  apply lookup_insert_Some in Hc as [[_ <-] | [_ Hc]]; [reflexivity |].
  rewrite lookup_empty in Hc. discriminate.
Qed.

(** ** The index of an event and the occupancy of the tables *)

Section IndexAndOccupancy.

Context {H : Type}.
Variable armpmu : arm_pmu H.
Variable irq_env : irq_layer.
Implicit Types (w : world H) (event : ptr).




(** C2.  Over every sequence of add and del operations (and of
    initialisations) from zeroed tables, with a backend whose allocator
    claims counters by test-and-set, in the table of every CPU the number
    of set bits of [used_mask] is the number of occupied entries of
    [events], and it is at most [num_events]. *)
Theorem used_mask_counts_scheduled (ops : list pmu_op) (w0 w : world H) :
  allocator_frame armpmu →
  allocator_test_and_set armpmu →
  tables_zeroed w0 →
  run armpmu irq_env ops w0 = Some (tt, w) →
  ∀ cpu cpuc, percpu_hw_events w !! cpu = Some cpuc →
    bitmap_weight (used_mask cpuc) (Z.to_nat ARMPMU_MAX_HWEVENTS)
    = nr_scheduled cpuc
    ∧ Z.of_nat (nr_scheduled cpuc) <= num_events armpmu.
Proof.
  intros Hframe Htas Hzero Hrun cpu cpuc Hcpuc.
  apply table_ok_counts; [destruct Htas as [Hnum _]; lia |].
  exact (run_tables_ok armpmu irq_env ops Hframe Htas w0 tt w
           (tables_zeroed_tables_ok armpmu w0 Hzero) Hrun cpu cpuc Hcpuc).
Qed.

End IndexAndOccupancy.

(** ** Runs of the sample machine *)

Lemma used_mask_counts_scheduled_witness :
  match run (sample_pmu 2 sample_device) sample_irq_layer
          [OpInit 1%nat (sample_event 1%nat [] 5 false);
           OpInit 2%nat (sample_event 2%nat [] 6 false);
           OpInit 3%nat (sample_event 3%nat [] 7 false);
           OpAdd 0%nat 1%nat 1; OpAdd 0%nat 2%nat 1; OpAdd 0%nat 3%nat 1;
           OpDel 0%nat 1%nat 0]
          sample_world with
  | Some (_, w) =>
      ∀ cpu cpuc, percpu_hw_events w !! cpu = Some cpuc →
        bitmap_weight (used_mask cpuc) (Z.to_nat ARMPMU_MAX_HWEVENTS)
        = nr_scheduled cpuc
        ∧ Z.of_nat (nr_scheduled cpuc) <= 2
  | None => False
  end.
Proof.
  destruct (run _ _ _ _) as [[[] w] |] eqn:Hrun;
    [| vm_compute in Hrun; discriminate Hrun].
  refine (used_mask_counts_scheduled (sample_pmu 2 sample_device)
            sample_irq_layer _ sample_world w _ _ _ Hrun).
  - apply sample_pmu_allocator_frame.
  - apply sample_pmu_allocator_test_and_set. unfold ARMPMU_MAX_HWEVENTS. lia.
  - apply sample_world_full_zeroed.
Defined.



Lemma hw_perf_event_init_group_invalid_witness :
  ∃ r rv w',
    __hw_perf_event_init (sample_pmu 2 sample_device) 3%nat
      (sample_world_with sample_group_heap []) = Some (r, w')
    ∧ validate_group (sample_pmu 2 sample_device) 3%nat w' = Some (rv, w')
    ∧ (rv = 0 ∨ rv = - ENOSPC)
    ∧ (rv = 0 → r = 0)
    ∧ (rv = - ENOSPC → r = - EINVAL)
    ∧ r ≠ - ENOSPC.
Proof.
  apply (hw_perf_event_init_group_invalid (sample_pmu 2 sample_device)
           3%nat (sample_world_with sample_group_heap [])
           (sample_event 1%nat [] 7 false)
           (sample_event 1%nat [2%nat] 5 false)).
  - reflexivity.
  - reflexivity.
  - simpl. lia.
  - vm_compute. discriminate.
  - reflexivity.
  - reflexivity.
  - repeat constructor.
    + exists (sample_event 1%nat [2%nat] 5 false),
             (sample_event 1%nat [2%nat] 5 false).
      repeat split; reflexivity.
    + exists (sample_event 1%nat [] 6 false),
             (sample_event 1%nat [2%nat] 5 false).
      repeat split; reflexivity.
    + exists (sample_event 1%nat [] 7 false),
             (sample_event 1%nat [2%nat] 5 false).
      repeat split; reflexivity.
Defined.

(** The claim C6 as the specification states it fails: the group of
    three events does not fit the two counters, [validate_group] returns
    -ENOSPC, and the initialisation returns -EINVAL. *)
Lemma hw_perf_event_init_returns_einval :
  match __hw_perf_event_init (sample_pmu 2 sample_device) 3%nat
          (sample_world_with sample_group_heap []) with
  | Some (r, w') =>
      validate_group (sample_pmu 2 sample_device) 3%nat w'
      = Some (- ENOSPC, w')
      ∧ r = - EINVAL ∧ r ≠ - ENOSPC
  | None => False
  end.
Proof.
  vm_compute. split; [reflexivity |]. split; [reflexivity |].
  intros Hx. discriminate Hx.
Qed.

Lemma mode_exclusion_checked_after_reservation_witness :
  (∃ w', __hw_perf_event_init (sample_pmu 2 sample_device) 1%nat
           (sample_world_with {[1%nat := sample_event 1%nat [] 5 true]} [])
         = Some (- EPERM, w'))
  ∧ ∃ w', armpmu_event_init (sample_pmu 2 sample_device) sample_irq_layer
            1%nat
            (sample_world_with {[1%nat := sample_event 1%nat [] 5 true]} [])
          = Some (- EPERM, w').
Proof.
  destruct (mode_exclusion_checked_after_reservation
              (sample_pmu 2 sample_device) sample_irq_layer 1%nat
              (sample_world_with {[1%nat := sample_event 1%nat [] 5 true]} [])
              (sample_event 1%nat [] 5 true))
    as ((w1 & Hinit & _) & _ & Hfirst).
  - reflexivity.
  - reflexivity.
  - vm_compute. discriminate.
  - reflexivity.
  - split; [exists w1; exact Hinit |].
    destruct (Hfirst eq_refl) as (err & w2 & Hres & _ & Hok).
    assert (Herr : err = 0).
    { vm_compute in Hres. inversion Hres. reflexivity. }
    exact (Hok Herr).
Defined.

(** The claim C7 as the specification states it fails: on a machine
    without PMU interrupts the event that asks for mode exclusion is
    refused with -ENODEV, the error of the reservation that is made
    before the mode check, which also leaves the PMU reserved. *)
Lemma event_init_reserves_before_mode_check :
  mode_exclusion_refused (sample_pmu 2 no_irq_device)
    (sample_event 1%nat [] 5 true) = true
  ∧ match armpmu_event_init (sample_pmu 2 no_irq_device) sample_irq_layer
            1%nat
            (sample_world_with {[1%nat := sample_event 1%nat [] 5 true]} [])
    with
    | Some (r, w') => r = - ENODEV ∧ r ≠ - EPERM ∧ pmu_reserved w' = true
    | None => False
    end.
Proof.
  split; [reflexivity |]. vm_compute.
  split; [reflexivity |]. split; [| reflexivity].
  intros Hx. discriminate Hx.
Qed.

(** C8 fails on the code.  On a machine whose platform device has no
    interrupt resource, [armpmu_reserve_hardware] takes the platform
    reservation, finds no interrupt and returns -ENODEV without giving
    the reservation back: something is still reserved after the failed
    call, and a second attempt gets -EBUSY. *)
Theorem reserve_hardware_without_irqs_keeps_pmu :
  armpmu_reserve_hardware (sample_pmu 2 no_irq_device) sample_irq_layer
    sample_world
  = Some (- ENODEV, sample_world_full ∅ [] 0 0 [] true)
  ∧ ¬ nothing_reserved (sample_world_full ∅ [] 0 0 [] true)
  ∧ fst <$> armpmu_reserve_hardware (sample_pmu 2 no_irq_device)
              sample_irq_layer (sample_world_full ∅ [] 0 0 [] true)
    = Some (- EBUSY).
Proof.
  split; [vm_compute; reflexivity |]. split.
  - intros [_ Hflag]. discriminate Hflag.
  - vm_compute. reflexivity.
Qed.

(** * Further properties of the driver *)

(** ** Accounting and period programming, step by step *)

Section AccountingSteps.

Context {H : Type}.
Variable armpmu : arm_pmu H.
Implicit Types (w : world H) (event : ptr).

(** [armpmu_event_update], run on an event of this PMU. *)
Lemma armpmu_event_update_run event i overflow w ev :
  event_heap w !! event = Some ev →
  pmu ev = pmu_addr armpmu →
  armpmu_event_update armpmu event i overflow w
  = Some (Z.land (wrap32 (read_counter armpmu i (regs w)).1)
                 (max_period armpmu),
          event_store event
            (accounted (max_period armpmu)
               (wrap32 (read_counter armpmu i (regs w)).1) overflow ev)
            (set_regs (read_counter armpmu i (regs w)).2 w)).
Proof.
  intros Hev Hpmu. unfold armpmu_event_update.
  rewrite (bind_some _ _ _ _ _ (event_deref_some _ _ _ Hev)).
  rewrite Hpmu, (bind_some _ _ _ _ _ (to_arm_pmu_some _ _)).
  rewrite bind_unfold. unfold reg_read.
  destruct (read_counter armpmu i (regs w)) as [v h]. cbn [fst snd].
  unfold hwc_modify.
  rewrite bind_unfold, (event_modify_some _ _ _ ev) by exact Hev.
  rewrite bind_unfold, event_modify_stored.
  rewrite bind_unfold, event_modify_stored.
  reflexivity.
Qed.

(** [armpmu_event_set_period], run on an event of this PMU with a
    positive period. *)
Lemma armpmu_event_set_period_run event i w ev :
  event_heap w !! event = Some ev →
  pmu ev = pmu_addr armpmu →
  0 < to_s64 (sample_period (hw ev)) →
  - 2 ^ 63 <= period_left (hw ev) < 2 ^ 63 →
  armpmu_event_set_period armpmu event i w
  = Some (if period_left (hw ev) <=? 0 then 1 else 0,
          set_regs
            (write_counter armpmu i
               (wrap32 (- programmed_ticks (max_period armpmu)
                            (to_s64 (sample_period (hw ev)))
                            (period_left (hw ev))))
               (regs w))
            (event_store event
               (set_hw (programmed_hw (max_period armpmu) (hw ev)) ev) w)).
Proof.
  intros Hev Hpmu Hpos Hleft.
  pose proof (to_s64_range (sample_period (hw ev))) as Hper.
  unfold armpmu_event_set_period.
  rewrite (bind_some _ _ _ _ _ (event_deref_some _ _ _ Hev)).
  rewrite Hpmu, (bind_some _ _ _ _ _ (to_arm_pmu_some _ _)).
  unfold programmed_hw, programmed_ticks, next_period_left.
  set (period := to_s64 (sample_period (hw ev))) in *.
  set (left_ := period_left (hw ev)) in *.
  rewrite (to_s64_small (- period)) by lia.
  assert (Hclamp : ∀ v, (if to_s64 (max_period armpmu) <? v
                         then to_s64 (max_period armpmu) else v)
                        = Z.min v (to_s64 (max_period armpmu))).
  { intros v. destruct (Z.ltb_spec (to_s64 (max_period armpmu)) v); lia. }
  destruct (Z.leb_spec left_ (- period)) as [Hstale | Hfresh].
  - destruct (Z.leb_spec period 0) as [Hbad | _]; [lia |].
    destruct (Z.leb_spec left_ 0) as [_ | Hx]; [| lia].
    rewrite Hclamp, land_mask32.
    rewrite bind_unfold, (event_modify_some _ _ _ ev) by exact Hev.
    reflexivity.
  - destruct (Z.leb_spec left_ 0) as [Hdue | Hahead].
    + rewrite (to_s64_small (left_ + period)) by lia.
      rewrite Hclamp, land_mask32.
      rewrite bind_unfold, (event_modify_some _ _ _ ev) by exact Hev.
      reflexivity.
    + rewrite Hclamp, land_mask32.
      rewrite bind_unfold, (event_modify_some _ _ _ ev) by exact Hev.
      reflexivity.
Qed.


Lemma wrap64_congr (a b k : Z) : a = b + k * 2 ^ 64 → wrap64 a = wrap64 b.
Proof. intros ->. unfold wrap64. apply Z_mod_plus_full. Qed.

Lemma to_s64_congr (a b k : Z) : a = b + k * 2 ^ 64 → to_s64 a = to_s64 b.
Proof.
  intros ->. unfold to_s64. f_equal.
  replace (b + k * 2 ^ 64 + 2 ^ 63) with (b + 2 ^ 63 + k * 2 ^ 64) by lia.
  apply Z_mod_plus_full.
Qed.

Lemma wrap64_sub_l (a b : Z) : wrap64 (wrap64 a - b) = wrap64 (a - b).
Proof. unfold wrap64. apply Zminus_mod_idemp_l. Qed.

Lemma to_s64_add_l (a b : Z) : to_s64 (to_s64 a + b) = to_s64 (a + b).
Proof.
  unfold to_s64. f_equal.
  replace ((a + 2 ^ 63) mod 2 ^ 64 - 2 ^ 63 + b + 2 ^ 63)
    with ((a + 2 ^ 63) mod 2 ^ 64 + b) by lia.
  replace (a + b + 2 ^ 63) with (a + 2 ^ 63 + b) by lia.
  apply Zplus_mod_idemp_l.
Qed.


Lemma event_store_same event ev w :
  event_heap w !! event = Some ev →
  event_heap (event_store event ev w) = event_heap w.
Proof. intros Hev. apply insert_id. exact Hev. Qed.

(** X1.  Each pass of [armpmu_event_update] keeps the 64-bit count in
    step with the counter: the count minus the masked shadow value is
    the same before and after a pass outside an overflow, and larger by
    one full counter cycle ([max_period + 1]) after a pass in an overflow;
    [period_left] plus the masked shadow value moves the other way.  The
    value returned is the masked shadow value the pass leaves. *)
Theorem event_update_tracks_counter event i overflow w ev r w' :
  event_heap w !! event = Some ev →
  pmu ev = pmu_addr armpmu →
  armpmu_event_update armpmu event i overflow w = Some (r, w') →
  let cycle := if overflow =? 0 then 0 else max_period armpmu + 1 in
  ∃ ev',
    event_heap w' !! event = Some ev'
    ∧ r = Z.land (prev_count (hw ev')) (max_period armpmu)
    ∧ wrap64 (count ev' - r)
      = wrap64 (count ev
                - Z.land (prev_count (hw ev)) (max_period armpmu) + cycle)
    ∧ to_s64 (period_left (hw ev') + r)
      = to_s64 (period_left (hw ev)
                + Z.land (prev_count (hw ev)) (max_period armpmu) - cycle).
Proof.
  intros Hev Hpmu Hrun cycle.
  rewrite (armpmu_event_update_run event i overflow w ev Hev Hpmu) in Hrun.
  inversion Hrun; subst r w'; clear Hrun.
  eexists. split; [apply event_store_lookup |].
  unfold accounted. cbn [hw count set_hw set_count prev_count period_left
                         set_period_left set_prev_count].
  split; [reflexivity |].
  set (new := Z.land (wrap32 (read_counter armpmu i (regs w)).1)
                     (max_period armpmu)).
  set (prev := Z.land (prev_count (hw ev)) (max_period armpmu)).
  unfold event_delta. subst cycle. split.
  - rewrite wrap64_sub_l. destruct (overflow =? 0).
    + apply (wrap64_congr _ _ (- ((new - prev) / 2 ^ 64))).
      unfold wrap64. rewrite Z.mod_eq by lia. lia.
    + apply (wrap64_congr _ _
               (- ((max_period armpmu - prev + new + 1) / 2 ^ 64))).
      unfold wrap64. rewrite Z.mod_eq by lia. lia.
  - rewrite to_s64_add_l. destruct (overflow =? 0).
    + apply (to_s64_congr _ _ ((new - prev) / 2 ^ 64)).
      unfold wrap64. rewrite Z.mod_eq by lia. lia.
    + apply (to_s64_congr _ _
               ((max_period armpmu - prev + new + 1) / 2 ^ 64)).
      unfold wrap64. rewrite Z.mod_eq by lia. lia.
Qed.

Lemma accounted_idle (mp : Z) (ev : perf_event) :
  0 <= count ev < 2 ^ 64 →
  - 2 ^ 63 <= period_left (hw ev) < 2 ^ 63 →
  accounted mp (prev_count (hw ev)) 0 ev = ev.
Proof.
  intros Hcount Hleft. unfold accounted, event_delta. cbn [Z.eqb].
  rewrite Z.sub_diag. change (wrap64 0) with 0.
  rewrite Z.add_0_r, Z.sub_0_r, wrap64_small, to_s64_small by assumption.
  destruct ev as [a h p g s st c]. destruct h. reflexivity.
Qed.

(** X2.  [armpmu_read] of a scheduled event whose counter still reads as
    the shadow value accounts nothing: no event object changes (count,
    period and shadow value of the event stay), only the registers see
    the read. *)
Theorem armpmu_read_idle_counter event w ev :
  event_heap w !! event = Some ev →
  pmu ev = pmu_addr armpmu →
  0 <= idx (hw ev) →
  0 <= count ev < 2 ^ 64 →
  - 2 ^ 63 <= period_left (hw ev) < 2 ^ 63 →
  wrap32 (read_counter armpmu (idx (hw ev)) (regs w)).1 = prev_count (hw ev) →
  ∃ w', armpmu_read armpmu event w = Some (tt, w')
        ∧ event_heap w' = event_heap w
        ∧ percpu_hw_events w' = percpu_hw_events w
        ∧ regs w' = (read_counter armpmu (idx (hw ev)) (regs w)).2.
Proof.
  intros Hev Hpmu Hidx Hcount Hleft Hsame. unfold armpmu_read.
  rewrite (bind_some _ _ _ _ _ (event_deref_some _ _ _ Hev)).
  destruct (Z.ltb_spec (idx (hw ev)) 0) as [Hneg | _]; [lia |].
  rewrite bind_unfold,
    (armpmu_event_update_run event _ 0 w ev Hev Hpmu), ret_unfold.
  eexists. split; [reflexivity |].
  rewrite Hsame, (accounted_idle _ ev Hcount Hleft).
  split; [| split; reflexivity].
  apply (event_store_same event ev (set_regs _ w)). exact Hev.
Qed.

Lemma next_period_left_positive (period left_ : Z) :
  0 < period → 0 < next_period_left period left_.
Proof.
  intros Hpos. unfold next_period_left.
  destruct (Z.leb_spec left_ (- period)); [lia |].
  destruct (Z.leb_spec left_ 0); lia.
Qed.

Lemma next_period_left_bound (period left_ : Z) :
  0 < period →
  next_period_left period left_ <= Z.max period left_.
Proof.
  intros Hpos. unfold next_period_left.
  destruct (Z.leb_spec left_ (- period)); [lia |].
  destruct (Z.leb_spec left_ 0); lia.
Qed.

Lemma next_period_left_again (period left_ : Z) :
  0 < period →
  next_period_left period (next_period_left period left_)
  = next_period_left period left_.
Proof.
  intros Hpos. pose proof (next_period_left_positive period left_ Hpos).
  unfold next_period_left at 1.
  destruct (Z.leb_spec (next_period_left period left_) (- period)); [lia |].
  destruct (Z.leb_spec (next_period_left period left_) 0); [lia |].
  reflexivity.
Qed.

(** X3.  [armpmu_event_set_period] writes the counter so that it wraps
    to zero after exactly the number of ticks it programmed: that number
    is positive, at most [max_period] and at most the new [period_left]
    (which is positive and at most the larger of the period and the old
    value), and the value written is its 32-bit negation. *)
Theorem event_set_period_overflow_distance event i w ev r w' :
  event_heap w !! event = Some ev →
  pmu ev = pmu_addr armpmu →
  0 < to_s64 (sample_period (hw ev)) →
  - 2 ^ 63 <= period_left (hw ev) < 2 ^ 63 →
  1 <= max_period armpmu < 2 ^ 63 →
  armpmu_event_set_period armpmu event i w = Some (r, w') →
  ∃ ev' ticks written,
    event_heap w' !! event = Some ev'
    ∧ regs w' = write_counter armpmu i written (regs w)
    ∧ 0 < period_left (hw ev')
      <= Z.max (to_s64 (sample_period (hw ev))) (period_left (hw ev))
    ∧ ticks = Z.min (period_left (hw ev')) (max_period armpmu)
    ∧ 1 <= ticks
    ∧ 0 <= written < 2 ^ 32
    ∧ wrap32 (written + ticks) = 0
    ∧ (r = 1 ↔ period_left (hw ev) <= 0).
Proof.
  intros Hev Hpmu Hpos Hleft Hmp Hrun.
  rewrite (armpmu_event_set_period_run event i w ev Hev Hpmu Hpos Hleft)
    in Hrun.
  inversion Hrun; subst r w'; clear Hrun.
  pose proof (next_period_left_positive _ (period_left (hw ev)) Hpos) as Hnl.
  pose proof (next_period_left_bound _ (period_left (hw ev)) Hpos) as Hnb.
  assert (Hnew : period_left (programmed_hw (max_period armpmu) (hw ev))
                 = next_period_left (to_s64 (sample_period (hw ev)))
                     (period_left (hw ev))).
  { unfold programmed_hw. cbn [period_left set_prev_count].
    destruct (Z.leb_spec (period_left (hw ev)) 0) as [Hdue | Hahead];
      [reflexivity |].
    unfold next_period_left.
    destruct (Z.leb_spec (period_left (hw ev))
                (- to_s64 (sample_period (hw ev)))); [lia |].
    destruct (Z.leb_spec (period_left (hw ev)) 0); [lia | reflexivity]. }
  eexists _, _, _. split; [apply event_store_lookup |].
  split; [reflexivity |]. cbn [hw set_hw]. rewrite Hnew.
  split; [lia |].
  unfold programmed_ticks. rewrite (to_s64_small (max_period armpmu)) by lia.
  split; [reflexivity |]. split; [lia |].
  split; [unfold wrap32; apply Z.mod_pos_bound; lia |].
  split.
  - unfold wrap32. rewrite Zplus_mod_idemp_l.
    replace (- _ + _) with 0 by lia. reflexivity.
  - destruct (Z.leb_spec (period_left (hw ev)) 0); split; intros; try lia;
      try reflexivity; discriminate.
Qed.

Lemma programmed_hw_again (mp : Z) (hwc : hw_perf_event) :
  0 < to_s64 (sample_period hwc) →
  programmed_hw mp (programmed_hw mp hwc) = programmed_hw mp hwc.
Proof.
  intros Hpos.
  pose proof (next_period_left_positive _ (period_left hwc) Hpos) as Hnl.
  assert (Hsp : sample_period (programmed_hw mp hwc) = sample_period hwc).
  { unfold programmed_hw. destruct (period_left hwc <=? 0); reflexivity. }
  assert (Hpl : period_left (programmed_hw mp hwc)
                = next_period_left (to_s64 (sample_period hwc))
                    (period_left hwc)).
  { unfold programmed_hw. cbn [period_left set_prev_count].
    destruct (Z.leb_spec (period_left hwc) 0) as [Hdue | Hahead];
      [reflexivity |].
    unfold next_period_left.
    destruct (Z.leb_spec (period_left hwc) (- to_s64 (sample_period hwc)));
      [lia |].
    destruct (Z.leb_spec (period_left hwc) 0); [lia | reflexivity]. }
  unfold programmed_hw at 1. rewrite Hsp, Hpl.
  destruct (Z.leb_spec (next_period_left (to_s64 (sample_period hwc))
                          (period_left hwc)) 0) as [Hx | _]; [lia |].
  unfold programmed_ticks. rewrite next_period_left_again by exact Hpos.
  unfold programmed_hw, programmed_ticks.
  destruct (period_left hwc <=? 0); destruct hwc; reflexivity.
Qed.

(** X4.  Programming the period twice is programming it once: a second
    [armpmu_event_set_period] right after the first reports no change
    (returns 0), leaves every event object as it is and writes the same
    value to the counter again. *)
Theorem event_set_period_twice event i w ev r w1 :
  event_heap w !! event = Some ev →
  pmu ev = pmu_addr armpmu →
  0 < to_s64 (sample_period (hw ev)) →
  - 2 ^ 63 <= period_left (hw ev) < 2 ^ 63 →
  armpmu_event_set_period armpmu event i w = Some (r, w1) →
  ∃ written w2,
    regs w1 = write_counter armpmu i written (regs w)
    ∧ armpmu_event_set_period armpmu event i w1 = Some (0, w2)
    ∧ event_heap w2 = event_heap w1
    ∧ regs w2 = write_counter armpmu i written (regs w1).
Proof.
  intros Hev Hpmu Hpos Hleft Hrun.
  rewrite (armpmu_event_set_period_run event i w ev Hev Hpmu Hpos Hleft)
    in Hrun.
  inversion Hrun; subst r w1; clear Hrun.
  pose proof (next_period_left_positive _ (period_left (hw ev)) Hpos) as Hnl.
  pose proof (next_period_left_bound _ (period_left (hw ev)) Hpos) as Hnb.
  pose proof (to_s64_range (sample_period (hw ev))) as Hper.
  set (ev1 := set_hw (programmed_hw (max_period armpmu) (hw ev)) ev).
  assert (Hsp : sample_period (hw ev1) = sample_period (hw ev)).
  { subst ev1. cbn [hw set_hw]. unfold programmed_hw.
    destruct (period_left (hw ev) <=? 0); reflexivity. }
  assert (Hpl : period_left (hw ev1)
                = next_period_left (to_s64 (sample_period (hw ev)))
                    (period_left (hw ev))).
  { subst ev1. cbn [hw set_hw]. unfold programmed_hw.
    cbn [period_left set_prev_count].
    destruct (Z.leb_spec (period_left (hw ev)) 0) as [Hdue | Hahead];
      [reflexivity |].
    unfold next_period_left.
    destruct (Z.leb_spec (period_left (hw ev))
                (- to_s64 (sample_period (hw ev)))); [lia |].
    destruct (Z.leb_spec (period_left (hw ev)) 0); [lia | reflexivity]. }
  eexists _, _. split; [reflexivity |].
  rewrite (armpmu_event_set_period_run event i _ ev1).
  2:{ apply (event_store_lookup event ev1 w). }
  2:{ exact Hpmu. }
  2:{ rewrite Hsp. exact Hpos. }
  2:{ rewrite Hpl. lia. }
  rewrite Hsp, Hpl.
  destruct (Z.leb_spec (next_period_left (to_s64 (sample_period (hw ev)))
                          (period_left (hw ev))) 0) as [Hx | _]; [lia |].
  split; [reflexivity |].
  assert (Hsame : set_hw (programmed_hw (max_period armpmu) (hw ev1)) ev1
                  = ev1).
  { subst ev1. cbn [hw set_hw].
    rewrite programmed_hw_again by exact Hpos. reflexivity. }
  rewrite Hsame. split.
  - exact (event_store_same event ev1 (set_regs _ (event_store event ev1 w))
             (event_store_lookup event ev1 w)).
  - cbn [regs set_regs event_store set_event_heap].
    unfold programmed_ticks. rewrite next_period_left_again by exact Hpos.
    reflexivity.
Qed.


End AccountingSteps.

(** ** Stopping, adding and removing *)

#[export] Instance only_regs_preorder {H : Type} : PreOrder (@only_regs H).
Proof.
  split.
  - intros w. destruct w. reflexivity.
  - intros w1 w2 w3 H12 H23. unfold only_regs in *.
    rewrite H23, H12. reflexivity.
Qed.

Lemma stopped_bit_set (s : Z) :
  Z.land (Z.lor s (Z.lor PERF_HES_STOPPED PERF_HES_UPTODATE))
         PERF_HES_STOPPED = 1.
Proof.
  apply Z.bits_inj'. intros n Hn.
  rewrite Z.land_spec, Z.lor_spec.
  change (Z.lor PERF_HES_STOPPED PERF_HES_UPTODATE) with 3.
  change PERF_HES_STOPPED with 1.
  destruct (Z.eq_dec n 0) as [-> | Hne].
  - change (Z.testbit 3 0) with true. change (Z.testbit 1 0) with true.
    rewrite orb_true_r. reflexivity.
  - rewrite (testbit_small 1 1 n) by lia. apply andb_false_r.
Qed.

Section SchedulingSteps.

Context {H : Type}.
Variable armpmu : arm_pmu H.
Implicit Types (w : world H) (event : ptr).

(** X6.  Stopping is idempotent: after [armpmu_stop] the event has its
    stopped bit set, and a second [armpmu_stop] returns at once, leaving
    the world (registers, count, period) as the first one left it. *)
Theorem armpmu_stop_twice event flags flags' w u w1 :
  armpmu_stop armpmu event flags w = Some (u, w1) →
  (∃ ev1, event_heap w1 !! event = Some ev1
          ∧ Z.land (state (hw ev1)) PERF_HES_STOPPED ≠ 0)
  ∧ armpmu_stop armpmu event flags' w1 = Some (tt, w1).
Proof.
  intros Hrun. unfold armpmu_stop in Hrun.
  mstep Hrun as ev w0 Hev. apply event_deref_inv in Hev as [-> Hev].
  mstep Hrun as a w0 Ha. apply to_arm_pmu_inv in Ha as (-> & -> & Hpmu).
  assert (Hagain : ∀ ev1, event_heap w1 !! event = Some ev1 →
            pmu ev1 = pmu_addr armpmu →
            Z.land (state (hw ev1)) PERF_HES_STOPPED ≠ 0 →
            armpmu_stop armpmu event flags' w1 = Some (tt, w1)).
  { intros ev1 Hev1 Hpmu1 Hbit. unfold armpmu_stop.
    rewrite (bind_some _ _ _ _ _ (event_deref_some _ _ _ Hev1)).
    rewrite Hpmu1, (bind_some _ _ _ _ _ (to_arm_pmu_some _ _)).
    rewrite (proj2 (Z.eqb_neq _ _) Hbit). reflexivity. }
  destruct (Z.eqb_spec (Z.land (state (hw ev)) PERF_HES_STOPPED) 0)
    as [Hrunning | Hstopped].
  - mstep Hrun as u1 w2 Hdis. inversion Hdis; subst u1 w2; clear Hdis.
    mstep Hrun as r w3 Hupd.
    rewrite (armpmu_event_update_run armpmu event _ 0 _ ev) in Hupd
      by assumption.
    inversion Hupd; subst r w3; clear Hupd.
    unfold hwc_modify in Hrun. rewrite event_modify_stored in Hrun.
    inversion Hrun; subst u w1; clear Hrun.
    split.
    + eexists. split; [apply event_store_lookup |].
      cbn [hw set_hw state set_state]. rewrite stopped_bit_set. lia.
    + eapply Hagain; [apply event_store_lookup | exact Hpmu |].
      cbn [hw set_hw state set_state]. rewrite stopped_bit_set. lia.
  - inversion Hrun; subst u w1; clear Hrun. split.
    + exists ev. split; assumption.
    + exact (Hagain ev Hev Hpmu Hstopped).
Qed.


Lemma clear_set_bit (i mask : Z) :
  0 <= i → Z.testbit mask i = false → clear_bit i (set_bit i mask) = mask.
Proof.
  intros Hi Hclear. apply Z.bits_inj'. intros n Hn.
  rewrite clear_bit_testbit, set_bit_testbit by lia.
  destruct (Z.eqb_spec n i) as [-> | Hne]; cbn [negb].
  - rewrite Hclear. reflexivity.
  - rewrite orb_false_r, andb_true_r. reflexivity.
Qed.

Lemma table_ok_free_slot cpuc (i : Z) :
  table_ok armpmu cpuc →
  0 <= i < ARMPMU_MAX_HWEVENTS →
  Z.testbit (used_mask cpuc) i = false →
  events cpuc !! Z.to_nat i = Some None.
Proof.
  intros (Hlen & Hmirror & _) Hi Hclear.
  destruct (Hmirror (Z.to_nat i)) as [_ Hocc];
    [unfold ARMPMU_MAX_HWEVENTS in *; lia |].
  rewrite Z2Nat.id in Hocc by lia.
  destruct (decide (events cpuc !! Z.to_nat i = Some None)) as [Heq | Hne];
    [exact Heq |].
  rewrite (Hocc Hne) in Hclear. discriminate Hclear.
Qed.

(** X7.  Adding an event and removing it again gives the table back:
    with an allocator that claims counters by test-and-set, after a
    successful [armpmu_add] and the [armpmu_del] of the same event the
    table of every CPU, slots and bitmap, is as before the add. *)
Theorem armpmu_add_del_restores_table event flags flags' w cpuc w1 u w2 :
  allocator_frame armpmu →
  allocator_test_and_set armpmu →
  percpu_hw_events w !! this_cpu w = Some cpuc →
  table_ok armpmu cpuc →
  armpmu_add armpmu event flags w = Some (0, w1) →
  armpmu_del armpmu event flags' w1 = Some (u, w2) →
  percpu_hw_events w2 = percpu_hw_events w ∧ this_cpu w2 = this_cpu w.
Proof.
  intros Hframe [Hnum Htas] Hcpuc Hok Hadd Hdel.
  apply armpmu_add_effect in Hadd as (ev & cpuc0 & Hev & Hcpuc0 & Heff).
  replace cpuc0 with cpuc in * by congruence. clear Hcpuc0.
  cbv zeta in Heff. destruct (Hframe cpuc (hw ev)) as [Hevents _].
  specialize (Htas cpuc (hw ev)). cbv zeta in Htas.
  destruct (Z.ltb_spec (get_event_idx armpmu cpuc (hw ev)).1.1 0)
    as [Hneg | Hpos]; [destruct Heff as [Herr _]; lia |].
  destruct Htas as (Hlt & Hfree & Hmask).
  destruct Heff as (_ & _ & Hc1 & _ & Ht1 & Hp1 & ev1 & Hev1 & Hi1).
  set (i := (get_event_idx armpmu cpuc (hw ev)).1.1) in *.
  apply armpmu_del_effect in Hdel as (ev1' & cpuc1 & Hev1' & Hcpuc1 & _ & Hr).
  replace ev1' with ev1 in * by congruence. clear Hev1'.
  rewrite Hc1, Hp1 in Hcpuc1. inversion Hcpuc1; subst cpuc1; clear Hcpuc1.
  destruct Hr as (Hc2 & _ & Ht2 & Hp2 & _).
  rewrite Hi1 in Hp2. cbn [events used_mask] in Hp2.
  rewrite Hevents, Hmask, list_insert_insert_eq in Hp2.
  rewrite clear_set_bit in Hp2 by (assumption || lia).
  rewrite list_insert_id in Hp2
    by (apply table_ok_free_slot; [exact Hok | lia | exact Hfree]).
  split; [| congruence].
  apply map_eq. intros cpu.
  destruct (decide (cpu = this_cpu w)) as [-> | Hne].
  - rewrite Hc1 in Hp2. rewrite Hp2, Hcpuc. destruct cpuc. reflexivity.
  - rewrite (Ht2 cpu) by congruence. exact (Ht1 cpu Hne).
Qed.

(** X8.  No counter is handed out twice: when two [armpmu_add] in a row
    on one CPU both succeed, the two events sit in different slots of
    the table, each at the index it was given. *)
Theorem armpmu_add_twice_distinct event1 event2 flags1 flags2 w cpuc w1 w2 :
  allocator_frame armpmu →
  allocator_test_and_set armpmu →
  percpu_hw_events w !! this_cpu w = Some cpuc →
  table_ok armpmu cpuc →
  armpmu_add armpmu event1 flags1 w = Some (0, w1) →
  armpmu_add armpmu event2 flags2 w1 = Some (0, w2) →
  ∃ cpuc2 ev2 i j,
    percpu_hw_events w2 !! this_cpu w = Some cpuc2
    ∧ event_heap w2 !! event2 = Some ev2
    ∧ i ≠ j
    ∧ events cpuc2 !! i = Some (Some event1)
    ∧ events cpuc2 !! j = Some (Some event2)
    ∧ idx (hw ev2) = Z.of_nat j.
Proof.
  intros Hframe [Hnum Htas] Hcpuc Hok Hadd1 Hadd2.
  apply armpmu_add_effect in Hadd1 as (ev & cpuc0 & Hev & Hcpuc0 & Heff).
  replace cpuc0 with cpuc in * by congruence. clear Hcpuc0.
  cbv zeta in Heff. destruct (Hframe cpuc (hw ev)) as [Hevents _].
  pose proof (Htas cpuc (hw ev)) as Htas1. cbv zeta in Htas1.
  destruct (Z.ltb_spec (get_event_idx armpmu cpuc (hw ev)).1.1 0)
    as [Hneg | Hpos]; [destruct Heff as [Herr _]; lia |].
  destruct Htas1 as (Hlt & Hfree & Hmask).
  destruct Heff as (_ & _ & Hc1 & _ & _ & Hp1 & _).
  set (i := (get_event_idx armpmu cpuc (hw ev)).1.1) in *.
  set (t1 := {| events := <[Z.to_nat i := Some event1]>
                            (events (get_event_idx armpmu cpuc (hw ev)).1.2);
                used_mask := used_mask (get_event_idx armpmu cpuc (hw ev)).1.2
             |}) in *.
  apply armpmu_add_effect in Hadd2 as (ev' & cpuc1 & Hev' & Hcpuc1 & Heff).
  rewrite Hc1, Hp1 in Hcpuc1. inversion Hcpuc1; subst cpuc1; clear Hcpuc1.
  cbv zeta in Heff. destruct (Hframe t1 (hw ev')) as [Hevents2 _].
  pose proof (Htas t1 (hw ev')) as Htas2. cbv zeta in Htas2.
  destruct (Z.ltb_spec (get_event_idx armpmu t1 (hw ev')).1.1 0)
    as [Hneg | Hpos2]; [destruct Heff as [Herr _]; lia |].
  destruct Htas2 as (Hlt2 & Hfree2 & _).
  destruct Heff as (_ & _ & _ & _ & _ & Hp2 & ev2 & Hev2 & Hi2).
  set (j := (get_event_idx armpmu t1 (hw ev')).1.1) in *.
  destruct Hok as (Hlen & _).
  assert (Hne : i ≠ j).
  { intros Heq. subst t1. cbn [used_mask] in Hfree2. rewrite Hmask in Hfree2.
    unfold test_bit in Hfree2. rewrite set_bit_testbit in Hfree2 by lia.
    rewrite Heq, Z.eqb_refl, orb_true_r in Hfree2. discriminate Hfree2. }
  eexists _, ev2, (Z.to_nat i), (Z.to_nat j).
  rewrite Hc1 in Hp2. split; [exact Hp2 |]. split; [exact Hev2 |].
  split; [lia |]. cbn [events]. rewrite Hevents2. subst t1. cbn [events].
  rewrite Hevents. unfold ARMPMU_MAX_HWEVENTS in *. split; [| split].
  - rewrite list_lookup_insert_ne by lia.
    apply list_lookup_insert_eq. lia.
  - apply list_lookup_insert_eq. rewrite length_insert. lia.
  - lia.
Qed.

(** *** A failed add *)







(** *** The state flags of an event *)

Lemma armpmu_event_set_period_state event i w r w' ev :
  event_heap w !! event = Some ev →
  armpmu_event_set_period armpmu event i w = Some (r, w') →
  ∃ ev', event_heap w' !! event = Some ev'
         ∧ state (hw ev') = state (hw ev)
         ∧ pmu ev' = pmu ev
         ∧ idx (hw ev') = idx (hw ev).
Proof.
  intros Hev Hrun. unfold armpmu_event_set_period in Hrun.
  mstep Hrun as ev0 w0 Hd. apply event_deref_inv in Hd as [-> Hd].
  replace ev0 with ev in * by congruence.
  mstep Hrun as a w0 Ha. apply to_arm_pmu_inv in Ha as (-> & -> & _).
  cbv zeta in Hrun.
  repeat match type of Hrun with
         | context [if ?b then _ else _] => destruct b
         end;
    (mstep Hrun as u1 w1 Hmod;
     apply event_modify_inv in Hmod as (ev1 & Hev1 & ->);
     replace ev1 with ev in * by congruence;
     mstep Hrun as u2 w2 Hwr; inversion Hwr; subst u2 w2;
     inversion Hrun; subst r w';
     eexists; split; [apply event_store_lookup | repeat split]).
Qed.

Lemma armpmu_start_state event flags w u w' :
  armpmu_start armpmu event flags w = Some (u, w') →
  ∃ ev ev', event_heap w !! event = Some ev
            ∧ event_heap w' !! event = Some ev'
            ∧ state (hw ev') = 0
            ∧ pmu ev' = pmu ev
            ∧ idx (hw ev') = idx (hw ev).
Proof.
  intros Hrun. unfold armpmu_start in Hrun.
  mstep Hrun as ev w0 Hev. apply event_deref_inv in Hev as [-> Hev].
  mstep Hrun as a w0 Ha. apply to_arm_pmu_inv in Ha as (-> & -> & _).
  mstep Hrun as u1 w1 Hst. unfold hwc_modify in Hst.
  apply event_modify_inv in Hst as (ev0 & Hev0 & ->).
  replace ev0 with ev in * by congruence.
  mstep Hrun as r w2 Hset.
  destruct (armpmu_event_set_period_state event _ _ r w2 _
              (event_store_lookup event _ w) Hset)
    as (ev2 & Hev2 & Hstate & Hpmu & Hidx).
  mstep Hrun as ev3 w3 Hd. apply event_deref_inv in Hd as [-> Hd].
  inversion Hrun; subst u w'; clear Hrun.
  exists ev, ev2. split; [exact Hev |]. split; [exact Hev2 |].
  split; [rewrite Hstate; reflexivity |]. split; assumption.
Qed.

(** X10.  The state a successful add leaves: the event is running
    (state 0) when [PERF_EF_START] is among the flags, and stopped with
    an up-to-date count ([PERF_HES_STOPPED | PERF_HES_UPTODATE])
    otherwise. *)
Theorem armpmu_add_state event flags w w' :
  armpmu_add armpmu event flags w = Some (0, w') →
  ∃ ev', event_heap w' !! event = Some ev'
         ∧ state (hw ev')
           = if Z.land flags PERF_EF_START =? 0
             then Z.lor PERF_HES_STOPPED PERF_HES_UPTODATE
             else 0.
Proof.
  intros Hrun. unfold armpmu_add in Hrun.
  mstep Hrun as ev w0 Hev. apply event_deref_inv in Hev as [-> Hev].
  mstep Hrun as a w0 Ha. apply to_arm_pmu_inv in Ha as (-> & -> & _).
  mstep Hrun as u1 w1 Hdis.
  mstep Hrun as cpuc w2 Hget. apply get_hw_events_inv in Hget as [-> Hget].
  destruct (get_event_idx armpmu cpuc (hw ev)) as [[i cpuc1] hwc1].
  mstep Hrun as u2 w3 Hput. mstep Hrun as u3 w4 Hst.
  mstep Hrun as err0 w5 Hbody.
  mstep Hrun as u4 w6 Hen. apply perf_pmu_enable_frame in Hen.
  destruct Hen as (_ & _ & Hheap).
  inversion Hrun; subst err0 w6; clear Hrun. rewrite Hheap.
  destruct (Z.ltb_spec i 0) as [Hneg | Hpos];
    [inversion Hbody; lia |].
  mstep Hbody as u5 w7 Hx1. mstep Hbody as ev1 w8 Hx2.
  mstep Hbody as u6 w9 Hx3. mstep Hbody as u7 w10 Hx4.
  mstep Hbody as u8 w11 Hx5. mstep Hbody as u9 w12 Hx6.
  inversion Hbody; subst w12; clear Hbody.
  unfold hwc_modify in Hx5.
  apply event_modify_inv in Hx5 as (ev2 & Hev2 & ->).
  destruct (Z.land flags PERF_EF_START =? 0).
  - inversion Hx6; subst u9 w5; clear Hx6.
    eexists. split; [apply event_store_lookup | reflexivity].
  - apply armpmu_start_state in Hx6
      as (ev3 & ev4 & _ & Hev4 & Hstate & _).
    exists ev4. split; assumption.
Qed.

(** X11.  Start, then stop.  [armpmu_start] leaves the event running
    (state 0), so the [armpmu_stop] that follows is never skipped: it
    calls the backend's [disable] on the event's counter, reads the
    counter from the registers so disabled, accounts the delta against
    the shadow value (the count grows by it, [period_left] shrinks by
    it, the shadow value becomes what was read), and leaves the state
    exactly [PERF_HES_STOPPED | PERF_HES_UPTODATE].  Nothing else
    changes: no other event, no table. *)
Theorem armpmu_start_then_stop event flags flags' w u w1 u' w2 :
  armpmu_start armpmu event flags w = Some (u, w1) →
  armpmu_stop armpmu event flags' w1 = Some (u', w2) →
  ∃ ev1 ev2,
    event_heap w1 !! event = Some ev1
    ∧ state (hw ev1) = 0
    ∧ event_heap w2 !! event = Some ev2
    ∧ let i := idx (hw ev1) in
      let disabled := disable armpmu (hw ev1) i (regs w1) in
      let raw := wrap32 (read_counter armpmu i disabled).1 in
      let delta :=
        wrap64 (Z.land raw (max_period armpmu)
                - Z.land (prev_count (hw ev1)) (max_period armpmu)) in
      regs w2 = (read_counter armpmu i disabled).2
      ∧ prev_count (hw ev2) = raw
      ∧ count ev2 = wrap64 (count ev1 + delta)
      ∧ period_left (hw ev2) = to_s64 (period_left (hw ev1) - delta)
      ∧ state (hw ev2) = Z.lor PERF_HES_STOPPED PERF_HES_UPTODATE
      ∧ idx (hw ev2) = idx (hw ev1)
      ∧ sample_period (hw ev2) = sample_period (hw ev1)
      ∧ (∀ p, p ≠ event → event_heap w2 !! p = event_heap w1 !! p)
      ∧ percpu_hw_events w2 = percpu_hw_events w1
      ∧ this_cpu w2 = this_cpu w1.
Proof.
  intros Hstart Hstop.
  apply armpmu_start_state in Hstart
    as (ev & ev1 & _ & Hev1 & Hstate & _).
  exists ev1. unfold armpmu_stop in Hstop.
  mstep Hstop as ev0 w0 Hd. apply event_deref_inv in Hd as [-> Hd].
  replace ev0 with ev1 in * by congruence. clear Hd.
  mstep Hstop as a w0 Ha. apply to_arm_pmu_inv in Ha as (-> & -> & Hpmu).
  rewrite Hstate in Hstop. change (Z.land 0 PERF_HES_STOPPED =? 0) with true
    in Hstop. cbv iota in Hstop.
  mstep Hstop as u1 w3 Hdis. inversion Hdis; subst u1 w3; clear Hdis.
  mstep Hstop as r w4 Hupd.
  rewrite (armpmu_event_update_run armpmu event _ 0 _ ev1) in Hupd
    by assumption.
  inversion Hupd; subst r w4; clear Hupd.
  unfold hwc_modify in Hstop. rewrite event_modify_stored in Hstop.
  inversion Hstop; subst u' w2; clear Hstop.
  eexists. split; [exact Hev1 |]. split; [exact Hstate |].
  split; [apply event_store_lookup |].
  cbv zeta.
  cbn [hw set_hw state set_state accounted set_count set_period_left
       set_prev_count regs set_regs event_store set_event_heap
       percpu_hw_events this_cpu event_heap prev_count count period_left
       idx sample_period event_delta Z.eqb].
  rewrite Hstate.
  repeat split; try reflexivity.
  intros p Hp. apply lookup_insert_ne. congruence.
Qed.

(** *** Resuming an idle PMU *)

Lemma armpmu_enable_loop_empty cpuc indices enabled w :
  (∀ i, i ∈ indices → events cpuc !! Z.to_nat i = Some None) →
  armpmu_enable_loop armpmu cpuc indices enabled w = Some (enabled, w).
Proof.
  induction indices as [| i rest IH]; intros Hempty; simpl; [reflexivity |].
  rewrite (Hempty i) by (apply elem_of_cons; left; reflexivity).
  apply IH. intros j Hj. apply Hempty. apply elem_of_cons. right. exact Hj.
Qed.

(** X12.  Resuming a PMU that counts nothing writes nothing: when no
    counter below [num_events] holds an event on the current CPU,
    [armpmu_enable] returns with the world, registers included, as it
    was; the backend's [start] is not called. *)
Theorem armpmu_enable_idle w cpuc :
  percpu_hw_events w !! this_cpu w = Some cpuc →
  (∀ i, 0 <= i < num_events armpmu →
     events cpuc !! Z.to_nat i = Some None) →
  armpmu_enable armpmu (pmu_addr armpmu) w = Some (tt, w).
Proof.
  intros Hcpuc Hempty. unfold armpmu_enable.
  rewrite (bind_some _ _ _ _ _ (to_arm_pmu_some _ _)).
  rewrite (bind_some _ _ w cpuc w)
    by (unfold get_hw_events; rewrite Hcpuc; reflexivity).
  rewrite (bind_some _ _ w 0 w).
  - reflexivity.
  - apply armpmu_enable_loop_empty. intros i Hi. apply Hempty.
    apply elem_of_seqZ in Hi. lia.
Qed.

End SchedulingSteps.

(** ** Reservation and the count of live events *)

#[export] Instance keeps_count_preorder {H : Type} :
  PreOrder (@keeps_count H).
Proof.
  split.
  - intros w. reflexivity.
  - intros x y z Hxy Hyz. unfold keeps_count in *. congruence.
Qed.

#[export] Instance keeps_reservation_preorder {H : Type} :
  PreOrder (@keeps_reservation H).
Proof.
  split.
  - intros w. repeat split.
  - intros x y z (? & ? & ? & ?) (? & ? & ? & ?).
    repeat split; congruence.
Qed.

Lemma to_s32_small (z : Z) : - 2 ^ 31 <= z < 2 ^ 31 → to_s32 z = z.
Proof. intros Hz. unfold to_s32. rewrite Z.mod_small; lia. Qed.

Section ReservationSteps.

Context {H : Type}.
Variable armpmu : arm_pmu H.
Variable irq_env : irq_layer.
Implicit Types (w : world H) (event : ptr).

Local Abbreviation irqs :=
  (Z.min (num_resources (plat_device armpmu)) (num_possible_cpus irq_env)).

Lemma armpmu_release_irqs_count cpus :
  frame keeps_count (armpmu_release_irqs armpmu cpus).
Proof.
  induction cpus as [| i rest IH]; simpl.
  - apply frame_ret; typeclasses eauto.
  - apply frame_bind; [typeclasses eauto | |].
    + intros w a w' [= _ <-]. reflexivity.
    + intros active. apply frame_bind; [typeclasses eauto | |].
      * destruct active; [| apply frame_ret; typeclasses eauto].
        destruct (0 <=? platform_get_irq (plat_device armpmu) i).
        -- intros w a w' [= _ <-]. reflexivity.
        -- apply frame_ret; typeclasses eauto.
      * intros _. exact IH.
Qed.

Lemma armpmu_release_hardware_count :
  frame keeps_count (armpmu_release_hardware armpmu irq_env).
Proof.
  unfold armpmu_release_hardware.
  apply frame_bind; [typeclasses eauto | |].
  - apply armpmu_release_irqs_count.
  - intros _ w a w' [= _ <-]. reflexivity.
Qed.

Lemma armpmu_reserve_irqs_count n cpus :
  frame keeps_count (armpmu_reserve_irqs armpmu irq_env n cpus).
Proof.
  induction cpus as [| i rest IH]; simpl.
  - apply frame_ret; typeclasses eauto.
  - destruct (platform_get_irq (plat_device armpmu) i <? 0); [exact IH |].
    destruct (negb _ && _); [exact IH |].
    apply frame_bind; [typeclasses eauto | |].
    + intros w a w' Hrun. unfold do_request_irq in Hrun.
      destruct (request_irq irq_env _ =? 0); inversion Hrun; reflexivity.
    + intros err. destruct (negb (err =? 0)).
      * apply frame_bind; [typeclasses eauto | |].
        -- apply armpmu_release_hardware_count.
        -- intros _. apply frame_ret; typeclasses eauto.
      * apply frame_bind; [typeclasses eauto | |].
        -- intros w a w' [= _ <-]. reflexivity.
        -- intros _. exact IH.
Qed.

Lemma armpmu_reserve_hardware_count :
  frame keeps_count (armpmu_reserve_hardware armpmu irq_env).
Proof.
  unfold armpmu_reserve_hardware.
  apply frame_bind; [typeclasses eauto | |].
  - intros w a w' Hrun. unfold reserve_pmu in Hrun.
    destruct (pmu_reserved w); inversion Hrun; reflexivity.
  - intros err. destruct (negb (err =? 0));
      [apply frame_ret; typeclasses eauto |].
    destruct (_ <? 1); [apply frame_ret; typeclasses eauto |].
    apply armpmu_reserve_irqs_count.
Qed.

Lemma event_modify_keeps_reservation event (f : perf_event → perf_event) :
  frame (@keeps_reservation H) (event_modify event f).
Proof.
  intros w u w' Hrun. apply event_modify_inv in Hrun as (ev & Hev & ->).
  repeat split.
Qed.

Lemma validate_group_keeps_reservation event :
  frame (@keeps_reservation H) (validate_group armpmu event).
Proof.
  intros w r w' Hrun. apply validate_group_frame in Hrun as ->. reflexivity.
Qed.

Lemma hw_perf_event_init_keeps_reservation event :
  frame keeps_reservation (__hw_perf_event_init armpmu event).
Proof.
  unfold __hw_perf_event_init, hwc_modify.
  repeat lazymatch goal with
  | |- frame _ (_ ≫= _) => apply frame_bind; [typeclasses eauto | | intros ?]
  | |- frame _ (mret _) => apply frame_ret; typeclasses eauto
  | |- frame _ (event_deref _) => apply event_deref_frame; typeclasses eauto
  | |- frame _ (to_arm_pmu _ _) => apply to_arm_pmu_frame; typeclasses eauto
  | |- frame _ (event_modify _ _) => apply event_modify_keeps_reservation
  | |- frame _ (validate_group _ _) => apply validate_group_keeps_reservation
  | |- frame _ (if ?b then _ else _) => destruct b
  | |- frame _ (let '(_, _) := ?x in _) => destruct x
  | |- frame _ (match ?x with Some _ => _ | None => _ end) => destruct x
  end.
Qed.

Lemma held_lines_active_fields n w w' :
  irqs_held w' = irqs_held w →
  active_irqs w' = active_irqs w →
  held_lines_active armpmu n w → held_lines_active armpmu n w'.
Proof.
  intros Hheld Hact Hw irq Hirq. rewrite Hheld in Hirq.
  rewrite Hact. exact (Hw irq Hirq).
Qed.

Lemma nothing_reserved_held_lines n w :
  nothing_reserved w → held_lines_active armpmu n w.
Proof.
  intros [Hheld _] irq Hirq. rewrite Hheld in Hirq.
  apply elem_of_nil in Hirq. destruct Hirq.
Qed.

(** What a successful reservation holds. *)
Lemma armpmu_reserve_hardware_success w w1 :
  nothing_reserved w →
  armpmu_reserve_hardware armpmu irq_env w = Some (0, w1) →
  held_lines_active armpmu irqs w1 ∧ pmu_reserved w1 = true.
Proof.
  intros [Hheld Hres] Hrun. unfold armpmu_reserve_hardware in Hrun.
  mstep Hrun as err w0 Hpmu. unfold reserve_pmu in Hpmu.
  rewrite Hres in Hpmu. inversion Hpmu; subst err w0; clear Hpmu.
  cbn [Z.eqb negb] in Hrun.
  destruct (Z.ltb_spec irqs 1) as [Hlt | Hge];
    [inversion Hrun; unfold ENODEV in *; lia |].
  pose proof (reserve_irqs_all_or_nothing armpmu irq_env (seqZ 0 irqs)) as Hall.
  cbv zeta in Hall.
  destruct (Hall (λ c Hc, proj1 (elem_of_seqZ _ _ _) Hc)
              (set_pmu_reserved true w) 0 w1) as [Hok _].
  - intros irq Hirq. cbn [irqs_held set_pmu_reserved] in Hirq.
    rewrite Hheld in Hirq. apply elem_of_nil in Hirq. destruct Hirq.
  - exact Hrun.
  - destruct (Hok eq_refl) as [Hlines Hp]. split; [exact Hlines |].
    rewrite Hp. reflexivity.
Qed.

(** X13.  Reserving and releasing is a round trip: when
    [armpmu_reserve_hardware] succeeds on a machine that holds nothing,
    [armpmu_release_hardware] returns and leaves no interrupt line and
    no platform reservation behind. *)
Theorem armpmu_reserve_release_round_trip w w1 :
  nothing_reserved w →
  armpmu_reserve_hardware armpmu irq_env w = Some (0, w1) →
  ∃ w2, armpmu_release_hardware armpmu irq_env w1 = Some (tt, w2)
        ∧ nothing_reserved w2.
Proof.
  intros Hnone Hrun.
  destruct (armpmu_reserve_hardware_success w w1 Hnone Hrun) as [Hlines _].
  destruct (armpmu_release_hardware_returns armpmu irq_env w1)
    as ([] & w2 & Hrel & _).
  exists w2. split; [exact Hrel |].
  exact (release_hardware_frees_all armpmu irq_env w1 tt w2 Hlines Hrel).
Qed.

Lemma armpmu_reserve_irqs_skips n cpus w :
  (∀ i, i ∈ cpus →
     platform_get_irq (plat_device armpmu) i < 0
     ∨ (irq_set_affinity irq_env (platform_get_irq (plat_device armpmu) i) i
        ≠ 0 ∧ 1 < n)) →
  armpmu_reserve_irqs armpmu irq_env n cpus w = Some (0, w).
Proof.
  induction cpus as [| i rest IH]; intros Hskip; simpl; [reflexivity |].
  assert (Hrest : armpmu_reserve_irqs armpmu irq_env n rest w = Some (0, w)).
  { apply IH. intros c Hc. apply Hskip. apply elem_of_cons. right. exact Hc. }
  destruct (Z.ltb_spec (platform_get_irq (plat_device armpmu) i) 0)
    as [Hneg | Hpos]; [exact Hrest |].
  destruct (Hskip i (proj2 (elem_of_cons _ _ _) (or_introl eq_refl)))
    as [Hneg | [Haff Hsmp]]; [lia |].
  destruct (Z.eqb_spec
              (irq_set_affinity irq_env
                 (platform_get_irq (plat_device armpmu) i) i) 0)
    as [Heq | _]; [contradiction |].
  destruct (Z.ltb_spec 1 n) as [_ | Hle]; [| lia].
  exact Hrest.
Qed.

(** X14.  A reservation can succeed without a single interrupt: when
    every CPU's line is missing, or there is more than one line and the
    affinity of each could not be set, [armpmu_reserve_hardware] returns
    0 having requested no line; only the platform reservation is
    taken. *)
Theorem armpmu_reserve_hardware_no_line w :
  pmu_reserved w = false →
  1 <= irqs →
  (∀ i, 0 <= i < irqs →
     platform_get_irq (plat_device armpmu) i < 0
     ∨ (irq_set_affinity irq_env (platform_get_irq (plat_device armpmu) i) i
        ≠ 0 ∧ 1 < irqs)) →
  armpmu_reserve_hardware armpmu irq_env w
  = Some (0, set_pmu_reserved true w).
Proof.
  intros Hres Hirqs Hskip. unfold armpmu_reserve_hardware. cbv zeta.
  rewrite (bind_some _ _ w 0 (set_pmu_reserved true w))
    by (unfold reserve_pmu; rewrite Hres; reflexivity).
  cbn [Z.eqb negb].
  destruct (Z.ltb_spec irqs 1) as [Hlt | _]; [lia |].
  apply armpmu_reserve_irqs_skips. intros i Hi. apply Hskip.
  apply elem_of_seqZ in Hi. lia.
Qed.



(** *** The count of live events *)

Lemma hw_perf_event_destroy_cases event w u w' :
  1 <= active_events w < 2 ^ 31 →
  hw_perf_event_destroy armpmu irq_env event w = Some (u, w') →
  (active_events w = 1
   ∧ armpmu_release_hardware armpmu irq_env (set_active_events 0 w)
     = Some (tt, w'))
  ∨ (active_events w ≠ 1
     ∧ w' = set_active_events (active_events w - 1) w).
Proof.
  intros Hcount Hrun. unfold hw_perf_event_destroy in Hrun.
  mstep Hrun as ev w0 Hev. apply event_deref_inv in Hev as [-> Hev].
  mstep Hrun as a w0 Ha. apply to_arm_pmu_inv in Ha as (-> & -> & _).
  mstep Hrun as last w1 Hdec. unfold atomic_dec_and_mutex_lock in Hdec.
  rewrite to_s32_small in Hdec by lia.
  inversion Hdec; subst last w1; clear Hdec.
  destruct (Z.eqb_spec (active_events w - 1) 0) as [Hzero | Hmore].
  - left. split; [lia |]. rewrite Hzero in Hrun. destruct u. exact Hrun.
  - right. split; [lia |]. inversion Hrun. reflexivity.
Qed.

Lemma reservation_balanced_fields n w w' :
  active_events w' = active_events w →
  active_irqs w' = active_irqs w →
  irqs_held w' = irqs_held w →
  pmu_reserved w' = pmu_reserved w →
  reservation_balanced armpmu n w → reservation_balanced armpmu n w'.
Proof.
  intros Hc Ha Hh Hp (Hpos & Hlines & Hzero & Hlive).
  unfold reservation_balanced, nothing_reserved. rewrite Hc, Hh, Hp.
  split; [exact Hpos |]. split; [| split; assumption].
  exact (held_lines_active_fields n w w' Hh Ha Hlines).
Qed.

Lemma nothing_reserved_balanced n w :
  active_events w = 0 → nothing_reserved w →
  reservation_balanced armpmu n w.
Proof.
  intros Hc Hnone. split; [lia |]. split.
  - exact (nothing_reserved_held_lines n w Hnone).
  - split; [intros _; exact Hnone | lia].
Qed.

(** X16.  Destroying an event gives back what the last one holds: on a
    machine whose reservation is balanced, [hw_perf_event_destroy] takes
    one off the count of live events and leaves the reservation
    balanced; in particular the lines and the platform reservation are
    released exactly when the count reaches zero. *)
Theorem hw_perf_event_destroy_balanced event w u w' :
  reservation_balanced armpmu irqs w →
  1 <= active_events w < 2 ^ 31 →
  hw_perf_event_destroy armpmu irq_env event w = Some (u, w') →
  active_events w' = active_events w - 1
  ∧ reservation_balanced armpmu irqs w'
  ∧ (1 < active_events w →
     irqs_held w' = irqs_held w ∧ pmu_reserved w' = true).
Proof.
  intros Hbal Hcount Hrun.
  destruct (hw_perf_event_destroy_cases event w u w' Hcount Hrun)
    as [[Hone Hrel] | [Hmore ->]].
  - pose proof (armpmu_release_hardware_count _ _ _ Hrel) as Hc.
    unfold keeps_count in Hc. cbn [active_events set_active_events] in Hc.
    destruct Hbal as (_ & Hlines & _).
    assert (Hnone : nothing_reserved w').
    { refine (release_hardware_frees_all armpmu irq_env
                (set_active_events 0 w) tt w' _ Hrel).
      exact (held_lines_active_fields irqs w _ eq_refl eq_refl Hlines). }
    split; [lia |]. split; [| lia].
    apply nothing_reserved_balanced; assumption.
  - cbn [active_events set_active_events]. split; [reflexivity |].
    destruct Hbal as (Hpos & Hlines & Hzero & Hlive).
    split; [| intros _; split; [reflexivity | apply Hlive; lia]].
    split; [cbn [active_events set_active_events]; lia |].
    split; [exact Hlines |].
    split; cbn [active_events set_active_events]; intros Hc; [lia |].
    apply Hlive. lia.
Qed.

(** The part of [armpmu_event_init] after the reservation: the event is
    initialised and, when that fails, destroyed again. *)
Lemma event_init_tail_cases event w err w' :
  1 <= active_events w < 2 ^ 31 →
  (err ← __hw_perf_event_init armpmu event;
   (if negb (err =? 0) then hw_perf_event_destroy armpmu irq_env event
    else mret tt);;
   mret err) w = Some (err, w') →
  ∃ w1, keeps_reservation w w1
        ∧ (err = 0 ∧ w' = w1
           ∨ err ≠ 0
             ∧ hw_perf_event_destroy armpmu irq_env event w1 = Some (tt, w')).
Proof.
  intros Hcount Hrun.
  mstep Hrun as err0 w1 Hinit.
  pose proof (hw_perf_event_init_keeps_reservation event _ _ _ Hinit) as Hk.
  mstep Hrun as u w2 Hd. inversion Hrun; subst err0 w2; clear Hrun.
  exists w1. split; [exact Hk |].
  destruct (Z.eqb_spec err 0) as [-> | Hne]; cbn [negb] in Hd.
  - left. inversion Hd. split; reflexivity.
  - right. destruct u. split; assumption.
Qed.

(** X17.  [armpmu_event_init] counts the events it creates: the count of
    live events goes up by one when it returns 0 and is as before when
    it returns an error, whether the error comes from the mapping, the
    reservation or the initialisation of the event. *)
Theorem armpmu_event_init_counts event w err w' :
  0 <= active_events w < 2 ^ 31 - 1 →
  armpmu_event_init armpmu irq_env event w = Some (err, w') →
  active_events w' = active_events w + (if err =? 0 then 1 else 0).
Proof.
  intros Hcount Hrun. unfold armpmu_event_init in Hrun.
  mstep Hrun as ev w0 Hev. apply event_deref_inv in Hev as [-> Hev].
  mstep Hrun as a w0 Ha. apply to_arm_pmu_inv in Ha as (-> & -> & _).
  destruct (map_event armpmu ev =? - ENOENT).
  { inversion Hrun. subst. change (- ENOENT =? 0) with false. cbv iota. lia. }
  mstep Hrun as nonzero w1 Hinc. unfold atomic_inc_not_zero in Hinc.
  mstep Hrun as err0 w2 Hres.
  assert (Hafter : err0 ≠ 0 ∧ active_events w2 = active_events w
                   ∨ err0 = 0 ∧ active_events w2 = active_events w + 1).
  { destruct (Z.eqb_spec (active_events w) 0) as [Hzero | Hlive];
      inversion Hinc; subst nonzero w1; clear Hinc.
    - mstep Hres as n w3 Hn. inversion Hn; subst n w3; clear Hn.
      mstep Hres as err1 w3 Hr. rewrite Hzero in Hr. cbn [Z.eqb] in Hr.
      apply armpmu_reserve_hardware_count in Hr. unfold keeps_count in Hr.
      mstep Hres as u w4 Hi. inversion Hres; subst err1 w4; clear Hres.
      destruct (Z.eqb_spec err0 0) as [-> | Hne].
      + right. split; [reflexivity |]. inversion Hi.
        cbn [active_events set_active_events]. rewrite Hr, Hzero.
        reflexivity.
      + left. split; [exact Hne |]. inversion Hi; subst w3. exact Hr.
    - right. inversion Hres; subst err0 w2; clear Hres.
      split; [reflexivity |]. cbn [active_events set_active_events].
      apply to_s32_small. lia. }
  destruct Hafter as [[Hne Hc] | [-> Hc]].
  - destruct (Z.eqb_spec err0 0) as [? | _]; [contradiction |].
    cbn [negb] in Hrun. inversion Hrun; subst err w'.
    destruct (Z.eqb_spec err0 0) as [? | _]; [contradiction | lia].
  - cbn [Z.eqb negb] in Hrun.
    destruct (event_init_tail_cases event w2 err w' ltac:(lia) Hrun)
      as (w3 & (Hk & _) & [[-> ->] | [Hne Hd]]).
    + cbn [Z.eqb]. lia.
    + destruct (hw_perf_event_destroy_cases event w3 tt w' ltac:(lia) Hd)
        as [[Hone Hrel] | [Hmore ->]].
      * apply armpmu_release_hardware_count in Hrel.
        unfold keeps_count in Hrel.
        cbn [active_events set_active_events] in Hrel.
        destruct (Z.eqb_spec err 0) as [? | _]; [contradiction | lia].
      * cbn [active_events set_active_events].
        destruct (Z.eqb_spec err 0) as [? | _]; [contradiction | lia].
Qed.

(** X18.  [armpmu_event_init] keeps the reservation balanced on a
    platform with an interrupt line: whatever it returns, afterwards
    nothing is held when no event is alive, and the platform
    reservation is held when one is.  A creation that fails after the
    first reservation gives the hardware back. *)
Theorem armpmu_event_init_balanced event w err w' :
  reservation_balanced armpmu irqs w →
  active_events w < 2 ^ 31 - 1 →
  1 <= irqs →
  armpmu_event_init armpmu irq_env event w = Some (err, w') →
  reservation_balanced armpmu irqs w'.
Proof.
  intros Hbal Hcount Hirqs Hrun.
  assert (Hpos : 0 <= active_events w) by (destruct Hbal; assumption).
  unfold armpmu_event_init in Hrun.
  mstep Hrun as ev w0 Hev. apply event_deref_inv in Hev as [-> Hev].
  mstep Hrun as a w0 Ha. apply to_arm_pmu_inv in Ha as (-> & -> & _).
  destruct (map_event armpmu ev =? - ENOENT).
  { inversion Hrun. subst. exact Hbal. }
  mstep Hrun as nonzero w1 Hinc. unfold atomic_inc_not_zero in Hinc.
  mstep Hrun as err0 w2 Hres.
  assert (Hafter :
            err0 ≠ 0 ∧ reservation_balanced armpmu irqs w2
            ∨ err0 = 0 ∧ reservation_balanced armpmu irqs w2
              ∧ 1 <= active_events w2 < 2 ^ 31).
  { destruct (Z.eqb_spec (active_events w) 0) as [Hzero | Hlive];
      inversion Hinc; subst nonzero w1; clear Hinc.
    - destruct Hbal as (_ & _ & Hnone & _). specialize (Hnone Hzero).
      mstep Hres as n w3 Hn. inversion Hn; subst n w3; clear Hn.
      mstep Hres as err1 w3 Hr. rewrite Hzero in Hr. cbn [Z.eqb] in Hr.
      pose proof (armpmu_reserve_hardware_count _ _ _ Hr) as Hc.
      unfold keeps_count in Hc.
      mstep Hres as u w4 Hi. inversion Hres; subst err1 w4; clear Hres.
      destruct (Z.eqb_spec err0 0) as [-> | Hne].
      + right. split; [reflexivity |].
        destruct (armpmu_reserve_hardware_success w w3 Hnone Hr)
          as [Hlines Hp].
        inversion Hi. cbn [active_events set_active_events].
        rewrite Hc, Hzero. change (to_s32 (0 + 1)) with 1.
        split; [| lia]. split; [cbn [active_events set_active_events]; lia |].
        split; [exact Hlines |].
        split; cbn [active_events set_active_events]; intros Hx; [lia |].
        exact Hp.
      + left. split; [exact Hne |]. inversion Hi; subst w3.
        apply nothing_reserved_balanced; [lia |].
        destruct Hnone as [Hheld Hp].
        exact (armpmu_reserve_hardware_rolls_back armpmu irq_env w err0 w2
                 Hheld Hp Hirqs Hr Hne).
    - right. inversion Hres; subst err0 w2; clear Hres.
      split; [reflexivity |]. cbn [active_events set_active_events].
      rewrite to_s32_small by lia. split; [| lia].
      destruct Hbal as (_ & Hlines & _ & Hp).
      split; [cbn [active_events set_active_events]; lia |].
      split; [exact Hlines |].
      split; cbn [active_events set_active_events]; intros Hx; [lia |].
      apply Hp. lia. }
  destruct Hafter as [[Hne Hb] | (-> & Hb & Hc)].
  - destruct (Z.eqb_spec err0 0) as [? | _]; [contradiction |].
    cbn [negb] in Hrun. inversion Hrun; subst err w'. exact Hb.
  - cbn [Z.eqb negb] in Hrun.
    destruct (event_init_tail_cases event w2 err w' Hc Hrun)
      as (w3 & (Hk1 & Hk2 & Hk3 & Hk4) & Hcases).
    assert (Hb3 : reservation_balanced armpmu irqs w3)
      by exact (reservation_balanced_fields irqs w2 w3 Hk1 Hk2 Hk3 Hk4 Hb).
    destruct Hcases as [[-> ->] | [Hne Hd]]; [exact Hb3 |].
    destruct (hw_perf_event_destroy_cases event w3 tt w' ltac:(lia) Hd)
      as [[Hone Hrel] | [Hmore ->]].
    + pose proof (armpmu_release_hardware_count _ _ _ Hrel) as Hc'.
      unfold keeps_count in Hc'.
      cbn [active_events set_active_events] in Hc'.
      destruct Hb3 as (_ & Hlines & _).
      apply nothing_reserved_balanced; [exact Hc' |].
      refine (release_hardware_frees_all armpmu irq_env
                (set_active_events 0 w3) tt w' _ Hrel).
      exact (held_lines_active_fields irqs w3 _ eq_refl eq_refl Hlines).
    + destruct Hb3 as (_ & Hlines & _ & Hp).
      split; [cbn [active_events set_active_events]; lia |].
      split; [exact Hlines |].
      split; cbn [active_events set_active_events]; intros Hx; [lia |].
      apply Hp. lia.
Qed.

End ReservationSteps.

(** ** The results of the event mapping *)

Section MappingResults.

Variables CACHE_MAX OP_MAX RESULT_MAX : Z.

Local Abbreviation map_cpu_event' :=
  (map_cpu_event CACHE_MAX OP_MAX RESULT_MAX).

(** X19.  A raw event is never refused by the mapping: for
    [PERF_TYPE_RAW] and a mask below 2^31, [map_cpu_event] returns the
    configuration cut to the mask, a value between 0 and the mask,
    whatever the tables hold. *)
Theorem map_cpu_event_raw_within_mask config event_map cache_map mask :
  0 <= mask < 2 ^ 31 →
  map_cpu_event' PERF_TYPE_RAW config event_map cache_map mask
  = Some (Z.land config mask)
  ∧ 0 <= Z.land config mask <= mask.
Proof.
  intros Hmask. unfold map_cpu_event. cbn [PERF_TYPE_RAW Z.eqb Pos.eqb].
  unfold armpmu_map_raw_event.
  assert (Hr : 0 <= Z.land config mask <= mask)
    by (apply land_nonneg_bound; lia).
  rewrite to_s32_small by lia. split; [reflexivity | exact Hr].
Qed.

Lemma armpmu_map_event_defined event_map config :
  0 <= config →
  armpmu_map_event event_map config = None
  ↔ Z.of_nat (length event_map) <= config.
Proof.
  intros Hconfig. unfold armpmu_map_event.
  destruct (Z.ltb_spec config 0) as [Hneg | _]; [lia |].
  destruct (event_map !! Z.to_nat config) as [entry |] eqn:Hentry.
  - apply lookup_lt_Some in Hentry. split; [discriminate | lia].
  - apply lookup_ge_None in Hentry. split; [lia | reflexivity].
Qed.

(** X20.  The results of the mapping, one by one.  The event table is
    indexed by the unchecked configuration, so for a hardware event
    whose configuration is at or beyond the length of the table the
    read is out of bounds and the call undefined; for every other input
    [map_cpu_event] returns.  When it returns, with table entries and a
    mask below 2^31, the only negative results are [-ENOENT], and
    [-EINVAL] for a cache event one of whose three configuration bytes
    is at or above its bound. *)
Theorem map_cpu_event_failures attr_type config event_map cache_map mask :
  Forall (fun entry => 0 <= entry < 2 ^ 31) event_map →
  (∀ ct co cr, 0 <= cache_map ct co cr < 2 ^ 31) →
  0 <= mask < 2 ^ 31 →
  0 <= config →
  (map_cpu_event' attr_type config event_map cache_map mask = None
   ↔ attr_type = PERF_TYPE_HARDWARE
     ∧ Z.of_nat (length event_map) <= config)
  ∧ ∀ r,
      map_cpu_event' attr_type config event_map cache_map mask = Some r →
      r < 0 →
      r = - ENOENT
      ∨ (attr_type = PERF_TYPE_HW_CACHE
         ∧ r = - EINVAL
         ∧ (CACHE_MAX <= Z.land config 0xff
            ∨ OP_MAX <= Z.land (Z.shiftr config 8) 0xff
            ∨ RESULT_MAX <= Z.land (Z.shiftr config 16) 0xff)).
Proof.
  intros Hmap Hcache Hmask Hconfig. unfold map_cpu_event.
  destruct (Z.eqb_spec attr_type PERF_TYPE_HARDWARE) as [Hhw | Hnothw].
  { split.
    - rewrite (armpmu_map_event_defined event_map config Hconfig).
      split; [intros Hout; split; assumption | intros [_ Hout]; exact Hout].
    - intros r Hrun Hneg. left. unfold armpmu_map_event in Hrun.
      destruct (config <? 0); [discriminate Hrun |].
      destruct (event_map !! Z.to_nat config) as [entry |] eqn:Hentry;
        [| discriminate Hrun].
      assert (Hrange : 0 <= entry < 2 ^ 31)
        by exact (Forall_lookup_1 _ _ _ _ Hmap Hentry).
      cbv zeta in Hrun. rewrite to_s32_small in Hrun by lia.
      destruct (entry =? HW_OP_UNSUPPORTED); inversion Hrun; [reflexivity |].
      lia. }
  assert (Hsome : ∀ v : Z, Some v = None
                           ↔ attr_type = PERF_TYPE_HARDWARE
                             ∧ Z.of_nat (length event_map) <= config).
  { intros v. split; [discriminate | intros [Hhw _]; contradiction]. }
  destruct (Z.eqb_spec attr_type PERF_TYPE_HW_CACHE) as [Hty | _].
  { split; [apply Hsome |]. intros r [= <-].
    unfold armpmu_map_cache_event. rewrite Z.shiftr_0_r. cbv zeta.
    destruct (Z.leb_spec CACHE_MAX (Z.land config 255)) as [H1 | _];
      [intros _; right; auto |].
    destruct (Z.leb_spec OP_MAX (Z.land (Z.shiftr config 8) 255)) as [H2 | _];
      [intros _; right; auto |].
    destruct (Z.leb_spec RESULT_MAX (Z.land (Z.shiftr config 16) 255))
      as [H3 | _]; [intros _; right; auto |].
    destruct (_ =? CACHE_OP_UNSUPPORTED); [left; reflexivity |].
    match goal with |- context [cache_map ?a ?b ?c] =>
      specialize (Hcache a b c); set (entry := cache_map a b c) in * end.
    assert (Hw : wrap32 entry = entry)
      by (unfold wrap32; apply Z.mod_small; lia).
    rewrite Hw, to_s32_small by lia. lia. }
  destruct (attr_type =? PERF_TYPE_RAW).
  - split; [apply Hsome |]. intros r [= <-].
    unfold armpmu_map_raw_event.
    assert (Hr : 0 <= Z.land config mask <= mask)
      by (apply land_nonneg_bound; lia).
    rewrite to_s32_small by lia. lia.
  - split; [apply Hsome |]. intros r [= <-] _. left. reflexivity.
Qed.

End MappingResults.

(** ** The choice of the backend *)

Lemma land_shifted_mask (c m k : Z) :
  0 <= k → Z.land c (Z.shiftl m k) = Z.shiftl (Z.land (Z.shiftr c k) m) k.
Proof.
  intros Hk. apply Z.bits_inj'. intros n Hn. rewrite Z.land_spec.
  destruct (Z.ltb_spec n k) as [Hlow | Hhigh].
  - rewrite !Z.shiftl_spec_low by lia. apply andb_false_r.
  - rewrite !Z.shiftl_spec, Z.land_spec, Z.shiftr_spec by lia.
    replace (n - k + k) with n by lia. reflexivity.
Qed.

Lemma implementor_field (cpuid : Z) :
  Z.land cpuid 0xFF000000
  = Z.shiftl (Z.shiftr (Z.land cpuid 0xFF000000) 24) 24.
Proof.
  change 0xFF000000 with (Z.shiftl 0xFF 24).
  rewrite land_shifted_mask by lia.
  rewrite Z.shiftr_shiftl_l by lia. rewrite Z.shiftl_0_r. reflexivity.
Qed.

Lemma id_fields_arm (cpuid : Z) :
  Z.land cpuid 0xFF00FFF0
  = Z.lor (Z.shiftl (Z.shiftr (Z.land cpuid 0xFF000000) 24) 24)
          (Z.land cpuid 0xFFF0).
Proof.
  rewrite <- implementor_field, <- Z.land_lor_distr_r. reflexivity.
Qed.

Lemma id_fields_xscale (cpuid : Z) :
  Z.land cpuid 0xFF00E000
  = Z.lor (Z.shiftl (Z.shiftr (Z.land cpuid 0xFF000000) 24) 24)
          (Z.shiftl (Z.land (Z.shiftr cpuid 13) 0x7) 13).
Proof.
  rewrite <- implementor_field, <- land_shifted_mask by lia.
  rewrite <- Z.land_lor_distr_r. reflexivity.
Qed.

Lemma land_through_mask (cpuid mask field : Z) :
  Z.land mask field = field →
  Z.land cpuid field = Z.land (Z.land cpuid mask) field.
Proof. intros Hsub. rewrite <- Z.land_assoc, Hsub. reflexivity. Qed.

Lemma xscale_part_through_mask (cpuid : Z) :
  Z.land (Z.shiftr cpuid 13) 0x7
  = Z.land (Z.shiftr (Z.land cpuid 0xFF00E000) 13) 0x7.
Proof. rewrite Z.shiftr_land, <- Z.land_assoc. reflexivity. Qed.

Lemma init_hw_perf_events_masked (cpuid : Z) :
  init_hw_perf_events cpuid = init_hw_perf_events (Z.land cpuid 0xFF00FFF0).
Proof.
  unfold init_hw_perf_events.
  rewrite <- (land_through_mask cpuid 0xFF00FFF0 0xFF000000) by reflexivity.
  rewrite <- (land_through_mask cpuid 0xFF00FFF0 0xFFF0) by reflexivity.
  replace (Z.land (Z.shiftr (Z.land cpuid 0xFF00FFF0) 13) 0x7)
    with (Z.land (Z.shiftr cpuid 13) 0x7);
    [reflexivity |].
  rewrite Z.shiftr_land, <- Z.land_assoc. reflexivity.
Qed.

(** X21.  The choice of the backend reads the implementor and the part
    number only: two ID registers that agree on bits 24-31 and 4-15
    (that is, but for variant, architecture and revision) select the
    same backend, or both none. *)
Theorem init_hw_perf_events_ignores_revision (cpuid cpuid' : Z) :
  Z.land cpuid 0xFF00FFF0 = Z.land cpuid' 0xFF00FFF0 →
  init_hw_perf_events cpuid = init_hw_perf_events cpuid'.
Proof.
  intros Hsame.
  rewrite (init_hw_perf_events_masked cpuid),
          (init_hw_perf_events_masked cpuid'), Hsame.
  reflexivity.
Qed.

(** X22.  Which ID registers select which backend: an ARM Ltd
    implementor (0x41) with the part number of an ARM1136, 1156 or 1176
    selects the ARMv6 backend, ARM11MPCore, Cortex-A8, A9, A5 and A15
    each their own; an Intel implementor (0x69) selects the xscale1 or
    xscale2 backend by bits 13-15; every other register selects
    none. *)
Theorem init_hw_perf_events_decodes (cpuid : Z) (backend : pmu_backend) :
  init_hw_perf_events cpuid = Some backend ↔
  match backend with
  | armv6pmu_init =>
      Z.land cpuid 0xFF00FFF0 = 0x4100B360
      ∨ Z.land cpuid 0xFF00FFF0 = 0x4100B560
      ∨ Z.land cpuid 0xFF00FFF0 = 0x4100B760
  | armv6mpcore_pmu_init => Z.land cpuid 0xFF00FFF0 = 0x4100B020
  | armv7_a8_pmu_init => Z.land cpuid 0xFF00FFF0 = 0x4100C080
  | armv7_a9_pmu_init => Z.land cpuid 0xFF00FFF0 = 0x4100C090
  | armv7_a5_pmu_init => Z.land cpuid 0xFF00FFF0 = 0x4100C050
  | armv7_a15_pmu_init => Z.land cpuid 0xFF00FFF0 = 0x4100C0F0
  | xscale1pmu_init => Z.land cpuid 0xFF00E000 = 0x69002000
  | xscale2pmu_init => Z.land cpuid 0xFF00E000 = 0x69004000
  end.
Proof.
  split.
  - intros Hsel. pose proof (id_fields_arm cpuid) as Harm.
    pose proof (id_fields_xscale cpuid) as Hxscale.
    unfold init_hw_perf_events in Hsel. cbv zeta in Hsel.
    destruct (Z.eqb_spec 0x41 (Z.shiftr (Z.land cpuid 0xFF000000) 24))
      as [Himpl | _].
    + rewrite <- Himpl in Harm.
      repeat match type of Hsel with
             | context [?a =? ?b] =>
                 destruct (Z.eqb_spec a b) as [Hpart | _];
                 [rewrite Hpart in Harm |]
             end;
        cbn [orb] in Hsel; inversion Hsel; subst backend; auto.
    + destruct (Z.eqb_spec 0x69 (Z.shiftr (Z.land cpuid 0xFF000000) 24))
        as [Himpl | _]; [| discriminate].
      rewrite <- Himpl in Hxscale.
      repeat match type of Hsel with
             | context [?a =? ?b] =>
                 destruct (Z.eqb_spec a b) as [Hpart | _];
                 [rewrite Hpart in Hxscale |]
             end;
        inversion Hsel; subst backend; exact Hxscale.
  - intros Hid. destruct backend;
      [ rewrite init_hw_perf_events_masked;
        destruct Hid as [-> | [-> | ->]]; reflexivity
      | rewrite init_hw_perf_events_masked, Hid; reflexivity ..
      | | ];
      unfold init_hw_perf_events;
      rewrite (land_through_mask cpuid 0xFF00E000 0xFF000000) by reflexivity;
      rewrite xscale_part_through_mask, Hid; reflexivity.
Qed.

(** ** The walk over the user stack *)

Section CallchainWalk.

Context {perf_callchain_entry : Type}.
Variable nr : perf_callchain_entry → Z.
Variable perf_callchain_store : perf_callchain_entry → Z → perf_callchain_entry.
Variable PERF_MAX_STACK_DEPTH : Z.
Variable mem : user_memory.
Implicit Types (entry : perf_callchain_entry) (tail : Z).

Local Abbreviation backtrace := (user_backtrace perf_callchain_store mem).
Local Abbreviation loop :=
  (perf_callchain_user_loop nr perf_callchain_store PERF_MAX_STACK_DEPTH mem).

Lemma user_backtrace_cases tail entry next entry' :
  backtrace tail entry = (next, entry') →
  (next = 0 ∧ entry' = entry
   ∧ (access_ok mem tail sizeof_frame_tail = false
      ∨ copy_frame_tail mem tail = None))
  ∨ ∃ buftail,
      access_ok mem tail sizeof_frame_tail = true
      ∧ copy_frame_tail mem tail = Some buftail
      ∧ entry' = perf_callchain_store entry (lr buftail)
      ∧ (fp buftail <= wrap32 (tail + sizeof_frame_tail) ∧ next = 0
         ∨ wrap32 (tail + sizeof_frame_tail) < fp buftail
           ∧ next = wrap32 (fp buftail - sizeof_frame_tail)).
Proof.
  unfold user_backtrace.
  destruct (access_ok mem tail sizeof_frame_tail); cbn [negb];
    [| intros [= <- <-]; left; auto].
  destruct (copy_frame_tail mem tail) as [buftail |];
    [| intros [= <- <-]; left; auto].
  cbv zeta.
  destruct (Z.leb_spec (fp buftail) (wrap32 (tail + sizeof_frame_tail)));
    intros [= <- <-]; right; exists buftail; auto 10.
Qed.

Lemma perf_callchain_user_loop_null fuel entry : loop fuel 0 entry = Some entry.
Proof.
  destruct fuel; cbn [perf_callchain_user_loop Z.eqb negb];
    rewrite andb_false_r; reflexivity.
Qed.

Lemma perf_callchain_user_loop_step fuel tail entry :
  loop (S fuel) tail entry
  = if (nr entry <? PERF_MAX_STACK_DEPTH) && negb (tail =? 0)
       && (Z.land tail 0x3 =? 0)
    then loop fuel (backtrace tail entry).1 (backtrace tail entry).2
    else Some entry.
Proof.
  cbn [perf_callchain_user_loop]. destruct (backtrace tail entry).
  reflexivity.
Qed.

Lemma perf_callchain_user_loop_more fuel :
  ∀ tail entry entry' k,
    loop fuel tail entry = Some entry' →
    loop (fuel + k) tail entry = Some entry'.
Proof.
  induction fuel as [| fuel IH]; intros tail entry entry' k Hrun.
  - cbn [perf_callchain_user_loop] in Hrun. cbn [Nat.add].
    destruct ((nr entry <? PERF_MAX_STACK_DEPTH) && negb (tail =? 0)
              && (Z.land tail 0x3 =? 0)) eqn:Hagain; [discriminate |].
    destruct k; cbn [perf_callchain_user_loop]; rewrite Hagain; exact Hrun.
  - change (S fuel + k)%nat with (S (fuel + k)).
    rewrite perf_callchain_user_loop_step in *.
    destruct ((nr entry <? PERF_MAX_STACK_DEPTH) && negb (tail =? 0)
              && (Z.land tail 0x3 =? 0)); [| exact Hrun].
    apply IH. exact Hrun.
Qed.

(** X23.  Frame pointers strictly progress up the stack, as the comment
    in [user_backtrace] asks: in a memory whose accessible ranges lie
    within the address space, the pointer [user_backtrace] returns is
    NULL or an address strictly above the one it was given; and
    whenever it has read the record, its return address, and nothing
    else, has been stored. *)
Theorem user_backtrace_progress tail entry next entry' :
  user_memory_ok mem →
  backtrace tail entry = (next, entry') →
  (next = 0 ∨ tail < next < 2 ^ 32)
  ∧ (entry' = entry
     ∨ ∃ buftail, copy_frame_tail mem tail = Some buftail
                  ∧ entry' = perf_callchain_store entry (lr buftail)).
Proof.
  intros [Haccess Hword] Hrun.
  apply user_backtrace_cases in Hrun
    as [(-> & -> & _) | (buftail & Hok & Hcopy & -> & Hnext)];
    [split; left; reflexivity |].
  split; [| right; exists buftail; split; [exact Hcopy | reflexivity]].
  destruct Hnext as [[_ ->] | [Habove ->]]; [left; reflexivity |].
  right. specialize (Haccess tail Hok). specialize (Hword tail buftail Hcopy).
  unfold sizeof_frame_tail, wrap32 in *.
  rewrite Z.mod_small in Habove by lia. rewrite Z.mod_small by lia. lia.
Qed.

Lemma perf_callchain_user_loop_ascends fuel :
  user_memory_ok mem →
  ∀ tail entry,
    0 <= tail < 2 ^ 32 → 2 ^ 32 - tail <= Z.of_nat fuel →
    ∃ entry', loop fuel tail entry = Some entry'.
Proof.
  intros Hmem. induction fuel as [| fuel IH]; intros tail entry Hlo Hfuel;
    [cbn [Z.of_nat] in Hfuel; lia |].
  rewrite perf_callchain_user_loop_step.
  destruct ((nr entry <? PERF_MAX_STACK_DEPTH) && negb (tail =? 0)
            && (Z.land tail 0x3 =? 0)); [| eexists; reflexivity].
  destruct (backtrace tail entry) as [next entry1] eqn:Hstep.
  cbn [fst snd].
  destruct (user_backtrace_progress tail entry next entry1 Hmem Hstep)
    as [[-> | Hup] _].
  - eexists. apply perf_callchain_user_loop_null.
  - apply IH; lia.
Qed.

(** X24.  The walk ends: in a memory whose accessible ranges lie within
    the address space, [perf_callchain_user] leaves its loop from every
    frame pointer, whatever the stack holds and however deep the entry
    is; more iterations than it needs do not change what it returns. *)
Theorem perf_callchain_user_returns entry ARM_fp :
  user_memory_ok mem →
  ∃ fuel entry',
    ∀ k, perf_callchain_user nr perf_callchain_store PERF_MAX_STACK_DEPTH
           mem (fuel + k) entry ARM_fp = Some entry'.
Proof.
  intros Hmem. unfold perf_callchain_user. cbv zeta.
  set (tail := wrap32 (ARM_fp - sizeof_frame_tail)).
  assert (Htail : 0 <= tail < 2 ^ 32)
    by (apply Z.mod_pos_bound; lia).
  destruct (perf_callchain_user_loop_ascends (Z.to_nat (2 ^ 32 - tail)) Hmem
              tail entry Htail ltac:(lia)) as [entry' Hrun].
  exists (Z.to_nat (2 ^ 32 - tail)), entry'. intros k.
  apply perf_callchain_user_loop_more. exact Hrun.
Qed.

(** *** The depth of the chain *)

Lemma perf_callchain_user_loop_depth fuel :
  (∀ entry ip, nr entry < PERF_MAX_STACK_DEPTH →
               nr (perf_callchain_store entry ip) = nr entry + 1) →
  ∀ tail entry,
    PERF_MAX_STACK_DEPTH - nr entry <= Z.of_nat fuel →
    ∃ entry', loop fuel tail entry = Some entry'
              ∧ nr entry <= nr entry' <= Z.max (nr entry) PERF_MAX_STACK_DEPTH.
Proof.
  intros Hstore. induction fuel as [| fuel IH]; intros tail entry Hfuel.
  - cbn [perf_callchain_user_loop].
    destruct (Z.ltb_spec (nr entry) PERF_MAX_STACK_DEPTH) as [Hroom | _];
      [cbn [Z.of_nat] in Hfuel; lia |].
    cbn [andb]. exists entry. split; [reflexivity | lia].
  - rewrite perf_callchain_user_loop_step.
    destruct (Z.ltb_spec (nr entry) PERF_MAX_STACK_DEPTH) as [Hroom | _];
      cbn [andb]; [| exists entry; split; [reflexivity | lia]].
    destruct (negb (tail =? 0) && (Z.land tail 0x3 =? 0));
      [| exists entry; split; [reflexivity | lia]].
    destruct (backtrace tail entry) as [next entry1] eqn:Hstep.
    cbn [fst snd].
    apply user_backtrace_cases in Hstep
      as [(-> & -> & _) | (buftail & _ & _ & -> & _)].
    + exists entry. split; [apply perf_callchain_user_loop_null | lia].
    + specialize (Hstore entry (lr buftail) Hroom).
      destruct (IH next (perf_callchain_store entry (lr buftail)))
        as (entry' & Hrun & Hnr); [lia |].
      exists entry'. split; [exact Hrun | lia].
Qed.

(** X25.  The walk is bounded by the room in the entry: when each
    store into an entry that is not full counts one, the loop of
    [perf_callchain_user] is left after at most
    [PERF_MAX_STACK_DEPTH - nr] iterations, and the entry never grows
    past [PERF_MAX_STACK_DEPTH]. *)
Theorem perf_callchain_user_depth entry ARM_fp :
  (∀ entry ip, nr entry < PERF_MAX_STACK_DEPTH →
               nr (perf_callchain_store entry ip) = nr entry + 1) →
  ∃ entry',
    perf_callchain_user nr perf_callchain_store PERF_MAX_STACK_DEPTH mem
      (Z.to_nat (PERF_MAX_STACK_DEPTH - nr entry)) entry ARM_fp
    = Some entry'
    ∧ nr entry <= nr entry' <= Z.max (nr entry) PERF_MAX_STACK_DEPTH.
Proof.
  intros Hstore. unfold perf_callchain_user. cbv zeta.
  apply perf_callchain_user_loop_depth; [exact Hstore | lia].
Qed.

(** *** What the walk records *)

Lemma frame_chain_unique frames :
  ∀ tail frames',
    frame_chain mem tail frames → frame_chain mem tail frames' →
    frames' = frames.
Proof.
  induction frames as [| buftail rest IH]; intros tail frames' Hc Hc'.
  - destruct frames' as [| buftail' rest']; [reflexivity |].
    cbn [frame_chain] in Hc, Hc'.
    destruct Hc' as (Hnull & Halign & Hok & Hcopy & _).
    destruct Hc as [? | [? | [? | ?]]]; congruence.
  - destruct frames' as [| buftail' rest'].
    + cbn [frame_chain] in Hc, Hc'.
      destruct Hc as (Hnull & Halign & Hok & Hcopy & _).
      destruct Hc' as [? | [? | [? | ?]]]; congruence.
    + cbn [frame_chain] in Hc, Hc'.
      destruct Hc as (_ & _ & _ & Hcopy & Hnext).
      destruct Hc' as (_ & _ & _ & Hcopy' & Hnext').
      assert (buftail' = buftail) by congruence. subst buftail'.
      f_equal.
      destruct (fp buftail <=? wrap32 (tail + sizeof_frame_tail));
        [congruence |].
      exact (IH _ _ Hnext Hnext').
Qed.

Lemma frame_chain_exists fuel :
  user_memory_ok mem →
  ∀ tail, 0 <= tail < 2 ^ 32 → 2 ^ 32 - tail <= Z.of_nat fuel →
          ∃ frames, frame_chain mem tail frames.
Proof.
  intros Hmem. induction fuel as [| fuel IH]; intros tail Htail Hfuel;
    [cbn [Z.of_nat] in Hfuel; lia |].
  destruct (Z.eq_dec tail 0) as [Hnull | Hnull];
    [exists []; left; exact Hnull |].
  destruct (Z.eq_dec (Z.land tail 0x3) 0) as [Halign | Halign];
    [| exists []; right; left; exact Halign].
  destruct (access_ok mem tail sizeof_frame_tail) eqn:Hok;
    [| exists []; right; right; left; exact Hok].
  destruct (copy_frame_tail mem tail) as [buftail |] eqn:Hcopy;
    [| exists []; right; right; right; exact Hcopy].
  destruct (Z.leb_spec (fp buftail) (wrap32 (tail + sizeof_frame_tail)))
    as [Hstop | Hup].
  - exists [buftail]. cbn [frame_chain].
    rewrite (proj2 (Z.leb_le _ _) Hstop). auto 10.
  - destruct Hmem as [Haccess Hword].
    specialize (Haccess tail Hok). specialize (Hword tail buftail Hcopy).
    assert (Hnext : tail < wrap32 (fp buftail - sizeof_frame_tail) < 2 ^ 32).
    { unfold sizeof_frame_tail, wrap32 in *.
      rewrite Z.mod_small in Hup by lia. rewrite Z.mod_small by lia. lia. }
    destruct (IH (wrap32 (fp buftail - sizeof_frame_tail))) as [rest Hrest];
      [lia | lia |].
    exists (buftail :: rest). cbn [frame_chain].
    rewrite (proj2 (Z.leb_gt _ _) Hup). auto 10.
Qed.

Lemma perf_callchain_user_loop_records fuel :
  (∀ entry ip, nr entry < PERF_MAX_STACK_DEPTH →
               nr (perf_callchain_store entry ip) = nr entry + 1) →
  ∀ tail entry frames,
    frame_chain mem tail frames →
    PERF_MAX_STACK_DEPTH - nr entry <= Z.of_nat fuel →
    loop fuel tail entry
    = Some (fold_left perf_callchain_store
              (map lr (take (Z.to_nat (PERF_MAX_STACK_DEPTH - nr entry))
                         frames))
              entry).
Proof.
  intros Hstore.
  induction fuel as [| fuel IH]; intros tail entry frames Hchain Hfuel.
  - cbn [perf_callchain_user_loop].
    destruct (Z.ltb_spec (nr entry) PERF_MAX_STACK_DEPTH) as [Hroom | Hfull];
      [cbn [Z.of_nat] in Hfuel; lia |].
    cbn [andb]. replace (Z.to_nat (PERF_MAX_STACK_DEPTH - nr entry)) with 0%nat
      by lia.
    reflexivity.
  - rewrite perf_callchain_user_loop_step.
    destruct (Z.ltb_spec (nr entry) PERF_MAX_STACK_DEPTH) as [Hroom | Hfull];
      cbn [andb].
    2: { replace (Z.to_nat (PERF_MAX_STACK_DEPTH - nr entry)) with 0%nat
           by lia.
         reflexivity. }
    destruct (Z.to_nat (PERF_MAX_STACK_DEPTH - nr entry)) as [| room] eqn:Hn;
      [lia |].
    destruct frames as [| buftail rest]; cbn [frame_chain] in Hchain.
    + cbn [take map fold_left].
      destruct (Z.eqb_spec tail 0) as [Hnull | Hnull]; cbn [negb andb];
        [reflexivity |].
      destruct (Z.eqb_spec (Z.land tail 0x3) 0) as [Halign | Halign];
        [| reflexivity].
      assert (Hstep : backtrace tail entry = (0, entry)).
      { unfold user_backtrace.
        destruct Hchain as [? | [? | [Hok | Hcopy]]]; try contradiction.
        - rewrite Hok. reflexivity.
        - rewrite Hcopy. destruct (access_ok mem tail sizeof_frame_tail);
            reflexivity. }
      rewrite Hstep. apply perf_callchain_user_loop_null.
    + destruct Hchain as (Hnull & Halign & Hok & Hcopy & Hnext).
      destruct (Z.eqb_spec tail 0) as [? | _]; [contradiction |].
      rewrite Halign. cbn [negb andb Z.eqb].
      specialize (Hstore entry (lr buftail) Hroom).
      cbn [take map fold_left].
      replace room
        with (Z.to_nat (PERF_MAX_STACK_DEPTH
                        - nr (perf_callchain_store entry (lr buftail))))
        by lia.
      unfold user_backtrace. rewrite Hok, Hcopy. cbn [negb]. cbv zeta.
      destruct (fp buftail <=? wrap32 (tail + sizeof_frame_tail)).
      * subst rest. cbn [fst snd]. rewrite take_nil. cbn [map fold_left].
        apply perf_callchain_user_loop_null.
      * cbn [fst snd]. apply IH; [exact Hnext | lia].
Qed.

(** X26.  What a walk records.  In a memory whose accessible ranges lie
    within the address space there is exactly one chain of records
    from the address just below the frame pointer (each record read at
    a non-NULL, word-aligned, accessible address, each pointing above
    itself to the next, up to the first that does not).  When each
    store into an entry that is not full counts one,
    [perf_callchain_user] returns, and what it returns is the entry
    with the return addresses of the first
    [PERF_MAX_STACK_DEPTH - nr] records of that chain stored, in
    order, and nothing else. *)
Theorem perf_callchain_user_records entry ARM_fp :
  user_memory_ok mem →
  (∀ entry ip, nr entry < PERF_MAX_STACK_DEPTH →
               nr (perf_callchain_store entry ip) = nr entry + 1) →
  let tail := wrap32 (ARM_fp - sizeof_frame_tail) in
  let room := Z.to_nat (PERF_MAX_STACK_DEPTH - nr entry) in
  ∃ frames,
    frame_chain mem tail frames
    ∧ (∀ frames', frame_chain mem tail frames' → frames' = frames)
    ∧ ∀ k,
        perf_callchain_user nr perf_callchain_store PERF_MAX_STACK_DEPTH mem
          (room + k) entry ARM_fp
        = Some (fold_left perf_callchain_store (map lr (take room frames))
                  entry).
Proof.
  intros Hmem Hstore tail room.
  assert (Htail : 0 <= tail < 2 ^ 32) by (apply Z.mod_pos_bound; lia).
  destruct (frame_chain_exists (Z.to_nat (2 ^ 32 - tail)) Hmem tail Htail
              ltac:(lia)) as [frames Hchain].
  exists frames. split; [exact Hchain |]. split.
  - intros frames' Hchain'.
    exact (frame_chain_unique frames tail frames' Hchain Hchain').
  - intros k. unfold perf_callchain_user. cbv zeta. fold tail.
    apply perf_callchain_user_loop_more.
    apply perf_callchain_user_loop_records; [exact Hstore | exact Hchain |].
    subst room. lia.
Qed.

End CallchainWalk.

(** ** The default period *)

Section DefaultPeriod.

Context {H : Type}.
Variable armpmu : arm_pmu H.
Implicit Types (w : world H) (event : ptr).

Lemma hw_perf_event_init_success event w0 ev0 w :
  event_heap w0 !! event = Some ev0 →
  pmu ev0 = pmu_addr armpmu →
  __hw_perf_event_init armpmu event w0 = Some (0, w) →
  w = event_store event (set_hw (configured_hw armpmu ev0) ev0) w0.
Proof.
  intros Hev Hpmu Hrun.
  rewrite (hw_perf_event_init_run armpmu event w0 ev0 Hev Hpmu) in Hrun.
  destruct (Z.ltb_spec (map_event armpmu ev0) 0) as [Hneg | _];
    [inversion Hrun; lia |].
  destruct (mode_exclusion_refused armpmu ev0); [discriminate Hrun |].
  cbv zeta in Hrun.
  destruct (bool_decide (group_leader ev0 = event));
    [inversion Hrun; reflexivity |].
  destruct (validate_group armpmu event _) as [[rv w2] |] eqn:Hgroup;
    [| discriminate Hrun].
  apply validate_group_frame in Hgroup. inversion Hrun. congruence.
Qed.

(** X27.  An event created without a sample period counts over the full
    range of the counter: a successful [__hw_perf_event_init] gives it
    [max_period] as its period, and the first
    [armpmu_event_set_period] then reports no new period (returns 0)
    and writes the 32-bit negation of [max_period], so that the counter
    overflows after [max_period] ticks. *)
Theorem default_period_is_full_range event i w0 ev0 w :
  event_heap w0 !! event = Some ev0 →
  pmu ev0 = pmu_addr armpmu →
  sample_period (filtered_hw armpmu ev0) = 0 →
  1 <= max_period armpmu < 2 ^ 32 →
  __hw_perf_event_init armpmu event w0 = Some (0, w) →
  ∃ ev w',
    event_heap w !! event = Some ev
    ∧ sample_period (hw ev) = max_period armpmu
    ∧ last_period (hw ev) = max_period armpmu
    ∧ period_left (hw ev) = max_period armpmu
    ∧ armpmu_event_set_period armpmu event i w = Some (0, w')
    ∧ regs w' = write_counter armpmu i (wrap32 (- max_period armpmu)) (regs w).
Proof.
  intros Hev Hpmu Hzero Hmax Hrun.
  rewrite (hw_perf_event_init_success event w0 ev0 w Hev Hpmu Hrun).
  set (ev := set_hw (configured_hw armpmu ev0) ev0).
  assert (Hs64 : to_s64 (max_period armpmu) = max_period armpmu)
    by (apply to_s64_small; lia).
  assert (Hfields : sample_period (hw ev) = max_period armpmu
                    ∧ last_period (hw ev) = max_period armpmu
                    ∧ period_left (hw ev) = max_period armpmu).
  { subst ev. cbn [hw set_hw]. unfold configured_hw. cbv zeta.
    cbn [sample_period set_config_base]. rewrite Hzero.
    cbn [Z.eqb sample_period last_period period_left set_period_left
         set_last_period set_sample_period].
    rewrite Hs64. auto. }
  destruct Hfields as (Hperiod & Hlast & Hleft).
  exists ev. eexists.
  split; [apply event_store_lookup |].
  split; [exact Hperiod |]. split; [exact Hlast |]. split; [exact Hleft |].
  rewrite (armpmu_event_set_period_run armpmu event i _ ev
             (event_store_lookup event ev w0) Hpmu)
    by (rewrite ?Hperiod, ?Hleft, ?Hs64; lia).
  rewrite Hperiod, Hleft, Hs64.
  destruct (Z.leb_spec (max_period armpmu) 0) as [Hle | _]; [lia |].
  split; [reflexivity |].
  cbn [regs set_regs]. unfold programmed_ticks, next_period_left.
  destruct (Z.leb_spec (max_period armpmu) (- max_period armpmu)); [lia |].
  destruct (Z.leb_spec (max_period armpmu) 0); [lia |].
  rewrite Hs64, Z.min_id. reflexivity.
Qed.

End DefaultPeriod.

(** ** Sample runs *)



Lemma sample_user_memory_ok : user_memory_ok sample_user_memory.
Proof.
  split.
  - intros a Hok. cbn [access_ok sample_user_memory] in Hok.
    apply andb_prop in Hok as [Hlo Hhi].
    apply Z.leb_le in Hlo, Hhi. unfold sizeof_frame_tail in *. lia.
  - intros a buftail Hcopy. cbn [copy_frame_tail sample_user_memory] in Hcopy.
    repeat match type of Hcopy with
           | context [if ?b then _ else _] => destruct b
           end;
      inversion Hcopy; cbn [fp]; lia.
Qed.

Lemma sample_callchain_store_counts (depth : Z) (entry : list Z) (ip : Z) :
  Z.of_nat (length entry) < depth →
  Z.of_nat (length (sample_callchain_store depth entry ip))
  = Z.of_nat (length entry) + 1.
Proof.
  intros Hroom. unfold sample_callchain_store.
  destruct (Z.ltb_spec (Z.of_nat (length entry)) depth) as [_ | Hfull];
    [| lia].
  cbn [length]. lia.
Qed.

(** Closes a goal or refutes a hypothesis about a run of the sample
    machine by evaluating it. *)
Ltac by_evaluation :=
  repeat split; vm_compute; first [reflexivity | discriminate].
Ltac absurd_run H := vm_compute in H; discriminate H.

Lemma event_update_tracks_counter_witness :
  match armpmu_event_update (sample_pmu 2 sample_device) 1%nat 0 1
          (sample_world_with
             {[1%nat := sample_event_with
                          (sample_hw_with 0 1000 500 (2 ^ 32 - 1 - 10))]}
             [RegWrite 0 5]) with
  | Some (r, w') =>
      ∃ ev', event_heap w' !! 1%nat = Some ev'
             ∧ wrap64 (count ev' - r)
               = wrap64 (0 - (2 ^ 32 - 1 - 10) + 2 ^ 32)
  | None => False
  end.
Proof.
  destruct (armpmu_event_update _ _ _ _ _) as [[r w'] |] eqn:Hrun;
    [| absurd_run Hrun].
  destruct (event_update_tracks_counter (sample_pmu 2 sample_device)
              1%nat 0 1
              (sample_world_with
                 {[1%nat := sample_event_with
                              (sample_hw_with 0 1000 500 (2 ^ 32 - 1 - 10))]}
                 [RegWrite 0 5])
              (sample_event_with
                 (sample_hw_with 0 1000 500 (2 ^ 32 - 1 - 10)))
              r w')
    as (ev' & Hev' & _ & Hcount & _);
    [reflexivity | reflexivity | exact Hrun |].
  exists ev'. split; [exact Hev' | exact Hcount].
Defined.

Lemma armpmu_read_idle_counter_witness :
  ∃ w', armpmu_read (sample_pmu 2 sample_device) 1%nat
          (sample_world_with
             {[1%nat := sample_event_with (sample_hw_with 0 1000 500 5)]}
             [RegWrite 0 5]) = Some (tt, w')
        ∧ event_heap w'
          = {[1%nat := sample_event_with (sample_hw_with 0 1000 500 5)]}.
Proof.
  destruct (armpmu_read_idle_counter (sample_pmu 2 sample_device) 1%nat
              (sample_world_with
                 {[1%nat := sample_event_with (sample_hw_with 0 1000 500 5)]}
                 [RegWrite 0 5])
              (sample_event_with (sample_hw_with 0 1000 500 5)))
    as (w' & Hrun & Hheap & _); try by_evaluation.
  exists w'. split; [exact Hrun | exact Hheap].
Defined.

Lemma event_set_period_overflow_distance_witness :
  match armpmu_event_set_period (sample_pmu 2 sample_device) 1%nat 0
          (sample_world_with
             {[1%nat := sample_event_with (sample_hw_with 0 1000 0 0)]} [])
  with
  | Some (r, w') =>
      ∃ ev' written,
        event_heap w' !! 1%nat = Some ev'
        ∧ regs w' = [RegWrite 0 written]
        ∧ wrap32 (written + Z.min (period_left (hw ev')) (2 ^ 32 - 1)) = 0
  | None => False
  end.
Proof.
  destruct (armpmu_event_set_period _ _ _ _) as [[r w'] |] eqn:Hrun;
    [| absurd_run Hrun].
  destruct (event_set_period_overflow_distance (sample_pmu 2 sample_device)
              1%nat 0
              (sample_world_with
                 {[1%nat := sample_event_with (sample_hw_with 0 1000 0 0)]}
                 [])
              (sample_event_with (sample_hw_with 0 1000 0 0)) r w')
    as (ev' & ticks & written & Hev' & Hregs & _ & Hticks & _ & _ & Hwrap & _);
    [by_evaluation .. | exact Hrun |].
  exists ev', written. rewrite Hticks in Hwrap.
  split; [exact Hev' |]. split; [exact Hregs | exact Hwrap].
Defined.

Lemma event_set_period_twice_witness :
  match armpmu_event_set_period (sample_pmu 2 sample_device) 1%nat 0
          (sample_world_with
             {[1%nat := sample_event_with (sample_hw_with 0 1000 0 0)]} [])
  with
  | Some (r, w1) =>
      ∃ w2, armpmu_event_set_period (sample_pmu 2 sample_device) 1%nat 0 w1
            = Some (0, w2)
            ∧ event_heap w2 = event_heap w1
  | None => False
  end.
Proof.
  destruct (armpmu_event_set_period _ _ _ _) as [[r w1] |] eqn:Hrun;
    [| absurd_run Hrun].
  destruct (event_set_period_twice (sample_pmu 2 sample_device)
              1%nat 0
              (sample_world_with
                 {[1%nat := sample_event_with (sample_hw_with 0 1000 0 0)]}
                 [])
              (sample_event_with (sample_hw_with 0 1000 0 0)) r w1)
    as (written & w2 & _ & Hagain & Hheap & _);
    [by_evaluation .. | exact Hrun |].
  exists w2. split; [exact Hagain | exact Hheap].
Defined.


Lemma armpmu_stop_twice_witness :
  match armpmu_stop (sample_pmu 2 sample_device) 1%nat 0
          (sample_world_with
             {[1%nat := sample_event_with (sample_hw_with 0 1000 500 5)]}
             [RegWrite 0 9]) with
  | Some (_, w1) =>
      armpmu_stop (sample_pmu 2 sample_device) 1%nat PERF_EF_UPDATE w1
      = Some (tt, w1)
  | None => False
  end.
Proof.
  destruct (armpmu_stop _ _ _ _) as [[u w1] |] eqn:Hrun; [| absurd_run Hrun].
  exact (proj2 (armpmu_stop_twice (sample_pmu 2 sample_device) 1%nat 0
                  PERF_EF_UPDATE _ u w1 Hrun)).
Defined.

Lemma armpmu_add_del_restores_table_witness :
  match armpmu_add (sample_pmu 2 sample_device) 1%nat PERF_EF_START
          (sample_world_with {[1%nat := sample_event 1%nat [] 5 false]} [])
  with
  | Some (_, w1) =>
      match armpmu_del (sample_pmu 2 sample_device) 1%nat 0 w1 with
      | Some (_, w2) =>
          percpu_hw_events w2 = percpu_hw_events sample_world
      | None => False
      end
  | None => False
  end.
Proof.
  destruct (armpmu_add _ _ _ _) as [[err w1] |] eqn:Hadd;
    [| absurd_run Hadd].
  assert (Herr : err = 0) by (vm_compute in Hadd; congruence).
  subst err.
  destruct (armpmu_del _ _ _ w1) as [[u w2] |] eqn:Hdel.
  - refine (proj1 (armpmu_add_del_restores_table (sample_pmu 2 sample_device)
                     1%nat PERF_EF_START 0
                     (sample_world_with
                        {[1%nat := sample_event 1%nat [] 5 false]} [])
                     zeroed_cpu_hw_events w1 u w2
                     (sample_pmu_allocator_frame 2 sample_device)
                     (sample_pmu_allocator_test_and_set 2 sample_device _)
                     _ (table_ok_zeroed _) Hadd Hdel));
      [by_evaluation | reflexivity].
  - vm_compute in Hadd. inversion Hadd; subst w1. absurd_run Hdel.
Defined.

Lemma armpmu_add_twice_distinct_witness :
  match armpmu_add (sample_pmu 2 sample_device) 1%nat 0
          (sample_world_with
             {[1%nat := sample_event 1%nat [] 5 false;
               2%nat := sample_event 2%nat [] 6 false]} [])
  with
  | Some (_, w1) =>
      match armpmu_add (sample_pmu 2 sample_device) 2%nat 0 w1 with
      | Some (_, w2) =>
          ∃ cpuc2 i j,
            percpu_hw_events w2 !! 0%nat = Some cpuc2
            ∧ i ≠ j
            ∧ events cpuc2 !! i = Some (Some 1%nat)
            ∧ events cpuc2 !! j = Some (Some 2%nat)
      | None => False
      end
  | None => False
  end.
Proof.
  destruct (armpmu_add _ 1%nat _ _) as [[err1 w1] |] eqn:Hadd1;
    [| absurd_run Hadd1].
  assert (Herr1 : err1 = 0) by (vm_compute in Hadd1; congruence).
  subst err1.
  destruct (armpmu_add _ 2%nat _ w1) as [[err2 w2] |] eqn:Hadd2.
  - assert (Herr2 : err2 = 0).
    { vm_compute in Hadd1. inversion Hadd1; subst w1.
      vm_compute in Hadd2. congruence. }
    subst err2.
    destruct (armpmu_add_twice_distinct (sample_pmu 2 sample_device)
                1%nat 2%nat 0 0
                (sample_world_with
                   {[1%nat := sample_event 1%nat [] 5 false;
                     2%nat := sample_event 2%nat [] 6 false]} [])
                zeroed_cpu_hw_events w1 w2
                (sample_pmu_allocator_frame 2 sample_device)
                (sample_pmu_allocator_test_and_set 2 sample_device
                   ltac:(by_evaluation)))
      as (cpuc2 & ev2 & i & j & Hcpuc & _ & Hne & Hi & Hj & _);
      [reflexivity | apply table_ok_zeroed | exact Hadd1 | exact Hadd2 |].
    exists cpuc2, i, j. auto.
  - vm_compute in Hadd1. inversion Hadd1; subst w1. absurd_run Hadd2.
Defined.


Lemma armpmu_reserve_release_round_trip_witness :
  match armpmu_reserve_hardware (sample_pmu 2 sample_device)
          sample_irq_layer sample_world with
  | Some (_, w1) =>
      ∃ w2, armpmu_release_hardware (sample_pmu 2 sample_device)
              sample_irq_layer w1 = Some (tt, w2)
            ∧ nothing_reserved w2
  | None => False
  end.
Proof.
  destruct (armpmu_reserve_hardware _ _ _) as [[err w1] |] eqn:Hres;
    [| absurd_run Hres].
  assert (Herr : err = 0) by (vm_compute in Hres; congruence).
  subst err.
  refine (armpmu_reserve_release_round_trip (sample_pmu 2 sample_device)
            sample_irq_layer sample_world w1 _ Hres).
  by_evaluation.
Defined.

Lemma armpmu_reserve_hardware_no_line_witness :
  armpmu_reserve_hardware (sample_pmu 2 absent_irq_device) sample_irq_layer
    sample_world
  = Some (0, set_pmu_reserved true sample_world).
Proof.
  apply (armpmu_reserve_hardware_no_line (sample_pmu 2 absent_irq_device)
           sample_irq_layer sample_world).
  - reflexivity.
  - by_evaluation.
  - intros i _. left. reflexivity.
Defined.


Lemma hw_perf_event_destroy_balanced_witness :
  match hw_perf_event_destroy (sample_pmu 2 sample_device) sample_irq_layer
          1%nat
          (sample_world_full {[1%nat := sample_event 1%nat [] 5 false]} []
             1 0 [] true) with
  | Some (_, w') => active_events w' = 0 ∧ nothing_reserved w'
  | None => False
  end.
Proof.
  destruct (hw_perf_event_destroy _ _ _ _) as [[u w'] |] eqn:Hrun;
    [| absurd_run Hrun].
  destruct (hw_perf_event_destroy_balanced (sample_pmu 2 sample_device)
              sample_irq_layer 1%nat
              (sample_world_full {[1%nat := sample_event 1%nat [] 5 false]}
                 [] 1 0 [] true) u w')
    as (Hcount & (_ & _ & Hnone & _) & _);
    [| by_evaluation | exact Hrun |].
  - split; [by_evaluation |]. split.
    + intros irq Hirq. apply elem_of_nil in Hirq. destruct Hirq.
    + split; [intros Hzero; vm_compute in Hzero; discriminate Hzero |].
      intros _. reflexivity.
  - split; [exact Hcount | exact (Hnone Hcount)].
Defined.

Lemma armpmu_event_init_counts_witness :
  match armpmu_event_init (sample_pmu 2 sample_device) sample_irq_layer
          1%nat
          (sample_world_with {[1%nat := sample_event 1%nat [] 5 true]} [])
  with
  | Some (err, w') => active_events w' = if err =? 0 then 1 else 0
  | None => False
  end.
Proof.
  destruct (armpmu_event_init _ _ _ _) as [[err w'] |] eqn:Hrun;
    [| absurd_run Hrun].
  refine (armpmu_event_init_counts (sample_pmu 2 sample_device)
            sample_irq_layer 1%nat _ err w' _ Hrun).
  by_evaluation.
Defined.

Lemma armpmu_event_init_balanced_witness :
  match armpmu_event_init (sample_pmu 2 sample_device) sample_irq_layer
          1%nat
          (sample_world_with {[1%nat := sample_event 1%nat [] 5 true]} [])
  with
  | Some (_, w') => reservation_balanced (sample_pmu 2 sample_device) 2 w'
  | None => False
  end.
Proof.
  destruct (armpmu_event_init _ _ _ _) as [[err w'] |] eqn:Hrun;
    [| absurd_run Hrun].
  refine (armpmu_event_init_balanced (sample_pmu 2 sample_device)
            sample_irq_layer 1%nat _ err w' _ _ _ Hrun);
    [| by_evaluation ..].
  split; [by_evaluation |]. split.
  - intros irq Hirq. apply elem_of_nil in Hirq. destruct Hirq.
  - split; [intros _; split; reflexivity |].
    intros Hlive. vm_compute in Hlive. discriminate Hlive.
Defined.

Lemma armpmu_add_state_witness :
  match armpmu_add (sample_pmu 2 sample_device) 1%nat 0
          (sample_world_with {[1%nat := sample_event 1%nat [] 5 false]} [])
  with
  | Some (_, w') =>
      ∃ ev', event_heap w' !! 1%nat = Some ev' ∧ state (hw ev') = 3
  | None => False
  end.
Proof.
  destruct (armpmu_add _ _ _ _) as [[err w'] |] eqn:Hadd;
    [| absurd_run Hadd].
  assert (Herr : err = 0) by (vm_compute in Hadd; congruence).
  subst err.
  exact (armpmu_add_state (sample_pmu 2 sample_device) 1%nat 0 _ w' Hadd).
Defined.

Lemma armpmu_start_then_stop_witness :
  match armpmu_start (sample_pmu 2 sample_device) 1%nat PERF_EF_RELOAD
          (sample_world_with
             {[1%nat := sample_event_with (sample_hw_with 0 1000 500 5)]}
             []) with
  | Some (_, w1) =>
      match armpmu_stop (sample_pmu 2 sample_device) 1%nat PERF_EF_UPDATE w1
      with
      | Some (_, w2) =>
          ∃ ev2, event_heap w2 !! 1%nat = Some ev2
                 ∧ state (hw ev2) = 3
                 ∧ regs w2 = RegRead 0 :: RegDisable 0 :: regs w1
      | None => False
      end
  | None => False
  end.
Proof.
  destruct (armpmu_start _ _ _ _) as [[u w1] |] eqn:Hstart;
    [| absurd_run Hstart].
  destruct (armpmu_stop _ _ _ w1) as [[u' w2] |] eqn:Hstop.
  - destruct (armpmu_start_then_stop (sample_pmu 2 sample_device) 1%nat
                PERF_EF_RELOAD PERF_EF_UPDATE
                (sample_world_with
                   {[1%nat := sample_event_with (sample_hw_with 0 1000 500 5)]}
                   []) u w1 u' w2 Hstart Hstop)
      as (ev1 & ev2 & Hev1 & _ & Hev2 & Hregs & _ & _ & _ & Hstate & _).
    exists ev2. split; [exact Hev2 |]. split; [exact Hstate |].
    rewrite Hregs.
    assert (Hidx : idx (hw ev1) = 0).
    { vm_compute in Hstart. inversion Hstart; subst w1.
      vm_compute in Hev1. inversion Hev1. reflexivity. }
    rewrite Hidx. reflexivity.
  - vm_compute in Hstart. inversion Hstart; subst w1. absurd_run Hstop.
Defined.

Lemma armpmu_enable_idle_witness :
  armpmu_enable (sample_pmu 2 sample_device) 100%nat sample_world
  = Some (tt, sample_world).
Proof.
  apply (armpmu_enable_idle (sample_pmu 2 sample_device) sample_world
           zeroed_cpu_hw_events).
  - reflexivity.
  - intros i Hi. apply lookup_replicate_2.
    cbn [num_events sample_pmu] in Hi. unfold ARMPMU_MAX_HWEVENTS. lia.
Defined.

Lemma map_cpu_event_raw_within_mask_witness :
  map_cpu_event 7 3 2 PERF_TYPE_RAW 0x1234 [0x11; 0xFFFF]
    (fun _ _ _ => 0xFFFF) 0xff = Some 0x34.
Proof.
  destruct (map_cpu_event_raw_within_mask 7 3 2 0x1234 [0x11; 0xFFFF]
              (fun _ _ _ => 0xFFFF) 0xff) as [Hval _];
    [by_evaluation |].
  rewrite Hval. reflexivity.
Defined.

Lemma map_cpu_event_failures_witness :
  map_cpu_event 7 3 2 PERF_TYPE_HARDWARE 2 [0x11; 0xFFFF]
    (fun _ _ _ => 0xFFFF) 0xff = None
  ∧ map_cpu_event 7 3 2 PERF_TYPE_HARDWARE 1 [0x11; 0xFFFF]
      (fun _ _ _ => 0xFFFF) 0xff = Some (- ENOENT).
Proof.
  split.
  - apply (map_cpu_event_failures 7 3 2 PERF_TYPE_HARDWARE 2 [0x11; 0xFFFF]
             (fun _ _ _ => 0xFFFF) 0xff).
    + repeat constructor; by_evaluation.
    + intros; by_evaluation.
    + by_evaluation.
    + by_evaluation.
    + split; [reflexivity | by_evaluation].
  - destruct (map_cpu_event 7 3 2 PERF_TYPE_HARDWARE 1 [0x11; 0xFFFF]
                (fun _ _ _ => 0xFFFF) 0xff) as [r |] eqn:Hrun;
      [| vm_compute in Hrun; discriminate Hrun].
    destruct (map_cpu_event_failures 7 3 2 PERF_TYPE_HARDWARE 1
                [0x11; 0xFFFF] (fun _ _ _ => 0xFFFF) 0xff)
      as [_ Hneg].
    + repeat constructor; by_evaluation.
    + intros; by_evaluation.
    + by_evaluation.
    + by_evaluation.
    + destruct (Hneg r Hrun) as [-> | (Hty & _)].
      * vm_compute in Hrun. inversion Hrun. reflexivity.
      * reflexivity.
      * discriminate Hty.
Defined.

Lemma init_hw_perf_events_ignores_revision_witness :
  init_hw_perf_events 0x412FC099 = init_hw_perf_events 0x413FC090.
Proof.
  apply (init_hw_perf_events_ignores_revision 0x412FC099 0x413FC090).
  reflexivity.
Defined.

Lemma init_hw_perf_events_decodes_witness :
  init_hw_perf_events 0x412FC099 = Some armv7_a9_pmu_init
  ∧ init_hw_perf_events 0x69052D06 = Some xscale1pmu_init.
Proof.
  split.
  - apply (proj2 (init_hw_perf_events_decodes 0x412FC099 armv7_a9_pmu_init)).
    reflexivity.
  - apply (proj2 (init_hw_perf_events_decodes 0x69052D06 xscale1pmu_init)).
    reflexivity.
Defined.

Lemma user_backtrace_progress_witness :
  match user_backtrace (sample_callchain_store 8) sample_user_memory
          0x1000 [] with
  | (next, entry') => (next = 0 ∨ 0x1000 < next < 2 ^ 32)
  end.
Proof.
  destruct (user_backtrace _ _ _ _) as [next entry'] eqn:Hstep.
  exact (proj1 (user_backtrace_progress (sample_callchain_store 8)
                  sample_user_memory 0x1000 [] next entry'
                  sample_user_memory_ok Hstep)).
Defined.

Lemma perf_callchain_user_returns_witness :
  ∃ fuel entry',
    ∀ k, perf_callchain_user (fun entry => Z.of_nat (length entry))
           (sample_callchain_store 8) 8 sample_user_memory (fuel + k) []
           0x100c = Some entry'.
Proof.
  exact (perf_callchain_user_returns (fun entry => Z.of_nat (length entry))
           (sample_callchain_store 8) 8 sample_user_memory [] 0x100c
           sample_user_memory_ok).
Defined.

Lemma perf_callchain_user_depth_witness :
  ∃ entry',
    perf_callchain_user (fun entry => Z.of_nat (length entry))
      (sample_callchain_store 2) 2 sample_user_memory 2 [] 0x100c
    = Some entry'
    ∧ Z.of_nat (length entry') <= 2.
Proof.
  destruct (perf_callchain_user_depth (fun entry => Z.of_nat (length entry))
              (sample_callchain_store 2) 2 sample_user_memory [] 0x100c
              (sample_callchain_store_counts 2))
    as (entry' & Hrun & _ & Hdepth).
  exists entry'. split; [exact Hrun | exact Hdepth].
Defined.

Lemma perf_callchain_user_records_witness :
  perf_callchain_user (fun entry => Z.of_nat (length entry))
    (sample_callchain_store 8) 8 sample_user_memory 8 [] 0x100c
  = Some [0x8030; 0x8020; 0x8010]
  ∧ perf_callchain_user (fun entry => Z.of_nat (length entry))
      (sample_callchain_store 2) 2 sample_user_memory 2 [] 0x100c
    = Some [0x8020; 0x8010].
Proof.
  assert (Hsample :
            frame_chain sample_user_memory (wrap32 (0x100c - sizeof_frame_tail))
              [ {| fp := 0x104c; sp := 0x1000; lr := 0x8010 |};
                {| fp := 0x108c; sp := 0x1040; lr := 0x8020 |};
                {| fp := 0; sp := 0x1080; lr := 0x8030 |} ]).
  { vm_compute. repeat split; try reflexivity; discriminate. }
  split.
  - destruct (perf_callchain_user_records
                (fun entry => Z.of_nat (length entry))
                (sample_callchain_store 8) 8 sample_user_memory [] 0x100c
                sample_user_memory_ok (sample_callchain_store_counts 8))
      as (frames & _ & Hunique & Hrun).
    rewrite <- (Hunique _ Hsample) in Hrun.
    exact (Hrun 0%nat).
  - destruct (perf_callchain_user_records
                (fun entry => Z.of_nat (length entry))
                (sample_callchain_store 2) 2 sample_user_memory [] 0x100c
                sample_user_memory_ok (sample_callchain_store_counts 2))
      as (frames & _ & Hunique & Hrun).
    rewrite <- (Hunique _ Hsample) in Hrun.
    exact (Hrun 0%nat).
Defined.

Lemma default_period_is_full_range_witness :
  match __hw_perf_event_init (sample_pmu 2 sample_device) 1%nat
          (sample_world_with {[1%nat := sample_event 1%nat [] 5 false]} [])
  with
  | Some (_, w) =>
      ∃ w', armpmu_event_set_period (sample_pmu 2 sample_device) 1%nat 0 w
            = Some (0, w')
            ∧ regs w' = [RegWrite 0 1]
  | None => False
  end.
Proof.
  destruct (__hw_perf_event_init _ _ _) as [[err w] |] eqn:Hrun;
    [| vm_compute in Hrun; discriminate Hrun].
  assert (Herr : err = 0) by (vm_compute in Hrun; congruence).
  subst err.
  destruct (default_period_is_full_range (sample_pmu 2 sample_device)
              1%nat 0
              (sample_world_with {[1%nat := sample_event 1%nat [] 5 false]} [])
              (sample_event 1%nat [] 5 false) w)
    as (ev & w' & _ & _ & _ & _ & Hset & Hregs);
    [reflexivity | reflexivity | reflexivity
    | split; vm_compute; first [reflexivity | discriminate]
    | exact Hrun |].
  exists w'. split; [exact Hset |]. rewrite Hregs.
  vm_compute in Hrun. inversion Hrun. reflexivity.
Defined.
